(** * fmdtools: phase maps, simulation parameters and timers

    A shallow embedding of

    - [fmdtools/analyze/phases.py]: class [PhaseMap], [from_hist],
      [find_overlap_n], [gen_interval_times];
    - [fmdtools/define/container/parameter.py]: [Parameter.__init__],
      [Parameter.check_lim], [Parameter.copy_with_vals],
      [ExampleParameter], [SimParam];
    - [fmdtools/define/object/timer.py]: class [Timer];
    - [fmdtools/define/base.py]: [eq_units].

    Python numbers are modelled as exact rationals ([Q]); numeric equality
    of Python ([1 == 1.0]) is [Qeq].  Where the sources compute with
    floats, the statements are made for numbers on which floating point
    does not round ([binary64], [on_grid]).  A Python [dict] is an
    association list in insertion order, a Python [set] a duplicate-free
    list.  A call that can raise returns a [result]. *)

From Stdlib Require Import String QArith Qround ZArith List Bool Lia Lqa.
From Stdlib Require Import Sorted Permutation DecimalString.
Import ListNotations.

Open Scope Q_scope.

(** ** Exceptions and results *)

(** The messages of the plain [Exception]s the sources raise. *)
Inductive failure : Type :=
| TimeNotInPhases          (* phases.py, find_phase *)
| PhaseNotInModephases     (* phases.py, find_modephase *)
| OutsideLimits            (* parameter.py, check_lim, k_lim *)
| OutsideSetConstraints    (* parameter.py, check_lim, k_set *)
| GlobalPhasesOverlap      (* parameter.py, find_any_phase_overlap *)
| NoDocstring              (* parameter.py, __init__ *)
| InvalidArgs.             (* parameter.py, __init__ *)

Inductive exn : Type :=
| Exception (f : failure)
| KeyError (k : string)
| IndexError
| TypeError
| ValueError
| ZeroDivisionError
| UnboundLocalError.

Inductive result (A : Type) : Type :=
| Ok (a : A)
| Raise (e : exn).

Arguments Ok {A} a.
Arguments Raise {A} e.

Definition bind {A B : Type} (r : result A) (k : A -> result B) : result B :=
  match r with
  | Ok a => k a
  | Raise e => Raise e
  end.

Notation "x <- r ;; k" := (bind r (fun x => k))
  (at level 61, r at next level, right associativity).

Definition is_ok {A : Type} (r : result A) : bool :=
  match r with Ok _ => true | Raise _ => false end.

Fixpoint mapM {A B : Type} (f : A -> result B) (l : list A) : result (list B) :=
  match l with
  | [] => Ok []
  | a :: l' => b <- f a ;; bs <- mapM f l' ;; Ok (b :: bs)
  end.

(** ** Python dictionaries, in insertion order *)

Section Dict.
Context {V : Type}.

Definition dict := list (string * V).

Fixpoint dict_get (d : dict) (k : string) : option V :=
  match d with
  | [] => None
  | (k', v) :: d' => if String.eqb k k' then Some v else dict_get d' k
  end.

(** [d[k]] *)
Definition dict_getitem (d : dict) (k : string) : result V :=
  match dict_get d k with
  | Some v => Ok v
  | None => Raise (KeyError k)
  end.

(** [k in d] *)
Definition dict_mem (d : dict) (k : string) : bool :=
  match dict_get d k with Some _ => true | None => false end.

(** [d[k] = v]: an existing key keeps its place. *)
Fixpoint dict_set (d : dict) (k : string) (v : V) : dict :=
  match d with
  | [] => [(k, v)]
  | (k', v') :: d' =>
      if String.eqb k k' then (k', v) :: d' else (k', v') :: dict_set d' k v
  end.

Definition dict_keys (d : dict) : list string := map fst d.
Definition dict_values (d : dict) : list V := map snd d.

(** Truth value of a dict: non-empty. *)
Definition dict_truthy (d : dict) : bool :=
  match d with [] => false | _ :: _ => true end.
End Dict.

Arguments dict V : clear implicits.

(** [{f(x)[0]: f(x)[1] for x in l}] *)
Definition dict_of_list {V : Type} (l : list (string * V)) : dict V :=
  fold_left (fun d kv => dict_set d (fst kv) (snd kv)) l [].

(** ** Numbers, sets of numbers and numpy helpers *)

(** [x in s] for a list or set of numbers. *)
Definition memQ (x : Q) (s : list Q) : bool := existsb (Qeq_bool x) s.

(** [set(l)]: the distinct numbers of [l]. *)
Fixpoint py_set (l : list Q) : list Q :=
  match l with
  | [] => []
  | x :: l' => x :: filter (fun y => negb (Qeq_bool x y)) (py_set l')
  end.

(** [s.intersection(t)] *)
Definition set_intersection (s t : list Q) : list Q :=
  filter (fun x => memQ x t) s.

(** [s.update(t)] *)
Definition set_update (s t : list Q) : list Q :=
  s ++ filter (fun x => negb (memQ x s)) t.

Fixpoint insert_sorted (x : Q) (l : list Q) : list Q :=
  match l with
  | [] => [x]
  | y :: l' => if Qle_bool x y then x :: y :: l' else y :: insert_sorted x l'
  end.

(** [np.sort(l)] and [l.sort()]: ascending order.  numpy first brings
    the numbers to one type, which changes none that is a float
    ([binary64]). *)
Fixpoint np_sort (l : list Q) : list Q :=
  match l with
  | [] => []
  | x :: l' => insert_sorted x (np_sort l')
  end.

(** The instants [start + k * step] for [k = 0 .. n-1]. *)
Definition arange_items (start step : Q) (n : nat) : list Q :=
  map (fun k => start + inject_Z (Z.of_nat k) * step) (seq 0 n).

(** [np.arange(start, stop, step)]:
    [ceil((stop - start) / step)] instants from [start].  numpy computes
    the quotient and the instants in floating point; for numbers of one
    grid ([on_grid]) these are the number and the instants below. *)
Definition np_arange (start stop step : Q) : result (list Q) :=
  if Qeq_bool step 0 then Raise ZeroDivisionError
  else Ok (arange_items start step
             (Z.to_nat (Qceiling ((stop - start) / step)))).

(** [np.concatenate(ls)]: needs at least one array. *)
Definition np_concatenate (ls : list (list Q)) : result (list Q) :=
  match ls with
  | [] => Raise ValueError
  | _ => Ok (List.concat ls)
  end.

(** [sum(l)] *)
Definition py_sum (l : list Q) : Q := fold_left Qplus l 0.

(** ** Numbers that floating point holds exactly *)

(** The sources compute with Python floats and with numpy arrays of
    [float64]; the definitions of this file compute with exact rationals.
    The two agree as long as no operation rounds.  The predicates below
    name numbers for which none does; the statements about numbers that
    the sources compute (sums, instants of [np.arange], sorted bounds)
    are made for such numbers.

    [binary64 q]: [q] is a finite float, [m * 2^e] with [|m| < 2^53] and
    [-1074 <= e <= 971].  A Python [int] of this form also converts to a
    float without rounding. *)
Definition binary64 (q : Q) : Prop :=
  exists m e : Z,
    (Z.abs m < 2 ^ 53)%Z /\ (-1074 <= e <= 971)%Z /\
    q == inject_Z m * 2 ^ e.

(** [on_grid j q]: [q] is [m / 2^j] for a whole number [m] with
    [|m| <= 2^50].  Such a number is a float, and floating point adds
    and subtracts up to eight numbers of one grid without rounding: the
    result is again a multiple of [1 / 2^j], of at most 53 bits.  Whole
    numbers are on the grid [j = 0], halves on the grid [j = 1]. *)
Definition on_grid (j : nat) (q : Q) : Prop :=
  (j <= 1000)%nat /\
  exists m : Z,
    (Z.abs m <= 2 ^ 50)%Z /\ q == inject_Z m / inject_Z (2 ^ Z.of_nat j).

(** The bounds of the intervals of a dict and [dq] are floats, and so is
    every sum [end + dq]: floating point computes it without rounding. *)
Definition ends_exact (dq : Q) (d : list (string * (Q * Q))) : Prop :=
  binary64 dq /\
  Forall (fun e => binary64 (fst (snd e)) /\ binary64 (snd (snd e)) /\
                   binary64 (snd (snd e) + dq)) d.

(** The bounds of all intervals of a dict are on the grid [j]. *)
Definition bounds_on_grid (j : nat) (d : list (string * (Q * Q))) : Prop :=
  Forall (fun e => on_grid j (fst (snd e)) /\ on_grid j (snd (snd e))) d.

(** ** Timer (define/object/timer.py) *)

Module Timer.

Inductive timer_mode : Type := standby | ticking | complete | set_.

Record t : Type := mk
  { time : Q;
    tstep : Q;
    mode : timer_mode }.

(** [Timer.__init__] *)
Definition init : t := {| time := 0; tstep := -1; mode := standby |}.

(** [Timer.inc(tstep=[])]: the argument is used when it is truthy
    (given and not zero), [self.tstep] otherwise.  The sum is a sum of
    floats, without rounding for a time and a step of one grid
    ([on_grid]). *)
Definition inc (s : t) (arg : option Q) : t :=
  let s1 :=
    if Qle_bool 0 (time s) then
      let step := match arg with
                  | Some d => if Qeq_bool d 0 then tstep s else d
                  | None => tstep s
                  end in
      {| time := time s + step; tstep := tstep s; mode := ticking |}
    else s in
  if Qle_bool (time s1) 0
  then {| time := 0; tstep := tstep s1; mode := complete |}
  else s1.

(** The value of [self.time] when [inc] reaches its test
    [if self.time <= 0]. *)
Definition stepped_time (s : t) (arg : option Q) : Q :=
  if Qle_bool 0 (time s) then
    time s + match arg with
             | Some d => if Qeq_bool d 0 then tstep s else d
             | None => tstep s
             end
  else time s.

(** [Timer.reset] *)
Definition reset (s : t) : t :=
  {| time := 0; tstep := tstep s; mode := standby |}.

Inductive overwrite_mode : Type :=
| always | if_more | if_less | never | increment | other.

(** [Timer.set_timer(time, tstep=-1.0, overwrite='always')] *)
Definition set_timer (s : t) (tm : Q) (ts : Q) (ow : overwrite_mode) : t :=
  let time' :=
    match ow with
    | always => tm
    | if_more => if Qlt_le_dec (time s) tm then tm else time s
    | if_less => if Qlt_le_dec tm (time s) then tm else time s
    | never => if Qeq_bool (time s) 0 then tm else time s
    | increment => time s + tm
    | other => time s
    end in
  {| time := time'; tstep := ts; mode := set_ |}.

(** The calls of a run that only increments (with the default step) and
    resets. *)
Inductive call : Type := CallInc | CallReset.

Definition step (s : t) (c : call) : t :=
  match c with
  | CallInc => inc s None
  | CallReset => reset s
  end.

Definition run (s : t) (cs : list call) : t := fold_left step cs s.

End Timer.

(** ** PhaseMap (analyze/phases.py) *)

Definition interval : Type := (Q * Q)%type.

Record PhaseMap : Type := mkPhaseMap
  { phases : dict interval;
    modephases : dict (list string);
    dt : Q }.

(** The [phases] argument of the constructor: a dict
    [{'phase1': [start, end]}] or a tuple [(('phase1', start, end), ...)]. *)
Inductive phases_arg : Type :=
| PhasesDict (d : dict interval)
| PhasesTuple (t : list (string * Q * Q)).

(** [PhaseMap.__init__(phases, modephases={}, dt=1.0)].  No path raises. *)
Definition PhaseMap_init (ph : phases_arg) (mph : dict (list string)) (dt : Q)
  : result PhaseMap :=
  let phases :=
    match ph with
    | PhasesTuple t =>
        dict_of_list (map (fun p => (fst (fst p), (snd (fst p), snd p))) t)
    | PhasesDict d => d
    end in
  Ok {| phases := phases; modephases := mph; dt := dt |}.

(** [times[0] <= time < times[1] + dt] *)
Definition in_phase (times : interval) (time dt : Q) : bool :=
  Qle_bool (fst times) time && negb (Qle_bool (snd times + dt) time).

(** The loop of [find_phase] over [self.phases.items()]. *)
Fixpoint find_phase_in (d : dict interval) (time dt : Q) : result string :=
  match d with
  | [] => Raise (Exception TimeNotInPhases)
  | (phase, times) :: d' =>
      if in_phase times time dt then Ok phase else find_phase_in d' time dt
  end.

(** [PhaseMap.find_phase(time, dt=1.0)] *)
Definition find_phase (pm : PhaseMap) (time : Q) (dt : Q) : result string :=
  find_phase_in (phases pm) time dt.

(** The default of the [dt] argument of [find_phase]. *)
Definition find_phase_dt_default : Q := 1.

Definition str_mem (s : string) (l : list string) : bool :=
  existsb (String.eqb s) l.

Fixpoint find_modephase_in (d : dict (list string)) (phase : string)
  : result string :=
  match d with
  | [] => Raise (Exception PhaseNotInModephases)
  | (mode, mode_phases) :: d' =>
      if str_mem phase mode_phases then Ok mode else find_modephase_in d' phase
  end.

(** [PhaseMap.find_modephase(phase)] *)
Definition find_modephase (pm : PhaseMap) (phase : string) : result string :=
  find_modephase_in (modephases pm) phase.

(** [PhaseMap.find_base_phase(time)] *)
Definition find_base_phase (pm : PhaseMap) (time : Q) : result string :=
  phase <- find_phase pm time find_phase_dt_default ;;
  if dict_truthy (modephases pm) then find_modephase pm phase else Ok phase.

(** [phase_times[phase] += 1] *)
Definition dict_incr (d : dict nat) (k : string) : result (dict nat) :=
  n <- dict_getitem d k ;; Ok (dict_set d k (S n)).

(** The loop [for time in times] of [calc_samples_in_phases]. *)
Fixpoint count_samples (pm : PhaseMap) (times : list Q) (phase_times : dict nat)
  : result (dict nat) :=
  match times with
  | [] => Ok phase_times
  | time :: times' =>
      phase <- find_phase pm time find_phase_dt_default ;;
      phase <- (if dict_truthy (modephases pm)
                then find_modephase pm phase else Ok phase) ;;
      phase_times <- dict_incr phase_times phase ;;
      count_samples pm times' phase_times
  end.

(** [PhaseMap.calc_samples_in_phases], called with any number of times *)
Definition calc_samples_in_phases (pm : PhaseMap) (times : list Q)
  : result (dict nat) :=
  let phase_times :=
    if dict_truthy (modephases pm)
    then map (fun ph => (ph, 0%nat)) (dict_keys (modephases pm))
    else map (fun ph => (ph, 0%nat)) (dict_keys (phases pm)) in
  count_samples pm times phase_times.

(** [PhaseMap.calc_phase_time(phase)] *)
Definition calc_phase_time (pm : PhaseMap) (phase : string) : result Q :=
  phasetimes <- dict_getitem (phases pm) phase ;;
  Ok (snd phasetimes - fst phasetimes + dt pm).

(** [PhaseMap.calc_modephase_time(modephase)] *)
Definition calc_modephase_time (pm : PhaseMap) (modephase : string) : result Q :=
  mode_phases <- dict_getitem (modephases pm) modephase ;;
  ts <- mapM (calc_phase_time pm) mode_phases ;;
  Ok (py_sum ts).

(** [PhaseMap.calc_scen_exposure_time(time)] *)
Definition calc_scen_exposure_time (pm : PhaseMap) (time : Q) : result Q :=
  phase <- find_phase pm time find_phase_dt_default ;;
  if dict_truthy (modephases pm) then
    phase <- find_modephase pm phase ;;
    calc_modephase_time pm phase
  else calc_phase_time pm phase.

(** [gen_interval_times(interval, dt)] *)
Definition gen_interval_times (i : interval) (dt : Q) : result (list Q) :=
  np_arange (fst i) (snd i + dt) dt.

(** [PhaseMap.get_phase_times(phase)].  A name that is neither a modephase
    nor a phase leaves [intervals] unbound. *)
Definition get_phase_times (pm : PhaseMap) (phase : string) : result (list Q) :=
  intervals <-
    (match dict_get (modephases pm) phase with
     | Some phs => mapM (dict_getitem (phases pm)) phs
     | None =>
         match dict_get (phases pm) phase with
         | Some i => Ok [i]
         | None => Raise UnboundLocalError
         end
     end) ;;
  int_times <- mapM (fun i => gen_interval_times i (dt pm)) intervals ;;
  all_times <- np_concatenate int_times ;;
  Ok (np_sort (py_set all_times)).

(** The loop [for phase in phases_to_sample] of [get_sample_times]. *)
Fixpoint sample_loop (pm : PhaseMap) (names : list string)
  (sampletimes : dict (list Q)) : result (dict (list Q)) :=
  match names with
  | [] => Ok sampletimes
  | phase :: names' =>
      ts <- get_phase_times pm phase ;;
      sample_loop pm names' (dict_set sampletimes phase ts)
  end.

(** [PhaseMap.get_sample_times], called with any number of names *)
Definition get_sample_times (pm : PhaseMap) (phases_to_sample : list string)
  : result (dict (list Q)) :=
  let phases_to_sample :=
    match phases_to_sample with
    | [] =>
        if dict_truthy (modephases pm) then dict_keys (modephases pm)
        else if dict_truthy (phases pm) then dict_keys (phases pm)
        else []
    | _ => phases_to_sample
    end in
  sample_loop pm phases_to_sample [].

(** ** find_overlap_n (analyze/phases.py) *)

(** An element of the [intervals] argument: an interval [[start, end]], or
    a list of such intervals; the empty list is both. *)
Inductive interval_arg : Type :=
| Flat (ts : list Q)
| Nested (its : list (list Q)).

(** What [find_overlap_n] returns: the pair
    [(joined times, sizes of the instant sets)], or, from the [IndexError]
    handler, the first interval or the number [0]. *)
Inductive overlap_result : Type :=
| Joined (times : list Q) (intervals_times : list nat)
| FirstInterval (i : interval_arg)
| Zero.

(** [l[0]] and [l[-1]] *)
Definition item_first (l : list Q) : result Q :=
  match l with [] => Raise IndexError | x :: _ => Ok x end.

Definition item_last (l : list Q) : result Q :=
  match l with [] => Raise IndexError | x :: l' => Ok (last l' x) end.

(** [if type(interval[0]) in [float, int]: interval = [interval]] *)
Definition as_intervals (interval : interval_arg) : result (list (list Q)) :=
  match interval with
  | Flat [] => Raise IndexError
  | Nested [] => Raise IndexError
  | Flat ts => Ok [ts]
  | Nested its => Ok its
  end.

(** [{*np.arange(i[0], i[-1]+1)}] *)
Definition unit_instants (i : list Q) : result (list Q) :=
  a <- item_first i ;;
  b <- item_last i ;;
  ts <- np_arange a (b + 1) 1 ;;
  Ok (py_set ts).

(** The set [possible_times] of one element of [intervals]. *)
Definition possible_times (interval : interval_arg) : result (list Q) :=
  its <- as_intervals interval ;;
  sets <- mapM unit_instants its ;;
  Ok (fold_left set_update sets []).

(** The loop [for i, interval in enumerate(intervals)]. *)
Fixpoint overlap_loop (intervals : list interval_arg) (i : nat)
  (joined_times : list Q) (intervals_times : list nat)
  : result (list Q * list nat) :=
  match intervals with
  | [] => Ok (joined_times, intervals_times)
  | interval :: rest =>
      possible <- possible_times interval ;;
      let joined_times :=
        if Nat.eqb i 0 then possible
        else set_intersection joined_times possible in
      overlap_loop rest (S i) joined_times
        (intervals_times ++ [List.length possible])
  end.

Fixpoint list_eqb {A : Type} (eqb : A -> A -> bool) (l1 l2 : list A) : bool :=
  match l1, l2 with
  | [], [] => true
  | x :: l1', y :: l2' => eqb x y && list_eqb eqb l1' l2'
  | _, _ => false
  end.

(** [==] on the elements of [intervals]. *)
Definition interval_arg_eqb (a b : interval_arg) : bool :=
  match a, b with
  | Flat [], Nested [] => true
  | Nested [], Flat [] => true
  | Flat s, Flat t => list_eqb Qeq_bool s t
  | Nested s, Nested t => list_eqb (list_eqb Qeq_bool) s t
  | _, _ => false
  end.

(** [find_overlap_n(intervals)] *)
Definition find_overlap_n (intervals : list interval_arg)
  : result overlap_result :=
  match overlap_loop intervals 0 [] [] with
  | Ok (joined_times, intervals_times) =>
      match joined_times with
      | [] => Ok (Joined [] intervals_times)
      | _ => Ok (Joined (np_sort joined_times) intervals_times)
      end
  | Raise IndexError =>
      match intervals with
      | [] => Raise IndexError
      | i0 :: _ =>
          if forallb (interval_arg_eqb i0) intervals
          then Ok (FirstInterval i0) else Ok Zero
      end
  | Raise e => Raise e
  end.

(** ** Parameter (define/container/parameter.py) *)

(** Field values: numbers and strings. *)
Inductive value : Type :=
| VNum (q : Q)
| VStr (s : string).

(** [a <= b]; a number and a string do not compare. *)
Definition value_le (a b : value) : result bool :=
  match a, b with
  | VNum x, VNum y => Ok (Qle_bool x y)
  | VStr s, VStr t => Ok (String.leb s t)
  | _, _ => Raise TypeError
  end.

(** [a == b] *)
Definition value_eqb (a b : value) : bool :=
  match a, b with
  | VNum x, VNum y => Qeq_bool x y
  | VStr s, VStr t => String.eqb s t
  | _, _ => false
  end.

(** [v in var_set] *)
Definition value_mem (v : value) (s : list value) : bool :=
  existsb (fun x => value_eqb x v) s.

(** A class derived from [Parameter]: its docstring, its fields with their
    defaults, and its class attributes [<field>_lim] and [<field>_set]. *)
Record param_class : Type := mkParamClass
  { has_doc : bool;
    fields : dict value;
    k_lim : dict (value * value);
    k_set : dict (list value) }.

(** [Parameter.check_lim(k, v)] *)
Definition check_lim (cls : param_class) (k : string) (v : value)
  : result unit :=
  _ <- (match dict_get (k_lim cls) k with
        | Some var_lims =>
            lo_ok <- value_le (fst var_lims) v ;;
            in_lims <- (if lo_ok then value_le v (snd var_lims)
                        else Ok false) ;;
            if in_lims then Ok tt else Raise (Exception OutsideLimits)
        | None => Ok tt
        end) ;;
  match dict_get (k_set cls) k with
  | Some (x :: s) =>
      if value_mem v (x :: s) then Ok tt
      else Raise (Exception OutsideSetConstraints)
  | _ => Ok tt
  end.

(** The positional arguments: values, or a first argument that is an
    instance of the class, which [astuple] replaces by its values. *)
Inductive pos_args : Type :=
| Args (l : list value)
| ArgsInstance (inst : dict value) (others : list value).

(** The keyword switches of [Parameter.__init__]. *)
Record init_flags : Type := mkFlags
  { strict_immutability : bool;
    check_type_flag : bool;
    check_pickle_flag : bool;
    set_type : bool;
    check_lim_flag : bool }.

Definition default_flags : init_flags :=
  {| strict_immutability := true; check_type_flag := true;
     check_pickle_flag := true; set_type := true; check_lim_flag := true |}.

(** The value supplied for the field at position [i] with name [k]:
    positional when [i < len(args)], else by keyword. *)
Definition supplied (args : list value) (kwargs : dict value)
  (i : nat) (k : string) : option value :=
  match nth_error args i with
  | Some v => Some v
  | None => dict_get kwargs k
  end.

(** The loop [for i, k in enumerate(self.__fields__)] of [__init__]. *)
Fixpoint check_lim_loop (cls : param_class) (args : list value)
  (kwargs : dict value) (i : nat) (ks : list string) : result unit :=
  match ks with
  | [] => Ok tt
  | k :: ks' =>
      _ <- (match supplied args kwargs i k with
            | Some v => check_lim cls k v
            | None => Ok tt
            end) ;;
      check_lim_loop cls args kwargs (S i) ks'
  end.

Section ParameterInit.

(** The steps of [__init__] that follow the limit check: [set_arg_type]
    (of [BaseContainer]), the record constructor, [check_immutable],
    [check_type] and [check_pickle].  They depend on the run-time types
    of Python and are taken as a parameter. *)
Variable finish :
  param_class -> init_flags -> list value -> dict value ->
  result (dict value).

(** [Parameter.__init__], with its positional arguments, its keyword
    switches and its keyword arguments. *)
Definition Parameter_init (cls : param_class) (args : pos_args)
  (flags : init_flags) (kwargs : dict value) : result (dict value) :=
  if negb (has_doc cls) then Raise (Exception NoDocstring)
  else
    let args :=
      match args with
      | Args l => l
      | ArgsInstance inst _ => dict_values inst
      end in
    _ <- (if check_lim_flag flags
          then check_lim_loop cls args kwargs 0 (dict_keys (fields cls))
          else Ok tt) ;;
    finish cls flags args kwargs.

End ParameterInit.

(** The record constructor on well-typed values: positional arguments
    fill the first fields, defaults the others, and a keyword replaces
    what its field holds, also a value given by position; a [TypeError]
    of the constructor (too many arguments, an unknown keyword) is
    re-raised as [Exception]. *)
Fixpoint fill_fields (fs : dict value) (args : list value)
  (kwargs : dict value) : result (dict value) :=
  match fs with
  | [] => match args with [] => Ok [] | _ => Raise (Exception InvalidArgs) end
  | (k, dflt) :: fs' =>
      let given := match args with v :: _ => v | [] => dflt end in
      rest <- fill_fields fs' (tl args) kwargs ;;
      Ok ((k, match dict_get kwargs k with Some w => w | None => given end)
            :: rest)
  end.

Definition record_init (cls : param_class) (flags : init_flags)
  (args : list value) (kwargs : dict value) : result (dict value) :=
  if forallb (fun k => dict_mem (fields cls) k) (dict_keys kwargs)
  then fill_fields (fields cls) args kwargs
  else Raise (Exception InvalidArgs).

(** [class ExampleParameter(Parameter, readonly=True)] *)
Definition ExampleParameter : param_class :=
  {| has_doc := true;
     fields := [("x"%string, VNum 1); ("y"%string, VNum 3);
                ("z"%string, VNum 0)];
     k_lim := [("x"%string, (VNum 0, VNum 10))];
     k_set := [("y"%string, [VNum 1; VNum 2; VNum 3; VNum 4])] |}.

(** ** SimParam (define/container/parameter.py) *)

Definition phase_spec : Type := (string * Q * Q)%type.

Record SimParam : Type := mkSimParam
  { sp_phases : list phase_spec;
    sp_times : list Q;
    sp_dt : Q;
    sp_units : string;
    sp_end_condition : string;
    sp_use_local : bool }.

(** The keyword arguments of a [SimParam(...)] call. *)
Record SimParam_kwargs : Type := mkSimParamKwargs
  { kw_phases : option (list phase_spec);
    kw_times : option (list Q);
    kw_dt : option Q;
    kw_units : option string;
    kw_end_condition : option string;
    kw_use_local : option bool }.

(** The class attributes of [SimParam] that [check_lim] reads: only
    [units_set] is declared, no [<field>_lim].  The fields themselves are
    those of the record [SimParam]. *)
Definition SimParam_class : param_class :=
  {| has_doc := true;
     fields := [];
     k_lim := [];
     k_set := [("units"%string,
                map VStr ["sec"; "min"; "hr"; "day"; "wk"; "month";
                          "year"]%string)] |}.

(** The loop of [find_any_phase_overlap] over the sorted bounds:
    [if int_low[i+1] <= int_high[i]: raise]. *)
Fixpoint overlap_scan (int_low int_high : list Q) : bool :=
  match int_low, int_high with
  | _ :: ((l1 :: _) as rest), h0 :: hs =>
      if Qle_bool l1 h0 then true else overlap_scan rest hs
  | _, _ => false
  end.

(** [SimParam.find_any_phase_overlap] *)
Definition find_any_phase_overlap (phases : list phase_spec) : result unit :=
  let phase_dict :=
    dict_of_list (map (fun v => (fst (fst v), (snd (fst v), snd v))) phases) in
  let intervals := dict_values phase_dict in
  let int_low := np_sort (map fst intervals) in
  let int_high := np_sort (map snd intervals) in
  if overlap_scan int_low int_high
  then Raise (Exception GlobalPhasesOverlap)
  else Ok tt.

Definition or_default {A : Type} (o : option A) (d : A) : A :=
  match o with Some a => a | None => d end.

(** [SimParam.__init__], called with keyword arguments: the default of [phases] when only
    [times] is given, the limit check of [Parameter.__init__] (only [units]
    has a constraint), the record itself, then the overlap check. *)
Definition SimParam_init (kwargs : SimParam_kwargs) : result SimParam :=
  phases_kw <-
    (match kw_times kwargs, kw_phases kwargs with
     | Some times, None =>
         t_end <- item_last times ;;
         Ok (Some [("na"%string, 0, t_end)])
     | _, ph => Ok ph
     end) ;;
  _ <- (match kw_units kwargs with
        | Some u => check_lim SimParam_class "units" (VStr u)
        | None => Ok tt
        end) ;;
  let self :=
    {| sp_phases := or_default phases_kw [("na"%string, 0, 100)];
       sp_times := or_default (kw_times kwargs) [0; 100];
       sp_dt := or_default (kw_dt kwargs) 1;
       sp_units := or_default (kw_units kwargs) "hr"%string;
       sp_end_condition := or_default (kw_end_condition kwargs) EmptyString;
       sp_use_local := or_default (kw_use_local kwargs) true |} in
  _ <- find_any_phase_overlap (sp_phases self) ;;
  Ok self.

(** [SimParam.__init__] called with keyword arguments among which are
    switches of [Parameter.__init__], to which [SimParam.__init__] hands
    all its keywords on: [check_lim=False] skips the limit check, here
    that of [units].  The other switches guard the steps on run-time
    types (conversion, immutability, type and pickle checks), which the
    typed record [SimParam] leaves out.  Positional arguments are not
    modelled: what [set_arg_type] of [BaseContainer], which is not among
    the sources, makes of a field that is given by position is not
    known. *)
Definition SimParam_init_with (flags : init_flags) (kwargs : SimParam_kwargs)
  : result SimParam :=
  phases_kw <-
    (match kw_times kwargs, kw_phases kwargs with
     | Some times, None =>
         t_end <- item_last times ;;
         Ok (Some [("na"%string, 0, t_end)])
     | _, ph => Ok ph
     end) ;;
  _ <- (if check_lim_flag flags then
          match kw_units kwargs with
          | Some u => check_lim SimParam_class "units" (VStr u)
          | None => Ok tt
          end
        else Ok tt) ;;
  let self :=
    {| sp_phases := or_default phases_kw [("na"%string, 0, 100)];
       sp_times := or_default (kw_times kwargs) [0; 100];
       sp_dt := or_default (kw_dt kwargs) 1;
       sp_units := or_default (kw_units kwargs) "hr"%string;
       sp_end_condition := or_default (kw_end_condition kwargs) EmptyString;
       sp_use_local := or_default (kw_use_local kwargs) true |} in
  _ <- find_any_phase_overlap (sp_phases self) ;;
  Ok self.

(** ** Vocabulary of the statements *)

(** The keys of the counts: the modephases when there are any, the phases
    otherwise. *)
Definition base_keys (pm : PhaseMap) : list string :=
  if dict_truthy (modephases pm) then dict_keys (modephases pm)
  else dict_keys (phases pm).

(** The call returned the name [k]. *)
Definition returns_name (r : result string) (k : string) : bool :=
  match r with Ok p => String.eqb p k | Raise _ => false end.

(** How many of [times] have [k] as their phase (or modephase). *)
Definition samples_in (pm : PhaseMap) (times : list Q) (k : string) : nat :=
  List.length (filter (fun t => returns_name (find_base_phase pm t) k) times).

(** [t] lies in the interval extended by one at its end:
    [start <= t < end + 1]. *)
Definition lies_in (iv : interval) (t : Q) : Prop :=
  fst iv <= t /\ t < snd iv + 1.

(** [p] is the first of the phases, in declaration order, that [t] lies
    in. *)
Definition first_phase_of (d : dict interval) (t : Q) (p : string) : Prop :=
  exists pre iv post,
    d = pre ++ (p, iv) :: post /\ lies_in iv t /\
    Forall (fun e => ~ lies_in (snd e) t) pre.

(** [m] is the first of the modephases, in declaration order, that lists
    the phase [p]. *)
Definition first_group_of (mph : dict (list string)) (p m : string) : Prop :=
  exists pre phs post,
    mph = pre ++ (m, phs) :: post /\ In p phs /\
    Forall (fun e => ~ In p (snd e)) pre.

(** The time [t] falls in [k]: [k] is the first phase that [t] lies in
    or, when there are modephases, the first modephase that lists that
    phase. *)
Definition falls_in (pm : PhaseMap) (k : string) (t : Q) : Prop :=
  exists p,
    first_phase_of (phases pm) t p /\
    match modephases pm with
    | [] => k = p
    | _ :: _ => first_group_of (modephases pm) p k
    end.

(** [n] of the numbers of [l] satisfy [P]. *)
Inductive counted (P : Q -> Prop) : list Q -> nat -> Prop :=
| counted_nil : counted P [] 0
| counted_yes (t : Q) (l : list Q) (n : nat) :
    P t -> counted P l n -> counted P (t :: l) (S n)
| counted_no (t : Q) (l : list Q) (n : nat) :
    ~ P t -> counted P l n -> counted P (t :: l) n.

(** The map with another timestep. *)
Definition with_dt (pm : PhaseMap) (d : Q) : PhaseMap :=
  {| phases := phases pm; modephases := modephases pm; dt := d |}.

(** A list without two equal numbers. *)
Fixpoint distinctQ (l : list Q) : Prop :=
  match l with
  | [] => True
  | x :: l' => memQ x l' = false /\ distinctQ l'
  end.

(** Ascending, and strictly ascending, lists. *)
Definition sortedQ (l : list Q) : Prop := StronglySorted Qle l.
Definition increasingQ (l : list Q) : Prop := StronglySorted Qlt l.

(** The instants of one phase: [np.arange(start, end + dt, dt)]. *)
Definition phase_instants (i : interval) (d : Q) : list Q :=
  arange_items (fst i) d (Z.to_nat (Qceiling ((snd i + d - fst i) / d))).

(** [x] is an instant of the interval [i] at step [d]: one of
    [start, start + d, start + 2 * d, ...] below [end + d]. *)
Definition instant_on (d : Q) (i : interval) (x : Q) : Prop :=
  exists k : nat, x == fst i + inject_Z (Z.of_nat k) * d /\ x < snd i + d.

(** The names sampled when none is given. *)
Definition default_names (pm : PhaseMap) : list string :=
  if dict_truthy (modephases pm) then dict_keys (modephases pm)
  else dict_keys (phases pm).

(** An interval [[start, ..., end]] is well formed when it is not empty,
    a list of intervals when it is not empty and none of its intervals
    is. *)
Definition well_formed (iv : interval_arg) : Prop :=
  match iv with
  | Flat ts => ts <> []
  | Nested its => its <> [] /\ Forall (fun i => i <> []) its
  end.

(** [x] is one of the instants [start, start + 1, ...] below [end + 1]. *)
Definition unit_grid (i : list Q) (x : Q) : Prop :=
  exists a b (k : nat),
    item_first i = Ok a /\ item_last i = Ok b /\
    x == a + inject_Z (Z.of_nat k) /\ x < b + 1.

(** The eligible instants of an element of [intervals]. *)
Definition eligible (iv : interval_arg) (x : Q) : Prop :=
  match iv with
  | Flat ts => unit_grid ts x
  | Nested its => Exists (fun i => unit_grid i x) its
  end.




(** All numbers of an element of [intervals] are on the grid [j]. *)
Definition numbers_on_grid (j : nat) (iv : interval_arg) : Prop :=
  match iv with
  | Flat ts => Forall (on_grid j) ts
  | Nested its => Forall (Forall (on_grid j)) its
  end.

(** Two closed intervals share a point. *)
Definition intervals_overlap (a b : interval) : Prop :=
  fst a <= snd b /\ fst b <= snd a.

(** Two intervals at different places of the list share a point. *)
Definition has_overlap (ivs : list interval) : Prop :=
  exists (i j : nat) (a b : interval),
    (i < j)%nat /\ nth_error ivs i = Some a /\ nth_error ivs j = Some b /\
    intervals_overlap a b.

(** The interval [[v[1], v[2]]] of an entry of [phases]. *)
Definition interval_of (v : phase_spec) : interval := (snd (fst v), snd v).

(** How many elements pass a test; how many numbers are at most [t],
    below [t]; whether an interval contains [t]. *)
Definition count {A : Type} (p : A -> bool) (l : list A) : nat :=
  List.length (filter p l).

Definition count_le (t : Q) (l : list Q) : nat :=
  count (fun x => Qle_bool x t) l.
Definition count_lt (t : Q) (l : list Q) : nat :=
  count (fun x => negb (Qle_bool t x)) l.
Definition contains (t : Q) (iv : interval) : bool :=
  Qle_bool (fst iv) t && Qle_bool t (snd iv).

(** The names [v[0]] of the entries of [phases]. *)
Definition phase_names (phases : list phase_spec) : list string :=
  map (fun v => fst (fst v)) phases.

(** The value of [units], when given, is one of [units_set]. *)
Definition units_valid (kw : SimParam_kwargs) : Prop :=
  match kw_units kw with
  | Some u =>
      In u ["sec"; "min"; "hr"; "day"; "wk"; "month"; "year"]%string
  | None => True
  end.

(** [v] is a number outside the bounds declared for field [k]. *)
Definition outside_limits (cls : param_class) (k : string) (v : value)
  : Prop :=
  exists lo hi q,
    dict_get (k_lim cls) k = Some (VNum lo, VNum hi) /\
    v = VNum q /\ (q < lo \/ hi < q).

(** [v] is not one of the values allowed for field [k]. *)
Definition outside_set (cls : param_class) (k : string) (v : value) : Prop :=
  exists s,
    dict_get (k_set cls) k = Some s /\ s <> [] /\ value_mem v s = false.





(** The switches of a call that passes [check_lim=False]. *)
Definition no_check_lim : init_flags :=
  {| strict_immutability := true; check_type_flag := true;
     check_pickle_flag := true; set_type := true; check_lim_flag := false |}.

(** ** Further vocabulary: timers *)

(** [n] calls of [inc()] in a row. *)
Definition inc_times (s : Timer.t) (n : nat) : Timer.t :=
  Timer.run s (repeat Timer.CallInc n).

(** ** Further vocabulary: phase maps *)

(** The sum of the counts of a dict. *)
Definition dict_total (d : dict nat) : nat := list_sum (dict_values d).

(** Every declared phase belongs to some modephase. *)
Definition all_grouped (pm : PhaseMap) : Prop :=
  forall p, In p (dict_keys (phases pm)) ->
            exists m phs, In (m, phs) (modephases pm) /\ In p phs.

(** Any two phases are apart, each extended by [dq] at its end. *)
Definition separated (dq : Q) (d : dict interval) : Prop :=
  ForallOrdPairs
    (fun e1 e2 => snd (snd e1) + dq <= fst (snd e2) \/
                  snd (snd e2) + dq <= fst (snd e1)) d.

(** ** Parameter.copy_with_vals (define/container/parameter.py) *)

(** [{**a, **b}] *)
Definition dict_union {V : Type} (a b : dict V) : dict V :=
  fold_left (fun d kv => dict_set d (fst kv) (snd kv)) b a.

Section ParameterCopy.

Variable finish :
  param_class -> init_flags -> list value -> dict value ->
  result (dict value).

(** [Parameter.copy_with_vals], called with keywords: a new instance of the
    class from
    [{**asdict(self), **kwargs}].  Keywords that name a switch of
    [__init__] ([check_lim=False], ...) reach the constructor as its
    switches [flags]; the other keywords, [kwargs], replace values of
    the instance. *)
Definition copy_with_vals (cls : param_class) (self : dict value)
  (flags : init_flags) (kwargs : dict value) : result (dict value) :=
  Parameter_init finish cls (Args []) flags (dict_union self kwargs).

End ParameterCopy.

(** ** eq_units (define/base.py) *)

Definition factors : dict Q :=
  [("sec"%string, 1); ("min"%string, 60); ("hr"%string, 3600);
   ("day"%string, 86400); ("wk"%string, 604800);
   ("month"%string, 2629746); ("year"%string, 31556952)].

(** [eq_units(rateunit, timeunit)]:
    [factors[timeunit] / factors[rateunit]].  The sources return the float
    nearest to this quotient, the quotient itself when it is a whole
    number. *)
Definition eq_units (rateunit timeunit : string) : result Q :=
  ft <- dict_getitem factors timeunit ;;
  fr <- dict_getitem factors rateunit ;;
  Ok (ft / fr).

(** ** Further vocabulary: intervals of find_overlap_n *)

(** An element of [intervals] with an empty interval in it. *)
Definition ill_formed (iv : interval_arg) : Prop :=
  match iv with
  | Flat ts => ts = []
  | Nested its => its = [] \/ Exists (fun i => i = []) its
  end.

(** The interval [[a, b]] with whole-number bounds. *)
Definition int_interval (ab : Z * Z) : interval_arg :=
  Flat [inject_Z (fst ab); inject_Z (snd ab)].

(** ** from_hist (analyze/phases.py) *)

(** [str(n)] for a count. *)
Definition str_of_nat (n : nat) : string :=
  NilEmpty.string_of_uint (Nat.to_uint n).

(** [OrderedSet(l)]: the distinct strings of [l] in order of first
    occurrence. *)
Fixpoint ordered_set (l : list string) : list string :=
  match l with
  | [] => []
  | x :: l' => x :: filter (fun y => negb (String.eqb x y)) (ordered_set l')
  end.

(** [[ind for ind, m in enumerate(modehist) if m == mode]], counting from
    [ind]. *)
Fixpoint mode_indices (mode : string) (modehist : list string) (ind : nat)
  : list nat :=
  match modehist with
  | [] => []
  | m :: h =>
      if String.eqb m mode then ind :: mode_indices mode h (S ind)
      else mode_indices mode h (S ind)
  end.

(** [l[i]] *)
Definition getitem {A : Type} (l : list A) (i : nat) : result A :=
  match nth_error l i with
  | Some a => Ok a
  | None => Raise IndexError
  end.

(** [s.add(x)] for a set of strings. *)
Definition str_set_add (s : list string) (x : string) : list string :=
  if str_mem x s then s else s ++ [x].

(** The state of the loop over [modeinds]. *)
Record run_state : Type := mkRunState
  { startind : nat;
    phasenum : nat;
    phaseid : string;
    phases_unsorted : dict interval;
    mode_set : list string }.

(** The loop [for i, ind in enumerate(modeinds)] of [from_hist], from
    position [i] on. *)
Fixpoint runs_loop (times : list Q) (mode : string) (modeinds : list nat)
  (rest : list nat) (i : nat) (st : run_state) : result run_state :=
  match rest with
  | [] => Ok st
  | ind :: rest' =>
      if negb (existsb (Nat.eqb (ind + 1)) modeinds) then
        t0 <- getitem times (startind st) ;;
        t1 <- getitem times ind ;;
        let pu := dict_set (phases_unsorted st) (phaseid st) (t0, t1) in
        let ms := str_set_add (mode_set st) (phaseid st) in
        if negb (Nat.eqb i (List.length modeinds - 1)) then
          next <- getitem modeinds (i + 1) ;;
          runs_loop times mode modeinds rest' (S i)
            {| startind := next;
               phasenum := phasenum st + 1;
               phaseid := mode ++ str_of_nat (phasenum st + 1);
               phases_unsorted := pu;
               mode_set := ms |}
        else
          runs_loop times mode modeinds rest' (S i)
            {| startind := startind st;
               phasenum := phasenum st;
               phaseid := phaseid st;
               phases_unsorted := pu;
               mode_set := ms |}
      else runs_loop times mode modeinds rest' (S i) st
  end.

(** The loop [for mode in modes] of [from_hist]. *)
Fixpoint modes_loop (times : list Q) (modehist : list string)
  (modes : list string) (pu : dict interval) (modephases : dict (list string))
  : result (dict interval * dict (list string)) :=
  match modes with
  | [] => Ok (pu, modephases)
  | mode :: modes' =>
      let modeinds := mode_indices mode modehist 0 in
      start <- getitem modeinds 0 ;;
      st <- runs_loop times mode modeinds modeinds 0
              {| startind := start; phasenum := 0; phaseid := mode;
                 phases_unsorted := pu; mode_set := [] |} ;;
      modes_loop times modehist modes' (phases_unsorted st)
        (dict_set modephases mode (mode_set st))
  end.

Fixpoint insert_by_start (x : string * interval)
  (l : list (string * interval)) : list (string * interval) :=
  match l with
  | [] => [x]
  | y :: l' =>
      if Qle_bool (fst (snd x)) (fst (snd y)) then x :: y :: l'
      else y :: insert_by_start x l'
  end.

(** [sorted(items, key=lambda item: item[1][0])]: by start, keeping the
    order of items with equal starts. *)
Fixpoint sorted_by_start (l : list (string * interval))
  : list (string * interval) :=
  match l with
  | [] => []
  | x :: l' => insert_by_start x (sorted_by_start l')
  end.

(** The phases and modephases that [from_hist] derives from the mode
    history of one function; [dict.fromkeys(modes)] is listed with empty
    sets, every one of which is assigned before it is read. *)
Definition phases_of_modehist (times : list Q) (modehist : list string)
  : result (dict interval * dict (list string)) :=
  let modes := ordered_set modehist in
  let modephases := map (fun m => (m, @nil string)) modes in
  r <- modes_loop times modehist modes [] modephases ;;
  Ok (dict_of_list (sorted_by_start (fst r)), snd r).

(** The argument [fxn_modephases]: ['all'] or a list of function names. *)
Inductive fxn_modephases_arg : Type :=
| AllFxns
| Fxns (l : list string).

Fixpoint index_of (x : string) (l : list string) : option nat :=
  match l with
  | [] => None
  | y :: l' =>
      if String.eqb y x then Some 0%nat
      else match index_of x l' with Some n => Some (S n) | None => None end
  end.

(** [k[k.index('m')-1]] for a key [k] given as a tuple of names; index
    [-1] is the last name. *)
Definition fxn_of_key (k : list string) : result string :=
  match index_of "m" k with
  | None => Raise ValueError
  | Some 0%nat => Ok (last k EmptyString)
  | Some (S j) => getitem k j
  end.

(** The loop [for k, modehist in modehists.items()] of [from_hist]. *)
Fixpoint hist_loop (times : list Q)
  (modehists : list (list string * list string))
  (fxn_modephases : fxn_modephases_arg) (modephasemaps : dict PhaseMap)
  : result (dict PhaseMap) :=
  match modehists with
  | [] => Ok modephasemaps
  | (k, modehist) :: rest =>
      fxn <- fxn_of_key k ;;
      match modehist with
      | [] => hist_loop times rest fxn_modephases modephasemaps
      | _ =>
          r <- phases_of_modehist times modehist ;;
          let mph :=
            match fxn_modephases with
            | AllFxns => snd r
            | Fxns l => if str_mem fxn l then snd r else []
            end in
          pm <- PhaseMap_init (PhasesDict (fst r)) mph 1 ;;
          hist_loop times rest fxn_modephases (dict_set modephasemaps fxn pm)
      end
  end.

(** [from_hist(hist, fxn_modephases)], for a history given by its times
    [hist['time']] and its mode histories [hist.get_values('m.mode')],
    the keys of which are tuples of names. *)
Definition from_hist (times : list Q)
  (modehists : list (list string * list string))
  (fxn_modephases : fxn_modephases_arg) : result (dict PhaseMap) :=
  hist_loop times modehists fxn_modephases [].

(** ** Further vocabulary: phases derived from a mode history *)

(** One interval ends before the other begins. *)
Definition apart (a b : interval) : Prop := snd a < fst b \/ snd b < fst a.

Definition pairwise_apart (d : dict interval) : Prop :=
  ForallOrdPairs (fun e1 e2 => apart (snd e1) (snd e2)) d.

(** [iv] is [[times[s], times[e]]] for a stretch [s..e] of the history on
    which the mode is [m]. *)
Definition stretch (times : list Q) (modehist : list string) (m : string)
  (s e : nat) (iv : interval) : Prop :=
  (s <= e)%nat /\
  nth_error times s = Some (fst iv) /\
  nth_error times e = Some (snd iv) /\
  forall j, (s <= j <= e)%nat -> nth_error modehist j = Some m.

(** [iv] comes from a stretch of one of the modes [done], or from a
    stretch of mode [m] that ends before index [start]. *)
Definition entry_ok (times : list Q) (modehist : list string)
  (done : list string) (m : string) (start : nat) (iv : interval) : Prop :=
  exists s e m',
    stretch times modehist m' s e iv /\
    (In m' done \/ (m' = m /\ (e < start)%nat)).

(** [iv] comes from a stretch of one of the modes [done]. *)
Definition entry_done (times : list Q) (modehist : list string)
  (done : list string) (iv : interval) : Prop :=
  exists s e m', stretch times modehist m' s e iv /\ In m' done.

(** Every phase listed in a modephase is a key of [phases]. *)
Definition groups_declared (phases : dict interval)
  (modephases : dict (list string)) : Prop :=
  forall m phs p, In (m, phs) modephases -> In p phs -> In p (dict_keys phases).

Definition by_start (x y : string * interval) : Prop :=
  fst (snd x) <= fst (snd y).

(** A phase of a dict as an entry [(name, start, end)] of a [phases]
    tuple. *)
Definition spec_of (e : string * interval) : phase_spec :=
  (fst e, fst (snd e), snd (snd e)).

(** What holds of a phase map built by [from_hist]. *)
Definition derived_map (pm : PhaseMap) : Prop :=
  dt pm = 1 /\
  NoDup (dict_keys (phases pm)) /\
  ~ has_overlap (dict_values (phases pm)) /\
  groups_declared (phases pm) (modephases pm).

(** * Properties *)

(** A number written out is a float [m * 2^e], is on a grid [m / 2^j];
    every bound of a list that is written out is. *)
Ltac float :=
  idtac;
  match goal with
  | |- binary64 ?q =>
      let m := eval vm_compute in (Qnum (Qred q)) in
      let e := eval vm_compute in (- Z.log2 (Zpos (Qden (Qred q))))%Z in
      exists m, e; split; [reflexivity | split; [lia | reflexivity]]
  end.

Ltac grid :=
  idtac;
  match goal with
  | |- on_grid ?j ?q =>
      let m := eval vm_compute in
                 (Qnum q * 2 ^ Z.of_nat j / Zpos (Qden q))%Z in
      split; [lia | exists m; split; [discriminate | reflexivity]]
  end.

Ltac each tac := repeat (apply Forall_cons; [tac|]); apply Forall_nil.

(** ** Booleans of comparisons *)

Lemma Qle_bool_false (x y : Q) : Qle_bool x y = false <-> y < x.
Proof.
  split; intro H.
  - apply Qnot_le_lt. intro Hle. apply Qle_bool_iff in Hle. congruence.
  - destruct (Qle_bool x y) eqn:E; [|reflexivity].
    apply Qle_bool_iff in E. lra.
Qed.

Lemma Qeq_bool_false (x y : Q) : Qeq_bool x y = false <-> ~ x == y.
Proof.
  split; intro H.
  - intro E. apply Qeq_bool_iff in E. congruence.
  - destruct (Qeq_bool x y) eqn:E; [|reflexivity].
    apply Qeq_bool_iff in E. contradiction.
Qed.

Lemma in_phase_iff (times : interval) (t d : Q) :
  in_phase times t d = true <-> fst times <= t /\ t < snd times + d.
Proof.
  unfold in_phase. rewrite andb_true_iff, negb_true_iff.
  rewrite Qle_bool_iff, Qle_bool_false. tauto.
Qed.

Lemma in_phase_false (times : interval) (t d : Q) :
  in_phase times t d = false <-> t < fst times \/ snd times + d <= t.
Proof.
  unfold in_phase. rewrite andb_false_iff, negb_false_iff.
  rewrite Qle_bool_iff, Qle_bool_false. tauto.
Qed.

(** ** Dictionaries *)

Section DictFacts.
Context {V : Type}.
Implicit Types (d : dict V) (k : string) (v : V).

Lemma dict_get_set d k v k' :
  dict_get (dict_set d k v) k' =
  if String.eqb k' k then Some v else dict_get d k'.
Proof.
  induction d as [|[k0 v0] d IH]; simpl.
  - reflexivity.
  - destruct (String.eqb k k0) eqn:E; simpl.
    + apply String.eqb_eq in E. subst k0.
      destruct (String.eqb k' k); reflexivity.
    + rewrite IH. destruct (String.eqb k' k0) eqn:E'; [|reflexivity].
      apply String.eqb_eq in E'. subst k0.
      rewrite String.eqb_sym in E. rewrite E. reflexivity.
Qed.

Lemma dict_keys_set_present d k v :
  dict_mem d k = true -> dict_keys (dict_set d k v) = dict_keys d.
Proof.
  unfold dict_mem, dict_keys.
  induction d as [|[k0 v0] d IH]; simpl; [discriminate|].
  destruct (String.eqb k k0) eqn:E; simpl; [reflexivity|].
  intro H. f_equal. apply IH, H.
Qed.

Lemma dict_get_In d k v : dict_get d k = Some v -> In (k, v) d.
Proof.
  induction d as [|[k0 v0] d IH]; simpl; [discriminate|].
  destruct (String.eqb k k0) eqn:E.
  - apply String.eqb_eq in E. intros [= ->]. left. congruence.
  - intro H. right. apply IH, H.
Qed.

Lemma dict_get_None d k : dict_get d k = None <-> ~ In k (dict_keys d).
Proof.
  unfold dict_keys.
  induction d as [|[k0 v0] d IH]; simpl; [tauto|].
  destruct (String.eqb k k0) eqn:E.
  - apply String.eqb_eq in E. split; [discriminate|]. intros H.
    exfalso. apply H. left. congruence.
  - apply String.eqb_neq in E. rewrite IH. split.
    + intros H [H1|H1]; [congruence | tauto].
    + tauto.
Qed.

Lemma dict_get_NoDup d k v :
  NoDup (dict_keys d) -> In (k, v) d -> dict_get d k = Some v.
Proof.
  unfold dict_keys.
  induction d as [|[k0 v0] d IH]; simpl; [tauto|].
  intros Hnd [H|H].
  - injection H as -> ->. rewrite String.eqb_refl. reflexivity.
  - inversion Hnd as [|? ? Hni Hnd']; subst.
    destruct (String.eqb k k0) eqn:E.
    + apply String.eqb_eq in E. subst k0. exfalso. apply Hni.
      change k with (fst (k, v)). apply in_map, H.
    + apply IH; assumption.
Qed.
End DictFacts.

Lemma dict_get_zeros (ks : list string) (k : string) :
  dict_get (map (fun ph => (ph, 0%nat)) ks) k =
  if str_mem k ks then Some 0%nat else None.
Proof.
  induction ks as [|k0 ks IH]; simpl; [reflexivity|].
  destruct (String.eqb k k0); simpl; [reflexivity | apply IH].
Qed.

Lemma str_mem_In (k : string) (ks : list string) :
  str_mem k ks = true <-> In k ks.
Proof.
  unfold str_mem. rewrite existsb_exists. split.
  - intros [x [Hx E]]. apply String.eqb_eq in E. congruence.
  - intro H. exists k. split; [assumption | apply String.eqb_refl].
Qed.

(** ** Timer *)

Module TimerFacts.
Import Timer.

Lemma inc_cases (s : t) (arg : option Q) :
  (stepped_time s arg <= 0 /\ time (inc s arg) = 0 /\
   mode (inc s arg) = complete) \/
  (0 < stepped_time s arg /\ time (inc s arg) = stepped_time s arg).
Proof.
  unfold inc, stepped_time.
  destruct (Qle_bool 0 (time s)) eqn:E0; cbn [time tstep mode].
  - match goal with |- context [Qle_bool ?a 0] =>
      destruct (Qle_bool a 0) eqn:E1 end; cbn [time tstep mode].
    + left. apply Qle_bool_iff in E1. auto.
    + right. apply Qle_bool_false in E1. auto.
  - destruct (Qle_bool (time s) 0) eqn:E1; cbn [time tstep mode].
    + left. apply Qle_bool_iff in E1. auto.
    + right. apply Qle_bool_false in E1. auto.
Qed.

Lemma inc_tstep (s : t) (arg : option Q) : tstep (inc s arg) = tstep s.
Proof.
  unfold inc. destruct (Qle_bool 0 (time s)); cbn [time tstep];
    match goal with |- context [if ?c then _ else _] => destruct c end;
    reflexivity.
Qed.

(** Along a run of default increments and resets the clock stays at
    zero and the countdown step at its initial value. *)
Lemma run_invariant (cs : list call) (s : t) :
  time s == 0 -> tstep s == -1 ->
  time (run s cs) == 0 /\ tstep (run s cs) == -1.
Proof.
  revert s. induction cs as [|c cs IH]; intros s Ht Hs; simpl.
  - split; assumption.
  - apply IH.
    + destruct c; simpl; [|reflexivity].
      destruct (inc_cases s None) as [(_ & E & _)|(Hpos & _)].
      * rewrite E. reflexivity.
      * exfalso. unfold stepped_time in Hpos.
        destruct (Qle_bool 0 (time s)); lra.
    + destruct c; simpl; [rewrite inc_tstep|]; assumption.
Qed.

(** C10.  From a fresh timer, after any sequence of [inc()] and
    [reset()] calls the time is non-negative (it is zero); each such
    [inc()] ends clamped at [0.0] in mode [complete]; and for any timer
    state and any step, [inc] leaves a non-negative time, and when the
    incremented time is at or below zero the time is exactly [0.0] and
    the mode [complete]. *)
Theorem timer_time_nonneg_and_clamped :
  forall (cs : list call) (s : t) (arg : option Q),
    0 <= time (run init cs) /\
    (time (inc (run init cs) None) = 0 /\
     mode (inc (run init cs) None) = complete) /\
    0 <= time (inc s arg) /\
    (stepped_time s arg <= 0 ->
     time (inc s arg) = 0 /\ mode (inc s arg) = complete).
Proof.
  intros cs s arg.
  destruct (run_invariant cs init) as [Ht Hs]; [reflexivity..|].
  split; [rewrite Ht; lra|]. split.
  - destruct (inc_cases (run init cs) None) as [(_ & E & M)|(Hpos & _)].
    + auto.
    + exfalso. unfold stepped_time in Hpos.
      destruct (Qle_bool 0 (time (run init cs))); lra.
  - destruct (inc_cases s arg) as [(Hle & E & M)|(Hpos & E)].
    + split; [rewrite E; lra | auto].
    + split; [rewrite E; lra | intro; lra].
Qed.

Lemma timer_time_nonneg_and_clamped_witness :
  stepped_time init None <= 0 /\
  time (inc init None) = 0 /\ mode (inc init None) = complete.
Proof.
  split.
  - vm_compute. discriminate.
  - apply (timer_time_nonneg_and_clamped [CallInc; CallReset] init None).
    vm_compute. discriminate.
Defined.

End TimerFacts.

(** ** PhaseMap: find_phase *)

Lemma find_phase_in_Ok (d : dict interval) (t dq : Q) (ph : string) :
  find_phase_in d t dq = Ok ph <->
  exists pre times post,
    d = pre ++ (ph, times) :: post /\
    in_phase times t dq = true /\
    Forall (fun e => in_phase (snd e) t dq = false) pre.
Proof.
  induction d as [|[p ts] d IH]; simpl.
  - split; [discriminate|]. intros (pre & times & post & E & _).
    destruct pre; discriminate.
  - destruct (in_phase ts t dq) eqn:Hin.
    + split.
      * intros [= ->]. exists [], ts, d. auto.
      * intros (pre & times & post & E & Hc & Hpre).
        destruct pre as [|e pre]; simpl in E.
        -- congruence.
        -- injection E as <- _. inversion Hpre; subst. simpl in *. congruence.
    + rewrite IH. split.
      * intros (pre & times & post & E & Hc & Hpre).
        exists ((p, ts) :: pre), times, post. subst d. auto.
      * intros (pre & times & post & E & Hc & Hpre).
        destruct pre as [|e pre]; simpl in E.
        -- injection E as -> -> _. congruence.
        -- injection E as <- ->. inversion Hpre; subst.
           exists pre, times, post. auto.
Qed.

Lemma find_phase_in_Raise (d : dict interval) (t dq : Q) (e : exn) :
  find_phase_in d t dq = Raise e <->
  e = Exception TimeNotInPhases /\
  Forall (fun en => in_phase (snd en) t dq = false) d.
Proof.
  induction d as [|[p ts] d IH]; simpl.
  - split; [intros [= <-]; auto | intros [-> _]; reflexivity].
  - destruct (in_phase ts t dq) eqn:Hin.
    + split; [discriminate|]. intros [_ H]. inversion H; subst.
      simpl in *. congruence.
    + rewrite IH. split; intros [-> H]; split; auto.
      inversion H; assumption.
Qed.

Lemma find_phase_cases (pm : PhaseMap) (t dq : Q) :
  (forall ph, find_phase pm t dq = Ok ph ->
     exists times, In (ph, times) (phases pm) /\
                   fst times <= t /\ t < snd times + dq) /\
  ((exists ph times, In (ph, times) (phases pm) /\
                     fst times <= t /\ t < snd times + dq) ->
   exists ph, find_phase pm t dq = Ok ph) /\
  ((forall ph times, In (ph, times) (phases pm) ->
      t < fst times \/ snd times + dq <= t) ->
   find_phase pm t dq = Raise (Exception TimeNotInPhases)).
Proof.
  unfold find_phase. repeat split.
  - intros ph H. apply find_phase_in_Ok in H.
    destruct H as (pre & times & post & E & Hc & _).
    exists times. rewrite E. split; [apply in_elt|].
    apply in_phase_iff, Hc.
  - intros (ph & times & Hin & Hc).
    destruct (find_phase_in (phases pm) t dq) as [p|e] eqn:E; [eauto|].
    apply find_phase_in_Raise in E. destruct E as [_ Hall].
    rewrite Forall_forall in Hall. specialize (Hall _ Hin). simpl in Hall.
    apply in_phase_iff in Hc. congruence.
  - intro H. apply find_phase_in_Raise. split; [reflexivity|].
    apply Forall_forall. intros [ph times] Hin. simpl.
    apply in_phase_false. eapply H, Hin.
Qed.

(** C2, as stated, fails: in a map whose own timestep is [0.5], the
    time [3.75] is given the phase [[0, 3]], although it lies outside
    that interval extended by the timestep of the map. *)
Lemma find_phase_not_by_map_dt :
  find_phase
    {| phases := [("a"%string, (0, 3))]; modephases := []; dt := 1 # 2 |}
    (15 # 4) find_phase_dt_default
  = Ok "a"%string /\
  ~ 15 # 4 < 3 + dt {| phases := [("a"%string, (0, 3))]; modephases := [];
                       dt := 1 # 2 |}.
Proof.
  split; [reflexivity|]. simpl. intro H. vm_compute in H. discriminate.
Qed.

(** C2 (amended).  [find_phase(t, dt)] returns only the name of a
    declared phase whose interval, extended at its end by the second
    argument [dt] of [find_phase] ([1.0] when omitted) and not by the
    timestep of the map, contains [t] ([start <= t < end + dt]); it
    returns such a name whenever one exists; and when [t] is outside
    every extended interval it raises the exception "time not in
    phases": there is no default phase.  For a map whose own timestep is
    [1.0] the default extension is the timestep of the map.  The time,
    the bounds and [dt] are floats and every [end + dt] is computed
    without rounding. *)
Theorem find_phase_contains_or_raises :
  forall (pm : PhaseMap) (t dq : Q),
    binary64 t -> ends_exact dq (phases pm) ->
    (forall ph, find_phase pm t dq = Ok ph ->
       exists times, In (ph, times) (phases pm) /\
                     fst times <= t /\ t < snd times + dq) /\
    ((exists ph times, In (ph, times) (phases pm) /\
                       fst times <= t /\ t < snd times + dq) ->
     exists ph, find_phase pm t dq = Ok ph) /\
    ((forall ph times, In (ph, times) (phases pm) ->
        t < fst times \/ snd times + dq <= t) ->
     find_phase pm t dq = Raise (Exception TimeNotInPhases)) /\
    (dt pm == find_phase_dt_default -> dq == find_phase_dt_default ->
     (forall ph, find_phase pm t find_phase_dt_default = Ok ph ->
        exists times, In (ph, times) (phases pm) /\
                      fst times <= t /\ t < snd times + dt pm) /\
     ((forall ph times, In (ph, times) (phases pm) ->
         t < fst times \/ snd times + dt pm <= t) ->
      find_phase pm t find_phase_dt_default
      = Raise (Exception TimeNotInPhases))).
Proof.
  intros pm t dq _ _.
  destruct (find_phase_cases pm t dq) as (H1 & H2 & H3).
  split; [exact H1|]. split; [exact H2|]. split; [exact H3|].
  intros Hdt _.
  destruct (find_phase_cases pm t find_phase_dt_default) as (D1 & _ & D3).
  split.
  - intros ph H. destruct (D1 ph H) as (times & Hin & Ha & Hb).
    exists times. split; [exact Hin|]. split; [exact Ha|]. lra.
  - intro H. apply D3. intros ph times Hin.
    destruct (H ph times Hin) as [Ha|Hb]; [left; exact Ha | right; lra].
Qed.

Lemma find_phase_contains_or_raises_witness :
  find_phase
    {| phases := [("on"%string, (0, 3)); ("off"%string, (4, 5))];
       modephases := []; dt := 1 # 2 |} 7 (1 # 2)
  = Raise (Exception TimeNotInPhases).
Proof.
  destruct (find_phase_contains_or_raises
              {| phases := [("on"%string, (0, 3)); ("off"%string, (4, 5))];
                 modephases := []; dt := 1 # 2 |} 7 (1 # 2))
    as (_ & _ & H3 & _).
  - float.
  - split; [float | each ltac:(split; [float | split; float])].
  - apply H3.
    intros ph times [H|[H|[]]]; injection H as _ <-; simpl;
      right; vm_compute; discriminate.
Defined.

(** ** PhaseMap: calc_phase_time and calc_modephase_time *)

(** C3.  For a declared phase [[start, end]], [calc_phase_time] returns
    [end - start + dt] with the [dt] of the map; for phase [[0, 4]] and
    [dt = 1.0] this is [5.0]. *)
Theorem calc_phase_time_inclusive :
  forall (pm : PhaseMap) (phase : string) (a b : Q),
    (dict_get (phases pm) phase = Some (a, b) ->
     calc_phase_time pm phase = Ok (b - a + dt pm)) /\
    calc_phase_time
      {| phases := [("on"%string, (0, 4)); ("off"%string, (5, 10))];
         modephases := []; dt := 1 |} "on" = Ok 5.
Proof.
  intros pm phase a b. split; [|reflexivity].
  intro H. unfold calc_phase_time, dict_getitem. rewrite H. reflexivity.
Qed.

Lemma calc_phase_time_inclusive_witness :
  calc_phase_time
    {| phases := [("p"%string, (2, 7))]; modephases := []; dt := 1 # 2 |} "p"
  = Ok (7 - 2 + (1 # 2)).
Proof.
  apply (calc_phase_time_inclusive
           {| phases := [("p"%string, (2, 7))]; modephases := [];
              dt := 1 # 2 |} "p" 2 7).
  reflexivity.
Defined.

Lemma mapM_Forall2 {A B : Type} (f : A -> result B) (l : list A)
  (bs : list B) :
  mapM f l = Ok bs <-> Forall2 (fun a b => f a = Ok b) l bs.
Proof.
  revert bs. induction l as [|a l IH]; intros bs; simpl.
  - split; [intros [= <-]; constructor | intro H; inversion H; reflexivity].
  - split.
    + destruct (f a) as [b|] eqn:Ea; simpl; [|discriminate].
      destruct (mapM f l) as [bs'|] eqn:El; simpl; [|discriminate].
      intros [= <-]. constructor; [assumption | apply IH; reflexivity].
    + intro H. inversion H as [|? b ? bs' Hb Hbs]; subst.
      rewrite Hb. simpl. apply IH in Hbs. rewrite Hbs. reflexivity.
Qed.

Lemma fold_left_Qplus (l : list Q) (x : Q) :
  fold_left Qplus l x == x + fold_right Qplus 0 l.
Proof.
  revert x. induction l as [|y l IH]; intros x; simpl.
  - lra.
  - rewrite IH. lra.
Qed.

Lemma py_sum_cons (x : Q) (l : list Q) : py_sum (x :: l) == x + py_sum l.
Proof. unfold py_sum. simpl. rewrite !fold_left_Qplus. lra. Qed.

(** The sum over a set does not depend on the order in which the set is
    listed. *)
Lemma py_sum_permutation (l l' : list Q) :
  Permutation l l' -> py_sum l == py_sum l'.
Proof.
  induction 1 as [|x l l' _ IH|x y l|l l' l'' _ IH1 _ IH2].
  - reflexivity.
  - rewrite !py_sum_cons, IH. reflexivity.
  - rewrite !py_sum_cons. lra.
  - rewrite IH1. exact IH2.
Qed.

(** C4.  For a mode declared in [modephases] all of whose phases are
    declared, [calc_modephase_time] returns the sum of [calc_phase_time]
    over the phases of the mode, that is the sum of their
    [end - start + dt]; for phases [[0, 1]] and [[2, 3]] and [dt = 1.0]
    this is [4.0]. *)
Theorem calc_modephase_time_sum :
  forall (pm : PhaseMap) (mode : string) (phs : list string) (ts : list Q),
    (dict_get (modephases pm) mode = Some phs ->
     Forall2 (fun ph t => calc_phase_time pm ph = Ok t) phs ts ->
     calc_modephase_time pm mode = Ok (py_sum ts) /\
     py_sum ts == fold_right Qplus 0 ts /\
     Forall2 (fun ph t => exists a b,
                dict_get (phases pm) ph = Some (a, b) /\ t = b - a + dt pm)
       phs ts) /\
    calc_modephase_time
      {| phases := [("on1"%string, (0, 1)); ("on2"%string, (2, 3))];
         modephases := [("on"%string, ["on1"; "on2"]%string)];
         dt := 1 |} "on" = Ok 4.
Proof.
  intros pm mode phs ts. split; [|reflexivity].
  intros Hm Hts. split; [|split].
  - unfold calc_modephase_time, dict_getitem. rewrite Hm. simpl.
    apply mapM_Forall2 in Hts. rewrite Hts. reflexivity.
  - unfold py_sum. rewrite fold_left_Qplus. lra.
  - eapply Forall2_impl; [|exact Hts]. intros ph t H. simpl in H.
    unfold calc_phase_time, dict_getitem in H.
    destruct (dict_get (phases pm) ph) as [[a b]|]; [|discriminate].
    injection H as <-. eauto.
Qed.

Lemma calc_modephase_time_sum_witness :
  calc_modephase_time
    {| phases := [("a"%string, (0, 2)); ("b"%string, (5, 6))];
       modephases := [("m"%string, ["a"; "b"]%string)]; dt := 1 # 2 |} "m"
  = Ok (py_sum [2 - 0 + (1 # 2); 6 - 5 + (1 # 2)]).
Proof.
  apply (calc_modephase_time_sum
           {| phases := [("a"%string, (0, 2)); ("b"%string, (5, 6))];
              modephases := [("m"%string, ["a"; "b"]%string)];
              dt := 1 # 2 |} "m" ["a"; "b"]%string).
  - reflexivity.
  - repeat constructor.
Defined.

(** ** PhaseMap: calc_samples_in_phases *)

Lemma find_modephase_in_Ok (d : dict (list string)) (phase m : string) :
  find_modephase_in d phase = Ok m <->
  exists pre phs post,
    d = pre ++ (m, phs) :: post /\ In phase phs /\
    Forall (fun e => ~ In phase (snd e)) pre.
Proof.
  induction d as [|[k v] d IH]; simpl.
  - split; [discriminate|]. intros (pre & phs & post & E & _).
    destruct pre; discriminate.
  - destruct (str_mem phase v) eqn:Hin.
    + apply str_mem_In in Hin. split.
      * intros [= ->]. exists [], v, d. auto.
      * intros (pre & phs & post & E & Hc & Hpre).
        destruct pre as [|e pre]; simpl in E.
        -- congruence.
        -- injection E as <- _. inversion Hpre; subst. simpl in *.
           contradiction.
    + assert (~ In phase v) as Hnot.
      { intro H. apply str_mem_In in H. congruence. }
      rewrite IH. split.
      * intros (pre & phs & post & E & Hc & Hpre).
        exists ((k, v) :: pre), phs, post. subst d. auto.
      * intros (pre & phs & post & E & Hc & Hpre).
        destruct pre as [|e pre]; simpl in E.
        -- injection E as -> -> _. contradiction.
        -- injection E as <- ->. inversion Hpre; subst.
           exists pre, phs, post. auto.
Qed.

Lemma find_modephase_in_Raise (d : dict (list string)) (phase : string)
  (e : exn) :
  find_modephase_in d phase = Raise e <->
  e = Exception PhaseNotInModephases /\
  Forall (fun en => ~ In phase (snd en)) d.
Proof.
  induction d as [|[k v] d IH]; simpl.
  - split; [intros [= <-]; auto | intros [-> _]; reflexivity].
  - destruct (str_mem phase v) eqn:Hin.
    + apply str_mem_In in Hin. split; [discriminate|].
      intros [_ H]. inversion H; subst. simpl in *. contradiction.
    + assert (~ In phase v) as Hnot.
      { intro H. apply str_mem_In in H. congruence. }
      rewrite IH. split; intros [-> H]; split; auto.
      inversion H; assumption.
Qed.

Lemma find_modephase_in_key (d : dict (list string)) (ph m : string) :
  find_modephase_in d ph = Ok m -> In m (dict_keys d).
Proof.
  induction d as [|[k v] d IH]; simpl; [discriminate|].
  destruct (str_mem ph v).
  - intros [= ->]. auto.
  - intro H. right. apply IH, H.
Qed.

Lemma find_base_phase_key (pm : PhaseMap) (t : Q) (p : string) :
  find_base_phase pm t = Ok p -> In p (base_keys pm).
Proof.
  unfold find_base_phase, base_keys, find_phase, find_modephase.
  destruct (find_phase_in (phases pm) t find_phase_dt_default) as [ph|] eqn:E;
    simpl; [|discriminate].
  destruct (dict_truthy (modephases pm)).
  - apply find_modephase_in_key.
  - intros [= <-]. apply find_phase_in_Ok in E.
    destruct E as (pre & times & post & E & _). unfold dict_keys.
    rewrite E, map_app. apply in_or_app. right. left. reflexivity.
Qed.

Lemma count_samples_step (pm : PhaseMap) (t : Q) (times : list Q)
  (d : dict nat) :
  count_samples pm (t :: times) d =
  (p <- find_base_phase pm t ;; d1 <- dict_incr d p ;; count_samples pm times d1).
Proof.
  simpl. unfold find_base_phase.
  destruct (find_phase pm t find_phase_dt_default); reflexivity.
Qed.

Lemma count_samples_counts (pm : PhaseMap) (times : list Q) :
  forall d0 d, count_samples pm times d0 = Ok d ->
    dict_keys d = dict_keys d0 /\
    forall k n, dict_get d0 k = Some n ->
                dict_get d k = Some (n + samples_in pm times k)%nat.
Proof.
  induction times as [|t times IH]; intros d0 d H.
  - injection H as <-. split; [reflexivity|]. intros k n Hk.
    rewrite Hk. unfold samples_in. simpl. f_equal. lia.
  - rewrite count_samples_step in H.
    destruct (find_base_phase pm t) as [p|] eqn:Ep; simpl in H; [|discriminate].
    unfold dict_incr, dict_getitem in H.
    destruct (dict_get d0 p) as [m|] eqn:Em; simpl in H; [|discriminate].
    apply IH in H. destruct H as [Hkeys Hget]. split.
    + rewrite Hkeys. apply dict_keys_set_present. unfold dict_mem.
      rewrite Em. reflexivity.
    + intros k n Hk. unfold samples_in. simpl. rewrite Ep. simpl.
      destruct (String.eqb p k) eqn:Epk.
      * apply String.eqb_eq in Epk. subst k.
        rewrite (Hget p (S m)).
        -- simpl. f_equal. unfold samples_in. rewrite Em in Hk.
           injection Hk as <-. lia.
        -- rewrite dict_get_set, String.eqb_refl. reflexivity.
      * apply Hget. rewrite dict_get_set, String.eqb_sym, Epk. exact Hk.
Qed.

Lemma count_samples_ok (pm : PhaseMap) (times : list Q) :
  forall d0,
    (forall k, In k (base_keys pm) -> dict_mem d0 k = true) ->
    (forall t, In t times -> is_ok (find_base_phase pm t) = true) ->
    is_ok (count_samples pm times d0) = true.
Proof.
  induction times as [|t times IH]; intros d0 Hd Ht; [reflexivity|].
  rewrite count_samples_step.
  pose proof (Ht t (or_introl eq_refl)) as Hok.
  destruct (find_base_phase pm t) as [p|] eqn:Ep; [|discriminate]. simpl.
  pose proof (Hd p (find_base_phase_key _ _ _ Ep)) as Hp.
  unfold dict_incr, dict_getitem. unfold dict_mem in Hp.
  destruct (dict_get d0 p) as [m|] eqn:Em; [|discriminate]. simpl.
  apply IH.
  - intros k Hk. unfold dict_mem. rewrite dict_get_set.
    destruct (String.eqb k p); [reflexivity | apply Hd, Hk].
  - intros t' Ht'. apply Ht. right. exact Ht'.
Qed.

Lemma calc_samples_init (pm : PhaseMap) (times : list Q) :
  calc_samples_in_phases pm times =
  count_samples pm times (map (fun ph => (ph, 0%nat)) (base_keys pm)).
Proof.
  unfold calc_samples_in_phases, base_keys.
  destruct (dict_truthy (modephases pm)); reflexivity.
Qed.

Lemma find_base_phase_falls_in (pm : PhaseMap) (t : Q) (k : string) :
  find_base_phase pm t = Ok k <-> falls_in pm k t.
Proof.
  unfold find_base_phase, find_phase, find_modephase, falls_in, lies_in.
  unfold find_phase_dt_default. split.
  - destruct (find_phase_in (phases pm) t 1) as [p|e]
      eqn:E; simpl; [|discriminate].
    intro H. exists p. split.
    + apply find_phase_in_Ok in E.
      destruct E as (pre & iv & post & E & Hc & Hpre).
      exists pre, iv, post. split; [exact E|]. split.
      * apply in_phase_iff in Hc. exact Hc.
      * apply Forall_forall. intros e He Hl. rewrite Forall_forall in Hpre.
        specialize (Hpre e He). apply in_phase_iff in Hl. congruence.
    + destruct (modephases pm) as [|g mph]; cbn [dict_truthy] in H.
      * injection H as <-. reflexivity.
      * apply find_modephase_in_Ok in H. exact H.
  - intros (p & (pre & iv & post & E & Hc & Hpre) & Hk).
    assert (find_phase_in (phases pm) t 1 = Ok p) as ->.
    { apply find_phase_in_Ok. exists pre, iv, post. split; [exact E|]. split.
      - apply in_phase_iff. exact Hc.
      - apply Forall_forall. intros e He. rewrite Forall_forall in Hpre.
        specialize (Hpre e He).
        destruct (in_phase (snd e) t 1) eqn:Hin; [|reflexivity].
        apply in_phase_iff in Hin. contradiction. }
    cbn [bind]. destruct (modephases pm) as [|g mph]; cbn [dict_truthy].
    + subst k. reflexivity.
    + apply find_modephase_in_Ok. exact Hk.
Qed.

Lemma samples_in_counted (pm : PhaseMap) (k : string) (times : list Q) :
  counted (falls_in pm k) times (samples_in pm times k).
Proof.
  induction times as [|t times IH]; [constructor|].
  unfold samples_in in *. simpl.
  destruct (find_base_phase pm t) as [p|e] eqn:E; simpl.
  - destruct (String.eqb p k) eqn:Ek; simpl.
    + apply String.eqb_eq in Ek. subst p. constructor; [|exact IH].
      apply find_base_phase_falls_in, E.
    + apply String.eqb_neq in Ek. constructor; [|exact IH].
      intro H. apply find_base_phase_falls_in in H. congruence.
  - constructor; [|exact IH].
    intro H. apply find_base_phase_falls_in in H. congruence.
Qed.

(** C5.  The two documented calls give [{'on': 3, 'off': 2}] and
    [{'oper': 5}].  In general the result has one entry per phase (per
    modephase when there are modephases), and the entry of [k] counts
    the given times that fall in [k]: those whose first phase, in
    declaration order, with [start <= t < end + 1.0] is [k] or, with
    modephases, is listed first under the modephase [k].  The call
    returns whenever every given time falls in some entry.  The times
    and the bounds are floats and every [end + 1.0] is computed without
    rounding. *)
Theorem calc_samples_in_phases_counts :
  forall (pm : PhaseMap) (times : list Q),
    ends_exact 1 (phases pm) -> Forall binary64 times ->
    calc_samples_in_phases
      {| phases := [("on"%string, (0, 3)); ("off"%string, (4, 5))];
         modephases := []; dt := 1 |} [1; 2; 3; 4; 5]
    = Ok [("on"%string, 3%nat); ("off"%string, 2%nat)] /\
    calc_samples_in_phases
      {| phases := [("on"%string, (0, 3)); ("off"%string, (4, 5))];
         modephases := [("oper"%string, ["on"; "off"]%string)]; dt := 1 |}
      [1; 2; 3; 4; 5]
    = Ok [("oper"%string, 5%nat)] /\
    (forall d, calc_samples_in_phases pm times = Ok d ->
       dict_keys d = base_keys pm /\
       forall k, In k (base_keys pm) ->
         exists n, dict_get d k = Some n /\
                   counted (falls_in pm k) times n) /\
    ((forall t, In t times -> exists k, falls_in pm k t) ->
     exists d, calc_samples_in_phases pm times = Ok d).
Proof.
  intros pm times _ _.
  split; [reflexivity|]. split; [reflexivity|]. split.
  - intros d H. rewrite calc_samples_init in H.
    apply count_samples_counts in H. destruct H as [Hkeys Hget]. split.
    + rewrite Hkeys. unfold dict_keys. rewrite map_map. simpl. apply map_id.
    + intros k Hk. exists (samples_in pm times k). split.
      * apply (Hget k 0%nat). rewrite dict_get_zeros.
        apply str_mem_In in Hk. rewrite Hk. reflexivity.
      * apply samples_in_counted.
  - intro Ht.
    assert (is_ok (calc_samples_in_phases pm times) = true) as Hok.
    { rewrite calc_samples_init. apply count_samples_ok.
      - intros k Hk. unfold dict_mem. rewrite dict_get_zeros.
        apply str_mem_In in Hk. rewrite Hk. reflexivity.
      - intros t Hin. destruct (Ht t Hin) as (k & Hk).
        apply find_base_phase_falls_in in Hk. rewrite Hk. reflexivity. }
    destruct (calc_samples_in_phases pm times) as [d|e];
      [exists d; reflexivity | discriminate].
Qed.

Lemma calc_samples_in_phases_counts_witness :
  exists n,
    dict_get [("m1"%string, 1%nat); ("m2"%string, 2%nat)] "m2" = Some n /\
    counted
      (falls_in
         {| phases := [("a"%string, (0, 1)); ("b"%string, (2, 9));
                       ("c"%string, (10, 12))];
            modephases := [("m1"%string, ["a"%string]);
                           ("m2"%string, ["b"; "c"]%string)];
            dt := 1 |} "m2") [0; 4; 11] n.
Proof.
  destruct (calc_samples_in_phases_counts
              {| phases := [("a"%string, (0, 1)); ("b"%string, (2, 9));
                            ("c"%string, (10, 12))];
                 modephases := [("m1"%string, ["a"%string]);
                                ("m2"%string, ["b"; "c"]%string)];
                 dt := 1 |} [0; 4; 11])
    as (_ & _ & H & _).
  - split; [float | each ltac:(split; [float | split; float])].
  - each float.
  - destruct (H [("m1"%string, 1%nat); ("m2"%string, 2%nat)] eq_refl)
      as [_ H2].
    apply H2. simpl. right. left. reflexivity.
Defined.

(** ** PhaseMap: which [dt] classifies a time *)

Lemma count_samples_with_dt (pm : PhaseMap) (d' : Q) (times : list Q) :
  forall d0, count_samples (with_dt pm d') times d0 = count_samples pm times d0.
Proof.
  induction times as [|t times IH]; intros d0; [reflexivity|].
  simpl. unfold find_phase, find_modephase. simpl.
  destruct (find_phase_in (phases pm) t find_phase_dt_default); simpl;
    [|reflexivity].
  destruct (dict_truthy (modephases pm)); simpl.
  - destruct (find_modephase_in (modephases pm) a); simpl; [|reflexivity].
    destruct (dict_incr d0 a0); simpl; [apply IH | reflexivity].
  - destruct (dict_incr d0 a); simpl; [apply IH | reflexivity].
Qed.

(** C9.  [find_phase] tests [start <= t < end + dt] with the [dt] it is
    passed (default [1.0]) and never reads the [dt] of the map; it returns
    the first phase in declaration order that passes the test.  So
    [find_base_phase], [calc_samples_in_phases] and the phase chosen by
    [calc_scen_exposure_time] do not depend on the [dt] of the map: they
    classify against [end + 1.0]; and of two overlapping phases the one
    declared first is returned. *)
Theorem find_phase_ignores_map_dt :
  forall (pm : PhaseMap) (d' t dq : Q) (ts : list Q) (ph : string),
    find_phase (with_dt pm d') t dq = find_phase pm t dq /\
    (find_phase pm t dq = Ok ph <->
     exists pre times post,
       phases pm = pre ++ (ph, times) :: post /\
       (fst times <= t /\ t < snd times + dq) /\
       Forall (fun e => t < fst (snd e) \/ snd (snd e) + dq <= t) pre) /\
    find_base_phase pm t =
      (p <- find_phase pm t 1 ;;
       if dict_truthy (modephases pm) then find_modephase pm p else Ok p) /\
    find_base_phase (with_dt pm d') t = find_base_phase pm t /\
    calc_samples_in_phases (with_dt pm d') ts = calc_samples_in_phases pm ts /\
    calc_scen_exposure_time (with_dt pm d') t =
      (b <- find_base_phase pm t ;;
       if dict_truthy (modephases pm)
       then calc_modephase_time (with_dt pm d') b
       else calc_phase_time (with_dt pm d') b) /\
    find_phase
      {| phases := [("on"%string, (0, 3)); ("off"%string, (4, 5))];
         modephases := []; dt := 1 # 2 |} (37 # 10) find_phase_dt_default
    = Ok "on"%string /\
    calc_samples_in_phases
      {| phases := [("on"%string, (0, 3)); ("off"%string, (4, 5))];
         modephases := []; dt := 1 # 2 |} [37 # 10]
    = Ok [("on"%string, 1%nat); ("off"%string, 0%nat)] /\
    calc_scen_exposure_time
      {| phases := [("on"%string, (0, 3)); ("off"%string, (4, 5))];
         modephases := []; dt := 1 # 2 |} (37 # 10)
    = Ok (7 # 2) /\
    find_phase
      {| phases := [("a"%string, (0, 5)); ("b"%string, (3, 8))];
         modephases := []; dt := 1 |} 4 find_phase_dt_default
    = Ok "a"%string.
Proof.
  intros pm d' t dq ts ph.
  split; [reflexivity|]. split.
  { unfold find_phase. rewrite find_phase_in_Ok.
    split; intros (pre & times & post & E & Hc & Hpre);
      exists pre, times, post; (split; [exact E|]); split.
    - apply in_phase_iff, Hc.
    - eapply Forall_impl; [|exact Hpre]. intros e He.
      apply in_phase_false, He.
    - apply in_phase_iff, Hc.
    - eapply Forall_impl; [|exact Hpre]. intros e He.
      apply in_phase_false, He. }
  split; [reflexivity|]. split; [reflexivity|]. split.
  { unfold calc_samples_in_phases. simpl. apply count_samples_with_dt. }
  split.
  { unfold calc_scen_exposure_time, find_base_phase, find_phase. simpl.
    destruct (find_phase_in (phases pm) t find_phase_dt_default); simpl;
      [|reflexivity].
    destruct (dict_truthy (modephases pm)); reflexivity. }
  repeat split; reflexivity.
Qed.

(** ** Sets and sorting of numbers *)

Lemma memQ_true (x : Q) (s : list Q) :
  memQ x s = true <-> exists y, In y s /\ x == y.
Proof.
  unfold memQ. rewrite existsb_exists.
  split; intros [y [Hy E]]; exists y; (split; [assumption|]);
    apply Qeq_bool_iff, E.
Qed.

Lemma memQ_compat (x y : Q) (s : list Q) : x == y -> memQ x s = memQ y s.
Proof.
  intro E. induction s as [|z s IH]; simpl; [reflexivity|].
  rewrite IH. f_equal.
  destruct (Qeq_bool x z) eqn:E1, (Qeq_bool y z) eqn:E2; try reflexivity.
  - apply Qeq_bool_iff in E1. apply Qeq_bool_false in E2.
    exfalso. apply E2. rewrite <- E. exact E1.
  - apply Qeq_bool_iff in E2. apply Qeq_bool_false in E1.
    exfalso. apply E1. rewrite E. exact E2.
Qed.

Lemma memQ_app (x : Q) (s t : list Q) :
  memQ x (s ++ t) = memQ x s || memQ x t.
Proof. unfold memQ. apply existsb_app. Qed.

(** Membership in a filtered list, for a test that respects [==]. *)
Lemma memQ_filter (p : Q -> bool) (x : Q) (s : list Q) :
  (forall y, x == y -> p y = p x) ->
  memQ x (filter p s) = memQ x s && p x.
Proof.
  intro Hp. induction s as [|z s IH]; simpl; [reflexivity|].
  destruct (p z) eqn:Ez; simpl; rewrite IH.
  - destruct (Qeq_bool x z) eqn:E; simpl; [|reflexivity].
    apply Qeq_bool_iff in E. rewrite <- (Hp z E), Ez. reflexivity.
  - destruct (Qeq_bool x z) eqn:E; simpl; [|reflexivity].
    apply Qeq_bool_iff in E. rewrite <- (Hp z E), Ez.
    rewrite andb_false_r. reflexivity.
Qed.

Lemma Qeq_bool_compat_r (a x y : Q) : x == y -> Qeq_bool a y = Qeq_bool a x.
Proof.
  intro E.
  destruct (Qeq_bool a y) eqn:E1, (Qeq_bool a x) eqn:E2; try reflexivity.
  - apply Qeq_bool_iff in E1. apply Qeq_bool_false in E2.
    exfalso. apply E2. rewrite E. exact E1.
  - apply Qeq_bool_iff in E2. apply Qeq_bool_false in E1.
    exfalso. apply E1. rewrite <- E. exact E2.
Qed.

Lemma Qeq_bool_sym (x y : Q) : Qeq_bool x y = Qeq_bool y x.
Proof.
  destruct (Qeq_bool x y) eqn:E1, (Qeq_bool y x) eqn:E2; try reflexivity.
  - apply Qeq_bool_iff in E1. apply Qeq_bool_false in E2.
    exfalso. apply E2. symmetry. exact E1.
  - apply Qeq_bool_iff in E2. apply Qeq_bool_false in E1.
    exfalso. apply E1. symmetry. exact E2.
Qed.

Lemma memQ_py_set (x : Q) (l : list Q) : memQ x (py_set l) = memQ x l.
Proof.
  induction l as [|z l IH]; [reflexivity|].
  cbn [py_set]. change (memQ x (?a :: ?s)) with (Qeq_bool x a || memQ x s).
  rewrite memQ_filter.
  - rewrite IH. rewrite (Qeq_bool_sym z x).
    destruct (Qeq_bool x z), (memQ x l); reflexivity.
  - intros y E. f_equal. apply Qeq_bool_compat_r, E.
Qed.

Lemma memQ_insert_sorted (x y : Q) (l : list Q) :
  memQ x (insert_sorted y l) = Qeq_bool x y || memQ x l.
Proof.
  induction l as [|z l IH]; simpl; [reflexivity|].
  destruct (Qle_bool y z); simpl; [reflexivity|].
  rewrite IH. destruct (Qeq_bool x z), (Qeq_bool x y); reflexivity.
Qed.

Lemma memQ_np_sort (x : Q) (l : list Q) : memQ x (np_sort l) = memQ x l.
Proof.
  induction l as [|z l IH]; simpl; [reflexivity|].
  rewrite memQ_insert_sorted, IH. reflexivity.
Qed.

Lemma memQ_set_intersection (x : Q) (s t : list Q) :
  memQ x (set_intersection s t) = memQ x s && memQ x t.
Proof.
  unfold set_intersection. apply memQ_filter.
  intros y E. symmetry. apply memQ_compat, E.
Qed.

Lemma memQ_set_update (x : Q) (s t : list Q) :
  memQ x (set_update s t) = memQ x s || memQ x t.
Proof.
  unfold set_update. rewrite memQ_app, memQ_filter.
  - destruct (memQ x s), (memQ x t); reflexivity.
  - intros y E. f_equal. symmetry. apply memQ_compat, E.
Qed.

Lemma memQ_filter_false (p : Q -> bool) (x : Q) (s : list Q) :
  memQ x s = false -> memQ x (filter p s) = false.
Proof.
  induction s as [|z s IH]; simpl; [reflexivity|].
  intro H. apply orb_false_iff in H. destruct H as [H1 H2].
  destruct (p z); simpl; [rewrite H1|]; auto.
Qed.

Lemma distinctQ_filter (p : Q -> bool) (s : list Q) :
  distinctQ s -> distinctQ (filter p s).
Proof.
  induction s as [|z s IH]; simpl; [trivial|].
  intros [H1 H2]. destruct (p z); simpl; auto using memQ_filter_false.
Qed.

Lemma distinctQ_py_set (l : list Q) : distinctQ (py_set l).
Proof.
  induction l as [|z l IH]; simpl; [trivial|]. split.
  - rewrite memQ_filter.
    + rewrite Qeq_bool_refl. simpl. apply andb_false_r.
    + intros y E. f_equal. apply Qeq_bool_compat_r, E.
  - apply distinctQ_filter, IH.
Qed.

Lemma distinctQ_set_intersection (s t : list Q) :
  distinctQ s -> distinctQ (set_intersection s t).
Proof. apply distinctQ_filter. Qed.

Lemma distinctQ_app (s t : list Q) :
  distinctQ s -> distinctQ t ->
  (forall x, In x s -> memQ x t = false) ->
  distinctQ (s ++ t).
Proof.
  intros Hs Ht Hst. induction s as [|z s IH]; simpl; [exact Ht|].
  destruct Hs as [H1 H2]. split.
  - rewrite memQ_app, H1. simpl. apply Hst. left. reflexivity.
  - apply IH; [exact H2|]. intros x Hx. apply Hst. right. exact Hx.
Qed.

Lemma distinctQ_set_update (s t : list Q) :
  distinctQ s -> distinctQ t -> distinctQ (set_update s t).
Proof.
  unfold set_update. intros Hs Ht. apply distinctQ_app.
  - exact Hs.
  - apply distinctQ_filter, Ht.
  - intros x Hx. rewrite memQ_filter.
    + assert (memQ x s = true) as ->.
      { apply memQ_true. exists x. split; [exact Hx | reflexivity]. }
      apply andb_false_r.
    + intros y E. f_equal. symmetry. apply memQ_compat, E.
Qed.

Lemma Forall_insert_sorted (P : Q -> Prop) (x : Q) (l : list Q) :
  P x -> Forall P l -> Forall P (insert_sorted x l).
Proof.
  intros Hx Hl. induction Hl as [|y l Hy Hl IH]; simpl.
  - auto.
  - destruct (Qle_bool x y); auto.
Qed.

Lemma sortedQ_insert (x : Q) (l : list Q) :
  sortedQ l -> sortedQ (insert_sorted x l).
Proof.
  unfold sortedQ. induction l as [|y l IH]; simpl; intro H.
  - repeat constructor.
  - inversion H as [|? ? Hl Hy]; subst.
    destruct (Qle_bool x y) eqn:E.
    + apply Qle_bool_iff in E. constructor; [assumption|].
      constructor; [assumption|].
      eapply Forall_impl; [|exact Hy]. intros z Hz. simpl in Hz. lra.
    + apply Qle_bool_false in E. constructor; [auto|].
      apply Forall_insert_sorted; [lra | assumption].
Qed.

Lemma sortedQ_np_sort (l : list Q) : sortedQ (np_sort l).
Proof.
  induction l as [|x l IH]; simpl; [constructor | apply sortedQ_insert, IH].
Qed.

Lemma increasingQ_insert (x : Q) (l : list Q) :
  memQ x l = false -> increasingQ l -> increasingQ (insert_sorted x l).
Proof.
  unfold increasingQ. induction l as [|y l IH]; simpl; intros Hm H.
  - repeat constructor.
  - apply orb_false_iff in Hm. destruct Hm as [Hxy Hm].
    apply Qeq_bool_false in Hxy.
    inversion H as [|? ? Hl Hy]; subst.
    destruct (Qle_bool x y) eqn:E.
    + apply Qle_bool_iff in E. constructor; [assumption|].
      constructor; [lra|].
      eapply Forall_impl; [|exact Hy]. intros z Hz. simpl in Hz. lra.
    + apply Qle_bool_false in E. constructor; [auto|].
      apply Forall_insert_sorted; [lra | assumption].
Qed.

(** Sorting a set gives a strictly increasing list. *)
Lemma increasingQ_np_sort (l : list Q) : distinctQ l -> increasingQ (np_sort l).
Proof.
  induction l as [|x l IH]; simpl; [constructor|].
  intros [Hm Hd]. apply increasingQ_insert; [|auto].
  rewrite memQ_np_sort. exact Hm.
Qed.

Lemma filter_all {A : Type} (p : A -> bool) (l : list A) :
  Forall (fun x => p x = true) l -> filter p l = l.
Proof.
  induction 1 as [|x l Hx Hl IH]; simpl; [reflexivity|].
  rewrite Hx, IH. reflexivity.
Qed.

(** A strictly increasing list is left as it is by [set] and [sort]. *)
Lemma py_set_increasing (l : list Q) : increasingQ l -> py_set l = l.
Proof.
  induction 1 as [|x l Hl IH Hx]; simpl; [reflexivity|].
  rewrite IH. f_equal. apply filter_all.
  eapply Forall_impl; [|exact Hx]. intros y Hy. simpl in Hy.
  apply negb_true_iff, Qeq_bool_false. lra.
Qed.

Lemma np_sort_increasing (l : list Q) : increasingQ l -> np_sort l = l.
Proof.
  induction 1 as [|x l Hl IH Hx]; simpl; [reflexivity|].
  rewrite IH. destruct l as [|y l]; simpl; [reflexivity|].
  inversion Hx; subst.
  assert (Qle_bool x y = true) as -> by (apply Qle_bool_iff; lra).
  reflexivity.
Qed.

Lemma increasingQ_nil_iff (l : list Q) :
  (forall x, memQ x l = false) -> l = [].
Proof.
  destruct l as [|y l]; [reflexivity|]. intro H. specialize (H y).
  simpl in H. rewrite Qeq_bool_refl in H. discriminate.
Qed.

(** ** Instants of [np.arange] *)

Lemma ceiling_gt (z : Z) (q : Q) :
  (z < Qceiling q)%Z <-> inject_Z z < q.
Proof.
  split; intro H.
  - apply Qle_lt_trans with (inject_Z (Qceiling q - 1)).
    + rewrite <- Zle_Qle. lia.
    + apply Qceiling_lt.
  - rewrite Zlt_Qlt. apply Qlt_le_trans with q; [exact H | apply Qle_ceiling].
Qed.

Lemma arange_count (a b s : Q) (k : nat) :
  0 < s ->
  (k < Z.to_nat (Qceiling ((b - a) / s)))%nat <->
  a + inject_Z (Z.of_nat k) * s < b.
Proof.
  intro Hs.
  assert (Hdiv : (b - a) / s * s == b - a) by (field; lra).
  transitivity (Z.of_nat k < Qceiling ((b - a) / s))%Z; [lia|].
  rewrite ceiling_gt. split; intro H.
  - apply (Qmult_lt_compat_r _ _ s Hs) in H. rewrite Hdiv in H. lra.
  - apply Qlt_shift_div_l; [exact Hs | lra].
Qed.

Lemma memQ_arange_items (a s : Q) (n : nat) (x : Q) :
  memQ x (arange_items a s n) = true <->
  exists k, (k < n)%nat /\ x == a + inject_Z (Z.of_nat k) * s.
Proof.
  rewrite memQ_true. unfold arange_items. split.
  - intros (y & Hy & E). apply in_map_iff in Hy.
    destruct Hy as (k & <- & Hk). apply in_seq in Hk.
    exists k. split; [lia | exact E].
  - intros (k & Hk & E). exists (a + inject_Z (Z.of_nat k) * s).
    split; [|exact E]. apply in_map_iff. exists k. split; [reflexivity|].
    apply in_seq. lia.
Qed.

Lemma grid_lt (a s : Q) (j k : nat) :
  0 < s -> (j < k)%nat ->
  a + inject_Z (Z.of_nat j) * s < a + inject_Z (Z.of_nat k) * s.
Proof.
  intros Hs Hjk.
  assert (inject_Z (Z.of_nat j) < inject_Z (Z.of_nat k)) as H
      by (rewrite <- Zlt_Qlt; lia).
  apply (Qmult_lt_compat_r _ _ s Hs) in H. lra.
Qed.

Lemma arange_items_increasing (a s : Q) (n : nat) :
  0 < s -> increasingQ (arange_items a s n).
Proof.
  intro Hs. unfold arange_items, increasingQ.
  generalize 0%nat as m. induction n as [|n IH]; intro m; simpl.
  - constructor.
  - constructor; [apply IH|]. apply Forall_forall. intros y Hy.
    apply in_map_iff in Hy. destruct Hy as (k & <- & Hk).
    apply in_seq in Hk. apply grid_lt; [exact Hs | lia].
Qed.

Lemma gen_interval_times_Ok (i : interval) (d : Q) :
  ~ d == 0 -> gen_interval_times i d = Ok (phase_instants i d).
Proof.
  intro Hd. unfold gen_interval_times, np_arange.
  apply Qeq_bool_false in Hd. rewrite Hd. reflexivity.
Qed.

(** The instants of a phase are the grid points [start + k * dt] below
    [end + dt]. *)
Lemma memQ_phase_instants (i : interval) (d x : Q) :
  0 < d ->
  memQ x (phase_instants i d) = true <->
  exists k : nat, x == fst i + inject_Z (Z.of_nat k) * d /\ x < snd i + d.
Proof.
  intro Hd. unfold phase_instants. rewrite memQ_arange_items.
  split; intros (k & H1 & H2).
  - exists k. apply arange_count in H1; [|exact Hd]. split; [exact H2 | lra].
  - exists k. split; [|exact H1]. apply arange_count; [exact Hd | lra].
Qed.

Lemma mapM_gen_interval_times (ivs : list interval) (d : Q) :
  ~ d == 0 ->
  mapM (fun i => gen_interval_times i d) ivs =
  Ok (map (fun i => phase_instants i d) ivs).
Proof.
  intro Hd. induction ivs as [|i ivs IH]; simpl; [reflexivity|].
  rewrite gen_interval_times_Ok by exact Hd. simpl. rewrite IH. reflexivity.
Qed.

Lemma memQ_concat (x : Q) (ls : list (list Q)) :
  memQ x (List.concat ls) = existsb (memQ x) ls.
Proof.
  induction ls as [|l ls IH]; simpl; [reflexivity|].
  rewrite memQ_app, IH. reflexivity.
Qed.

(** ** PhaseMap: get_phase_times and get_sample_times *)

(** The instants of a name that is a phase and not a modephase. *)
Lemma get_phase_times_phase (pm : PhaseMap) (name : string) (i : interval) :
  0 < dt pm ->
  dict_get (modephases pm) name = None ->
  dict_get (phases pm) name = Some i ->
  get_phase_times pm name = Ok (phase_instants i (dt pm)).
Proof.
  intros Hd Hm Hp. unfold get_phase_times. rewrite Hm, Hp. simpl.
  rewrite gen_interval_times_Ok by lra. simpl. rewrite app_nil_r.
  assert (increasingQ (phase_instants i (dt pm))) as Hinc
      by (apply arange_items_increasing, Hd).
  rewrite (py_set_increasing _ Hinc), (np_sort_increasing _ Hinc).
  reflexivity.
Qed.

(** The instants of a modephase: the sorted union of those of its
    phases. *)
Lemma get_phase_times_modephase (pm : PhaseMap) (name : string)
  (phs : list string) (ivs : list interval) :
  ~ dt pm == 0 ->
  dict_get (modephases pm) name = Some phs ->
  phs <> [] ->
  Forall2 (fun ph i => dict_get (phases pm) ph = Some i) phs ivs ->
  exists l,
    get_phase_times pm name = Ok l /\
    increasingQ l /\
    forall x, memQ x l = true <->
              Exists (fun i => memQ x (phase_instants i (dt pm)) = true) ivs.
Proof.
  intros Hd Hm Hne Hivs.
  assert (mapM (dict_getitem (phases pm)) phs = Ok ivs) as Hmap.
  { apply mapM_Forall2. eapply Forall2_impl; [|exact Hivs].
    intros ph i H. simpl in H. unfold dict_getitem. rewrite H. reflexivity. }
  assert (ivs <> []) as Hne'.
  { intro E. subst ivs. inversion Hivs. subst. contradiction. }
  unfold get_phase_times. rewrite Hm, Hmap. simpl.
  rewrite mapM_gen_interval_times by exact Hd. simpl.
  destruct ivs as [|i ivs]; [contradiction|]. cbn [map np_concatenate bind].
  eexists. split; [reflexivity|]. split.
  - apply increasingQ_np_sort, distinctQ_py_set.
  - intro x. rewrite memQ_np_sort, memQ_py_set.
    change (phase_instants i (dt pm) :: map (fun i0 => phase_instants i0 (dt pm)) ivs)
      with (map (fun i0 => phase_instants i0 (dt pm)) (i :: ivs)).
    rewrite memQ_concat, existsb_exists, Exists_exists. split.
    + intros (l & Hl & Hx). apply in_map_iff in Hl.
      destruct Hl as (i0 & <- & Hi0). eauto.
    + intros (i0 & Hi0 & Hx). exists (phase_instants i0 (dt pm)).
      split; [|exact Hx].
      apply (in_map (fun i1 => phase_instants i1 (dt pm))), Hi0.
Qed.

Lemma sample_loop_spec (pm : PhaseMap) (names : list string) :
  forall d0 d, sample_loop pm names d0 = Ok d ->
    (forall name, In name names ->
       exists l, get_phase_times pm name = Ok l /\ dict_get d name = Some l) /\
    (forall k, ~ In k names -> dict_get d k = dict_get d0 k).
Proof.
  induction names as [|n names IH]; intros d0 d H; simpl in H.
  - injection H as <-. split; [intros ? []| reflexivity].
  - destruct (get_phase_times pm n) as [l|] eqn:En; simpl in H; [|discriminate].
    apply IH in H. destruct H as [H1 H2]. split.
    + intros name [<-|Hin].
      * destruct (in_dec string_dec n names) as [Hn|Hn]; [apply H1, Hn|].
        exists l. split; [exact En|].
        rewrite (H2 n Hn), dict_get_set, String.eqb_refl. reflexivity.
      * apply H1, Hin.
    + intros k Hk. rewrite H2 by (intro; apply Hk; right; assumption).
      rewrite dict_get_set.
      destruct (String.eqb k n) eqn:E; [|reflexivity].
      apply String.eqb_eq in E. exfalso. apply Hk. left. congruence.
Qed.

Lemma sample_loop_ok (pm : PhaseMap) (names : list string) :
  forall d0,
    (forall name, In name names -> is_ok (get_phase_times pm name) = true) ->
    is_ok (sample_loop pm names d0) = true.
Proof.
  induction names as [|n names IH]; intros d0 H; simpl; [reflexivity|].
  pose proof (H n (or_introl eq_refl)) as Hn.
  destruct (get_phase_times pm n); [|discriminate]. simpl.
  apply IH. intros name Hin. apply H. right. exact Hin.
Qed.

Lemma get_sample_times_default (pm : PhaseMap) :
  get_sample_times pm [] = get_sample_times pm (default_names pm).
Proof.
  unfold get_sample_times, default_names.
  destruct (modephases pm) as [|[m v] ms]; simpl.
  - destruct (phases pm) as [|[p i] ps]; reflexivity.
  - reflexivity.
Qed.

Lemma grid_nonneg (d : Q) (k : nat) : 0 < d -> 0 <= inject_Z (Z.of_nat k) * d.
Proof.
  intro Hd. apply Qmult_le_0_compat; [|lra].
  change 0 with (inject_Z 0). rewrite <- Zle_Qle. lia.
Qed.

(** Some instant of a phase is at or after its end. *)
Lemma phase_instants_reach_end (i : interval) (d : Q) :
  0 < d -> fst i <= snd i ->
  exists x, memQ x (phase_instants i d) = true /\ snd i <= x.
Proof.
  intros Hd Hi. destruct i as [a b]. simpl in *.
  set (q := (b - a) / d).
  assert (Hq : q * d == b - a) by (unfold q; field; lra).
  assert (Hq0 : 0 <= q).
  { apply Qmult_le_r with d; [exact Hd|]. lra. }
  pose proof (Qle_ceiling q) as Hc1. pose proof (Qceiling_lt q) as Hc2.
  assert (0 <= Qceiling q)%Z as Hc0.
  { rewrite Zle_Qle. change (inject_Z 0) with 0. lra. }
  unfold Z.sub in Hc2. rewrite inject_Z_plus in Hc2.
  change (inject_Z (-1)) with (-1) in Hc2.
  exists (a + inject_Z (Qceiling q) * d).
  assert (inject_Z (Qceiling q) * d < q * d + d) as Hlt.
  { assert ((inject_Z (Qceiling q) + -1) * d < q * d) as H
        by (apply Qmult_lt_compat_r; assumption).
    lra. }
  assert (q * d <= inject_Z (Qceiling q) * d) as Hge.
  { apply Qmult_le_compat_r; lra. }
  split.
  - apply memQ_phase_instants; [exact Hd|]. simpl.
    exists (Z.to_nat (Qceiling q)). rewrite Z2Nat.id by exact Hc0.
    split; [reflexivity | lra].
  - lra.
Qed.

(** When the end of a phase is on the grid of its start, the instants lie
    in [[start, end]] and the end is one of them. *)
Lemma phase_instants_aligned (i : interval) (d : Q) (m : nat) :
  0 < d -> snd i == fst i + inject_Z (Z.of_nat m) * d ->
  memQ (snd i) (phase_instants i d) = true /\
  forall x, memQ x (phase_instants i d) = true -> fst i <= x /\ x <= snd i.
Proof.
  intros Hd Hm. split.
  - apply memQ_phase_instants; [exact Hd|]. exists m. split; [exact Hm | lra].
  - intros x Hx. apply memQ_phase_instants in Hx; [|exact Hd].
    destruct Hx as (k & Hk & Hlt). pose proof (grid_nonneg d k Hd).
    split; [lra|].
    assert (inject_Z (Z.of_nat k) * d < inject_Z (Z.of_nat (S m)) * d) as H1.
    { rewrite Nat2Z.inj_succ. unfold Z.succ. rewrite inject_Z_plus.
      change (inject_Z 1) with 1. lra. }
    apply Qmult_lt_r in H1; [|exact Hd]. rewrite <- Zlt_Qlt in H1.
    assert (inject_Z (Z.of_nat k) <= inject_Z (Z.of_nat m)) as H2
        by (rewrite <- Zle_Qle; lia).
    apply (Qmult_le_compat_r _ _ d) in H2; lra.
Qed.

(** C6, as stated, fails: for the phase [[0, 4.5]] and [dt = 1.0] the
    instants are [0, 1, ..., 5]; the end of the phase is not one of them
    and the last of them lies beyond it. *)
Lemma get_sample_times_beyond_end :
  get_sample_times
    {| phases := [("a"%string, (0, 9 # 2))]; modephases := []; dt := 1 |}
    ["a"%string]
  = Ok [("a"%string, [0; 1; 2; 3; 4; 5])] /\
  memQ (9 # 2) [0; 1; 2; 3; 4; 5] = false /\
  9 # 2 < 5.
Proof. repeat split. Qed.

(** C6 (amended).  For a map with a positive timestep, whose timestep
    and bounds are on one grid (the instants are then computed without
    rounding), [get_sample_times] maps every requested name to the
    result of [get_phase_times] for that name.  For a phase
    [[start, end]] with [start <= end] (a name that is not a modephase)
    these are, in increasing order, the instants [start + k * dt] below
    [end + dt]: they begin at [start] and reach [end]; when [end] is
    [start] plus a whole number of steps they lie in [[start, end]] and
    include [end], otherwise the last of them lies beyond [end].  For a
    modephase they are the increasing list without repetition of the
    instants of all its phases.  Without names the modephases are
    sampled when there are any, else the phases.  Phase [on1 = [0, 4]]
    with [dt = 1.0] gives [[0, 1, 2, 3, 4]]. *)
Theorem get_sample_times_instants :
  forall (pm : PhaseMap) (names : list string) (d : dict (list Q))
         (name : string) (i : interval)
         (phs : list string) (ivs : list interval) (j : nat),
    0 < dt pm -> on_grid j (dt pm) -> bounds_on_grid j (phases pm) ->
    get_sample_times
      {| phases := [("on1"%string, (0, 4)); ("on2"%string, (5, 6))];
         modephases := [("on"%string, ["on1"; "on2"]%string)]; dt := 1 |}
      ["on1"%string]
    = Ok [("on1"%string, [0; 1; 2; 3; 4])] /\
    get_sample_times
      {| phases := [("on1"%string, (0, 4)); ("on2"%string, (5, 6))];
         modephases := [("on"%string, ["on1"; "on2"]%string)]; dt := 1 |}
      ["on"%string]
    = Ok [("on"%string, [0; 1; 2; 3; 4; 5; 6])] /\
    (names <> [] -> get_sample_times pm names = Ok d ->
     forall n, In n names ->
       exists l, get_phase_times pm n = Ok l /\ dict_get d n = Some l) /\
    (names <> [] ->
     (forall n, In n names -> is_ok (get_phase_times pm n) = true) ->
     is_ok (get_sample_times pm names) = true) /\
    (dict_get (modephases pm) name = None ->
     dict_get (phases pm) name = Some i ->
     fst i <= snd i ->
     exists l,
       get_phase_times pm name = Ok l /\
       increasingQ l /\
       (forall x, memQ x l = true <-> instant_on (dt pm) i x) /\
       memQ (fst i) l = true /\
       (exists x, memQ x l = true /\ snd i <= x) /\
       (forall m : nat, snd i == fst i + inject_Z (Z.of_nat m) * dt pm ->
          memQ (snd i) l = true /\
          forall x, memQ x l = true -> fst i <= x /\ x <= snd i) /\
       ((forall m : nat, ~ snd i == fst i + inject_Z (Z.of_nat m) * dt pm) ->
        memQ (snd i) l = false /\
        exists x, memQ x l = true /\ snd i < x)) /\
    (dict_get (modephases pm) name = Some phs ->
     phs <> [] ->
     Forall2 (fun ph iv => dict_get (phases pm) ph = Some iv) phs ivs ->
     exists l,
       get_phase_times pm name = Ok l /\
       increasingQ l /\
       forall x, memQ x l = true <->
                 Exists (fun iv => instant_on (dt pm) iv x) ivs) /\
    get_sample_times pm [] =
    get_sample_times pm
      (match modephases pm with
       | [] => dict_keys (phases pm)
       | _ :: _ => dict_keys (modephases pm)
       end).
Proof.
  intros pm names d name i phs ivs j Hd _ _.
  split; [reflexivity|]. split; [reflexivity|]. split.
  { intros Hne H. destruct names as [|n0 names]; [contradiction|].
    unfold get_sample_times in H. apply sample_loop_spec in H. apply H. }
  split.
  { intros Hne H. destruct names as [|n0 names]; [contradiction|].
    unfold get_sample_times. apply sample_loop_ok, H. }
  split.
  { intros Hm Hp Hi. exists (phase_instants i (dt pm)).
    split; [apply get_phase_times_phase; assumption|].
    split; [apply arange_items_increasing, Hd|].
    split; [intro x; apply memQ_phase_instants, Hd|].
    split.
    - apply memQ_phase_instants; [exact Hd|]. exists 0%nat.
      change (inject_Z (Z.of_nat 0)) with 0. split; lra.
    - split; [apply phase_instants_reach_end; assumption|].
      split;
        [intros m Hm'; apply (phase_instants_aligned i (dt pm) m); assumption|].
      intro Hoff.
      assert (memQ (snd i) (phase_instants i (dt pm)) = false) as Hnot.
      { destruct (memQ (snd i) (phase_instants i (dt pm))) eqn:E;
          [|reflexivity].
        apply memQ_phase_instants in E; [|exact Hd].
        destruct E as (k & Hk & _). exfalso. exact (Hoff k Hk). }
      split; [exact Hnot|].
      destruct (phase_instants_reach_end i (dt pm) Hd Hi) as (x & Hx & Hle).
      exists x. split; [exact Hx|].
      destruct (Qlt_le_dec (snd i) x) as [Hlt|Hge]; [exact Hlt|].
      exfalso. assert (x == snd i) as Heq by lra.
      assert (memQ (snd i) (phase_instants i (dt pm)) = true) as Hin.
      { apply memQ_true in Hx. destruct Hx as (y & Hy & Hxy).
        apply memQ_true. exists y. split; [exact Hy|]. lra. }
      congruence. }
  split.
  { intros Hm Hne Hivs.
    destruct (get_phase_times_modephase pm name phs ivs) as (l & E & Hl & Hx);
      try assumption; [lra|].
    exists l. split; [exact E|]. split; [exact Hl|].
    intro x. rewrite Hx, !Exists_exists.
    split; intros (iv & Hiv & H); exists iv; (split; [exact Hiv|]);
      apply (memQ_phase_instants iv (dt pm) x Hd); exact H. }
  rewrite get_sample_times_default. unfold default_names.
  destruct (modephases pm); reflexivity.
Qed.

Lemma get_sample_times_instants_witness :
  exists l,
    get_phase_times
      {| phases := [("a"%string, (0, 9 # 2)); ("b"%string, (6, 7))];
         modephases := []; dt := 1 # 2 |} "a" = Ok l /\
    memQ (9 # 2) l = true /\ memQ 5 l = false.
Proof.
  pose proof (get_sample_times_instants
    {| phases := [("a"%string, (0, 9 # 2)); ("b"%string, (6, 7))];
       modephases := []; dt := 1 # 2 |}
    ["a"%string] [] "a"%string (0, 9 # 2) [] [] 1) as H.
  destruct H as (_ & _ & _ & _ & H & _).
  - reflexivity.
  - grid.
  - each ltac:(split; grid).
  - destruct H as (l & H1 & _ & _ & _ & _ & H2 & _).
    + reflexivity.
    + reflexivity.
    + simpl. discriminate.
    + exists l. split; [exact H1|].
      destruct (H2 9%nat) as [Hin Hall]; [reflexivity|].
      split; [exact Hin|].
      destruct (memQ 5 l) eqn:E; [|reflexivity].
      apply Hall in E. simpl in E. destruct E as [_ E].
      exfalso. apply E. reflexivity.
Defined.

(** ** find_overlap_n *)

Lemma unit_instants_spec (i : list Q) :
  i <> [] ->
  exists s, unit_instants i = Ok s /\ distinctQ s /\
            forall x, memQ x s = true <-> unit_grid i x.
Proof.
  intro Hne. destruct i as [|a i]; [contradiction|].
  unfold unit_instants, unit_grid. simpl.
  eexists. split; [reflexivity|]. split; [apply distinctQ_py_set|].
  intro x. rewrite memQ_py_set, memQ_arange_items. split.
  - intros (k & Hk & E). exists a, (last i a), k.
    apply arange_count in Hk; [|lra].
    repeat split; lra.
  - intros (a' & b' & k & [= <-] & [= <-] & E & Hlt). exists k. split.
    + apply arange_count; lra.
    + lra.
Qed.

Lemma mapM_unit_instants (its : list (list Q)) :
  Forall (fun i => i <> []) its ->
  exists sets,
    mapM unit_instants its = Ok sets /\
    Forall distinctQ sets /\
    forall x, existsb (memQ x) sets = true <->
              Exists (fun i => unit_grid i x) its.
Proof.
  induction 1 as [|i its Hi Hits IH]; simpl.
  - exists []. repeat split; [constructor | discriminate |].
    intro H. inversion H.
  - destruct (unit_instants_spec i Hi) as (s & Es & Ds & Ms).
    destruct IH as (sets & Esets & Dsets & Msets).
    exists (s :: sets). rewrite Es, Esets. simpl.
    repeat split; [constructor; assumption | |].
    + intro H. apply orb_true_iff in H. destruct H as [H|H].
      * left. apply Ms, H.
      * right. apply Msets, H.
    + intro H. apply orb_true_iff. inversion H; subst.
      * left. apply Ms. assumption.
      * right. apply Msets. assumption.
Qed.

Lemma fold_set_update (sets : list (list Q)) :
  forall acc,
    distinctQ acc -> Forall distinctQ sets ->
    distinctQ (fold_left set_update sets acc) /\
    forall x, memQ x (fold_left set_update sets acc) =
              memQ x acc || existsb (memQ x) sets.
Proof.
  induction sets as [|s sets IH]; intros acc Ha Hs; simpl.
  - split; [exact Ha | intro x; rewrite orb_false_r; reflexivity].
  - inversion Hs as [|? ? Hs1 Hs2]; subst.
    destruct (IH (set_update acc s)) as [H1 H2];
      [apply distinctQ_set_update; assumption | assumption |].
    split; [exact H1|]. intro x.
    rewrite H2, memQ_set_update, orb_assoc. reflexivity.
Qed.

Lemma possible_times_spec (iv : interval_arg) :
  well_formed iv ->
  exists s, possible_times iv = Ok s /\ distinctQ s /\
            forall x, memQ x s = true <-> eligible iv x.
Proof.
  intro Hwf. unfold possible_times. destruct iv as [ts|its]; simpl in Hwf.
  - destruct ts as [|t ts]; [contradiction|]. cbn [as_intervals bind mapM].
    destruct (unit_instants_spec (t :: ts) Hwf) as (s & Es & Ds & Ms).
    rewrite Es. cbn [bind fold_left].
    exists (set_update [] s). split; [reflexivity|]. split.
    + apply distinctQ_set_update; simpl; auto.
    + intro x. rewrite memQ_set_update. simpl. apply Ms.
  - destruct Hwf as [Hne Hall]. destruct its as [|i its]; [contradiction|].
    cbn [as_intervals bind].
    destruct (mapM_unit_instants (i :: its) Hall) as (sets & Es & Ds & Ms).
    rewrite Es. cbn [bind].
    destruct (fold_set_update sets [] I Ds) as [H1 H2].
    eexists. split; [reflexivity|]. split; [exact H1|].
    intro x. rewrite H2. simpl. apply Ms.
Qed.

Lemma overlap_loop_spec (ivs : list interval_arg) :
  Forall well_formed ivs ->
  forall i joined sizes,
    distinctQ joined ->
    exists joined' sizes',
      overlap_loop ivs (S i) joined sizes = Ok (joined', sizes') /\
      distinctQ joined' /\
      List.length sizes' = (List.length sizes + List.length ivs)%nat /\
      forall x, memQ x joined' = true <->
                memQ x joined = true /\ Forall (fun iv => eligible iv x) ivs.
Proof.
  induction 1 as [|iv ivs Hiv Hivs IH]; intros i joined sizes Hj; simpl.
  - exists joined, sizes. repeat split; auto. intros [H _]. exact H.
  - destruct (possible_times_spec iv Hiv) as (s & Es & Ds & Ms).
    rewrite Es. cbn [bind].
    destruct (IH (S i) (set_intersection joined s)
                (sizes ++ [List.length s])) as (j' & s' & E & D & L & M).
    { apply distinctQ_set_intersection, Hj. }
    exists j', s'. split; [exact E|]. split; [exact D|]. split.
    + rewrite L, length_app. simpl. lia.
    + intro x. rewrite M, memQ_set_intersection, andb_true_iff, Ms. split.
      * intros [[H1 H2] H3]. split; [exact H1|]. constructor; assumption.
      * intros [H1 H2]. inversion H2; subst. tauto.
Qed.







(** ** SimParam: find_any_phase_overlap *)

Lemma count_insert_sorted (p : Q -> bool) (x : Q) (l : list Q) :
  count p (insert_sorted x l) = count p (x :: l).
Proof.
  unfold count. induction l as [|y l IH]; simpl; [reflexivity|].
  destruct (Qle_bool x y); simpl; [reflexivity|].
  destruct (p y) eqn:Ey; simpl; rewrite IH; simpl;
    destruct (p x); reflexivity.
Qed.

Lemma count_np_sort (p : Q -> bool) (l : list Q) :
  count p (np_sort l) = count p l.
Proof.
  induction l as [|x l IH]; simpl; [reflexivity|].
  rewrite count_insert_sorted. unfold count in *. simpl.
  destruct (p x); simpl; rewrite IH; reflexivity.
Qed.

Lemma length_np_sort (l : list Q) : List.length (np_sort l) = List.length l.
Proof.
  pose proof (count_np_sort (fun _ => true) l) as H. unfold count in H.
  rewrite !filter_all in H by (apply Forall_forall; reflexivity).
  exact H.
Qed.

Lemma count_le_length {A : Type} (p : A -> bool) (l : list A) :
  (count p l <= List.length l)%nat.
Proof. apply filter_length_le. Qed.

(** In a sorted list the numbers that pass a downward closed test are a
    prefix. *)
Lemma sorted_count_prefix (p : Q -> bool) (l : list Q) :
  sortedQ l ->
  (forall x y, x <= y -> p y = true -> p x = true) ->
  forall j, (j < List.length l)%nat ->
            (p (nth j l 0) = true <-> (j < count p l)%nat).
Proof.
  intros Hs Hp. unfold count.
  induction Hs as [|a l Hl IH Ha]; intros j Hj; simpl in *; [lia|].
  destruct (p a) eqn:Ea; simpl.
  - destruct j as [|j]; [split; [lia | auto]|].
    rewrite IH by lia. lia.
  - assert (Forall (fun y => p y = false) l) as Hnone.
    { eapply Forall_impl; [|exact Ha]. intros y Hy. simpl in Hy.
      destruct (p y) eqn:Ey; [|reflexivity].
      rewrite (Hp a y Hy Ey) in Ea. discriminate. }
    assert (filter p l = []) as ->.
    { clear - Hnone. induction Hnone as [|y l Hy _ IH]; simpl;
        [reflexivity | rewrite Hy; exact IH]. }
    simpl. destruct j as [|j].
    + rewrite Ea. split; [discriminate | lia].
    + rewrite Forall_forall in Hnone.
      rewrite (Hnone (nth j l 0)) by (apply nth_In; lia).
      split; [discriminate | lia].
Qed.

Lemma overlap_scan_step (l0 l1 h0 : Q) (rest hs : list Q) :
  overlap_scan (l0 :: l1 :: rest) (h0 :: hs) =
  if Qle_bool l1 h0 then true else overlap_scan (l1 :: rest) hs.
Proof. reflexivity. Qed.

Lemma overlap_scan_iff (int_low : list Q) :
  forall int_high,
    overlap_scan int_low int_high = true <->
    exists i, (S i < List.length int_low)%nat /\
              (i < List.length int_high)%nat /\
              nth (S i) int_low 0 <= nth i int_high 0.
Proof.
  induction int_low as [|l0 L IH]; intros H.
  - simpl. split; [discriminate | intros (i & Hi & _); simpl in Hi; lia].
  - destruct L as [|l1 rest].
    + simpl. split; [discriminate | intros (i & Hi & _); simpl in Hi; lia].
    + destruct H as [|h0 hs].
      * simpl. split; [discriminate | intros (i & _ & Hi & _); simpl in Hi; lia].
      * rewrite overlap_scan_step. destruct (Qle_bool l1 h0) eqn:E.
        -- split; [intros _ | reflexivity]. exists 0%nat.
           apply Qle_bool_iff in E. simpl. repeat split; [lia.. | exact E].
        -- rewrite IH. apply Qle_bool_false in E. split.
           ++ intros (i & H1 & H2 & H3). exists (S i).
              simpl in *. repeat split; [lia.. | exact H3].
           ++ intros ([|i] & H1 & H2 & H3).
              ** simpl in H3. lra.
              ** exists i. simpl in *. repeat split; [lia.. | exact H3].
Qed.

(** On sorted bounds the scan finds [int_low[i+1] <= int_high[i]] exactly
    when at some instant two more intervals have begun than have ended. *)
Lemma overlap_scan_count (L H : list Q) :
  sortedQ L -> sortedQ H -> List.length L = List.length H ->
  overlap_scan L H = true <->
  exists t, (count_lt t H + 2 <= count_le t L)%nat.
Proof.
  intros HL HH Hlen. rewrite overlap_scan_iff.
  assert (Hle : forall t x y, x <= y -> Qle_bool y t = true ->
                              Qle_bool x t = true).
  { intros t x y Hxy Hy. apply Qle_bool_iff in Hy. apply Qle_bool_iff. lra. }
  assert (Hlt : forall t x y, x <= y -> negb (Qle_bool t y) = true ->
                              negb (Qle_bool t x) = true).
  { intros t x y Hxy Hy. apply negb_true_iff, Qle_bool_false in Hy.
    apply negb_true_iff, Qle_bool_false. lra. }
  split.
  - intros (i & H1 & H2 & H3). exists (nth (S i) L 0).
    set (t := nth (S i) L 0) in *.
    pose proof (sorted_count_prefix _ L HL (Hle t) (S i) H1) as PL.
    pose proof (sorted_count_prefix _ H HH (Hlt t) i H2) as PH.
    fold (count_le t L) in PL. fold (count_lt t H) in PH.
    assert (S i < count_le t L)%nat
      by (apply PL, Qle_bool_iff; unfold t; lra).
    assert (~ (i < count_lt t H)%nat).
    { intro Hc. apply PH in Hc. apply negb_true_iff, Qle_bool_false in Hc.
      lra. }
    lia.
  - intros (t & Ht).
    pose proof (count_le_length (fun x => Qle_bool x t) L) as HcL.
    fold (count_le t L) in HcL.
    set (i := count_lt t H) in *.
    assert (S i < List.length L)%nat as H1 by lia.
    assert (i < List.length H)%nat as H2 by lia.
    pose proof (sorted_count_prefix _ L HL (Hle t) (S i) H1) as PL.
    pose proof (sorted_count_prefix _ H HH (Hlt t) i H2) as PH.
    fold (count_le t L) in PL. fold (count_lt t H) in PH.
    exists i. split; [exact H1|]. split; [exact H2|].
    assert (Qle_bool (nth (S i) L 0) t = true) as Ha by (apply PL; lia).
    apply Qle_bool_iff in Ha.
    destruct (Qle_bool t (nth i H 0)) eqn:Eb.
    + apply Qle_bool_iff in Eb. lra.
    + exfalso. assert (i < count_lt t H)%nat as Hc
          by (apply PH; rewrite Eb; reflexivity).
      unfold i in Hc. lia.
Qed.

(** Intervals with [start <= end]: those begun by [t] are those ended
    before [t] and those that contain [t]. *)
Lemma count_begun_ended (t : Q) (ivs : list interval) :
  Forall (fun iv => fst iv <= snd iv) ivs ->
  count_le t (map fst ivs) =
  (count_lt t (map snd ivs) + count (contains t) ivs)%nat.
Proof.
  unfold count_le, count_lt, count, contains.
  induction 1 as [|[a b] ivs Hab Hivs IH]; simpl in *; [reflexivity|].
  destruct (Qle_bool a t) eqn:Ea, (Qle_bool t b) eqn:Eb; simpl;
    rewrite IH; try lia.
  apply Qle_bool_false in Ea, Eb. lra.
Qed.

Lemma count_pos {A : Type} (p : A -> bool) (l : list A) :
  (1 <= count p l)%nat <->
  exists i a, nth_error l i = Some a /\ p a = true.
Proof.
  unfold count. induction l as [|x l IH]; simpl.
  - split; [lia | intros ([|i] & a & H & _); discriminate].
  - destruct (p x) eqn:Ex; simpl.
    + split; [intros _ | lia]. exists 0%nat, x. auto.
    + rewrite IH. split.
      * intros (i & a & H1 & H2). exists (S i), a. auto.
      * intros ([|i] & a & H1 & H2); simpl in H1.
        -- injection H1 as ->. congruence.
        -- exists i, a. auto.
Qed.

Lemma count_two {A : Type} (p : A -> bool) (l : list A) :
  (2 <= count p l)%nat <->
  exists i j a b, (i < j)%nat /\ nth_error l i = Some a /\
                  nth_error l j = Some b /\ p a = true /\ p b = true.
Proof.
  induction l as [|x l IH].
  - unfold count. simpl. split; [lia|].
    intros ([|i] & j & a & b & _ & H & _); discriminate.
  - assert (Hc : count p (x :: l) =
                 ((if p x then 1 else 0) + count p l)%nat).
    { unfold count. simpl. destruct (p x); reflexivity. }
    rewrite Hc. split.
    + intro H. destruct (p x) eqn:Ex.
      * assert (1 <= count p l)%nat as H1 by lia.
        apply count_pos in H1. destruct H1 as (j & b & Hj & Hb).
        exists 0%nat, (S j), x, b. simpl. repeat split; auto. lia.
      * assert (2 <= count p l)%nat as H2 by lia.
        apply IH in H2. destruct H2 as (i & j & a & b & Hij & Hi & Hj & Hab).
        exists (S i), (S j), a, b. simpl. repeat split; try tauto. lia.
    + intros (i & j & a & b & Hij & Hi & Hj & Ha & Hb).
      destruct j as [|j]; [lia|]. simpl in Hj.
      destruct i as [|i]; simpl in Hi.
      * injection Hi as ->. rewrite Ha.
        assert (1 <= count p l)%nat by (apply count_pos; eauto). lia.
      * assert (2 <= count p l)%nat.
        { apply IH. exists i, j, a, b. repeat split; auto. lia. }
        lia.
Qed.

Lemma has_overlap_count (ivs : list interval) :
  Forall (fun iv => fst iv <= snd iv) ivs ->
  has_overlap ivs <-> exists t, (2 <= count (contains t) ivs)%nat.
Proof.
  intro Hwf. unfold has_overlap, intervals_overlap. split.
  - intros (i & j & a & b & Hij & Hi & Hj & H1 & H2).
    rewrite Forall_forall in Hwf.
    pose proof (Hwf a (nth_error_In _ _ Hi)) as Ha.
    pose proof (Hwf b (nth_error_In _ _ Hj)) as Hb.
    destruct (Qlt_le_dec (fst a) (fst b)) as [Hlt|Hge].
    + exists (fst b). apply count_two. exists i, j, a, b.
      unfold contains. rewrite !andb_true_iff, !Qle_bool_iff.
      repeat split; auto; lra.
    + exists (fst a). apply count_two. exists i, j, a, b.
      unfold contains. rewrite !andb_true_iff, !Qle_bool_iff.
      repeat split; auto; lra.
  - intros (t & Ht). apply count_two in Ht.
    destruct Ht as (i & j & a & b & Hij & Hi & Hj & Ha & Hb).
    unfold contains in Ha, Hb.
    rewrite andb_true_iff, !Qle_bool_iff in Ha, Hb.
    exists i, j, a, b. repeat split; auto; lra.
Qed.

(** The scan of the sorted bounds detects exactly the overlaps. *)
Lemma overlap_scan_correct (ivs : list interval) :
  Forall (fun iv => fst iv <= snd iv) ivs ->
  overlap_scan (np_sort (map fst ivs)) (np_sort (map snd ivs)) = true <->
  has_overlap ivs.
Proof.
  intro Hwf. rewrite overlap_scan_count.
  - rewrite (has_overlap_count ivs Hwf).
    split; intros (t & Ht); exists t.
    + unfold count_le, count_lt in Ht. rewrite !count_np_sort in Ht.
      fold (count_le t (map fst ivs)) in Ht.
      fold (count_lt t (map snd ivs)) in Ht.
      rewrite (count_begun_ended t ivs Hwf) in Ht. lia.
    + unfold count_le, count_lt. rewrite !count_np_sort.
      fold (count_le t (map fst ivs)). fold (count_lt t (map snd ivs)).
      rewrite (count_begun_ended t ivs Hwf). lia.
  - apply sortedQ_np_sort.
  - apply sortedQ_np_sort.
  - rewrite !length_np_sort, !length_map. reflexivity.
Qed.

Lemma dict_set_fresh {V : Type} (d : dict V) (k : string) (v : V) :
  ~ In k (dict_keys d) -> dict_set d k v = d ++ [(k, v)].
Proof.
  unfold dict_keys. induction d as [|[k0 v0] d IH]; simpl; intro H.
  - reflexivity.
  - destruct (String.eqb k k0) eqn:E.
    + apply String.eqb_eq in E. exfalso. apply H. left. congruence.
    + rewrite IH; [reflexivity|]. intro Hin. apply H. right. exact Hin.
Qed.

Lemma fold_dict_set_NoDup {V : Type} (l : list (string * V)) :
  forall acc,
    NoDup (dict_keys (acc ++ l)) ->
    fold_left (fun d kv => dict_set d (fst kv) (snd kv)) l acc = acc ++ l.
Proof.
  induction l as [|[k v] l IH]; intros acc Hnd; simpl.
  - rewrite app_nil_r. reflexivity.
  - rewrite dict_set_fresh.
    + rewrite IH; rewrite <- app_assoc; [reflexivity | exact Hnd].
    + unfold dict_keys in *. rewrite map_app in Hnd. simpl in Hnd.
      apply NoDup_remove_2 in Hnd. intro Hin. apply Hnd.
      apply in_or_app. left. exact Hin.
Qed.

(** A tuple of phases with distinct names is its own dict. *)
Lemma dict_of_list_NoDup {V : Type} (l : list (string * V)) :
  NoDup (dict_keys l) -> dict_of_list l = l.
Proof. intro H. unfold dict_of_list. apply (fold_dict_set_NoDup l []), H. Qed.

Lemma find_any_phase_overlap_unfold (phases : list phase_spec)
  (ivs : list interval) :
  dict_values
    (dict_of_list
       (map (fun v : phase_spec => (fst (fst v), (snd (fst v), snd v))) phases))
  = ivs ->
  find_any_phase_overlap phases =
  if overlap_scan (np_sort (map fst ivs)) (np_sort (map snd ivs))
  then Raise (Exception GlobalPhasesOverlap) else Ok tt.
Proof. intros <-. reflexivity. Qed.

Lemma find_any_phase_overlap_correct (phases : list phase_spec) :
  NoDup (phase_names phases) ->
  Forall (fun v => snd (fst v) <= snd v) phases ->
  (has_overlap (map interval_of phases) ->
   find_any_phase_overlap phases = Raise (Exception GlobalPhasesOverlap)) /\
  (~ has_overlap (map interval_of phases) ->
   find_any_phase_overlap phases = Ok tt).
Proof.
  intros Hnd Hwf.
  assert (Hvals :
            dict_values
              (dict_of_list
                 (map (fun v : phase_spec =>
                         (fst (fst v), (snd (fst v), snd v))) phases))
            = map interval_of phases).
  { rewrite dict_of_list_NoDup.
    - unfold dict_values. rewrite map_map. reflexivity.
    - unfold dict_keys, phase_names in *. rewrite map_map. exact Hnd. }
  rewrite (find_any_phase_overlap_unfold phases _ Hvals).
  assert (Forall (fun iv => fst iv <= snd iv) (map interval_of phases)) as Hwf'.
  { apply Forall_forall. intros iv Hiv. apply in_map_iff in Hiv.
    destruct Hiv as (v & <- & Hv). rewrite Forall_forall in Hwf.
    apply (Hwf v Hv). }
  pose proof (overlap_scan_correct _ Hwf') as Hscan.
  destruct (overlap_scan (np_sort (map fst (map interval_of phases)))
              (np_sort (map snd (map interval_of phases)))) eqn:E.
  - split; [reflexivity|]. intro Hno. exfalso. apply Hno, Hscan. reflexivity.
  - split; [|reflexivity]. intro Hov. apply Hscan in Hov. discriminate.
Qed.

Lemma units_valid_check (kw : SimParam_kwargs) :
  units_valid kw ->
  match kw_units kw with
  | Some u => check_lim SimParam_class "units" (VStr u)
  | None => Ok tt
  end = Ok tt.
Proof.
  unfold units_valid. destruct (kw_units kw) as [u|]; [|reflexivity].
  simpl. intros [<-|[<-|[<-|[<-|[<-|[<-|[<-|[]]]]]]]]; reflexivity.
Qed.

(** C1, as stated, fails: a phase-map constructor call on overlapping
    phases that returns. *)
Lemma phasemap_init_accepts_overlap :
  has_overlap (map interval_of [("a"%string, 0, 5); ("b"%string, 3, 8)]) /\
  PhaseMap_init (PhasesTuple [("a"%string, 0, 5); ("b"%string, 3, 8)]) [] 1
  = Ok {| phases := [("a"%string, (0, 5)); ("b"%string, (3, 8))];
          modephases := []; dt := 1 |} /\
  PhaseMap_init (PhasesDict [("a"%string, (0, 5)); ("b"%string, (3, 8))]) [] 1
  = Ok {| phases := [("a"%string, (0, 5)); ("b"%string, (3, 8))];
          modephases := []; dt := 1 |}.
Proof.
  split; [|split; reflexivity].
  exists 0%nat, 1%nat, (0, 5), (3, 8). unfold intervals_overlap. simpl.
  repeat split; try lia; try reflexivity; discriminate.
Qed.

(** With the default switches [SimParam_init_with] is [SimParam_init]. *)
Lemma SimParam_init_with_default (kw : SimParam_kwargs) :
  SimParam_init_with default_flags kw = SimParam_init kw.
Proof. reflexivity. Qed.

(** C1 (amended).  Constructing a [SimParam] from keyword arguments whose
    [phases] have distinct names, [start <= end] and bounds that are
    floats (or whole numbers that a float holds) raises an error when
    two of the intervals share a point: the overlap exception, when
    [units] is valid or [check_lim=False] is passed and the other
    switches are left as they are.  It succeeds with those phases when
    no two intervals share a point, under the same condition on [units]
    and the switches.  The constructor of [PhaseMap] checks nothing and
    always returns a map. *)
Theorem simparam_init_rejects_overlap :
  forall (phases : list phase_spec) (kw : SimParam_kwargs)
         (flags : init_flags)
         (ph : phases_arg) (mph : dict (list string)) (d : Q),
    NoDup (phase_names phases) ->
    Forall (fun v => snd (fst v) <= snd v) phases ->
    Forall (fun v => binary64 (snd (fst v)) /\ binary64 (snd v)) phases ->
    kw_phases kw = Some phases ->
    (has_overlap (map interval_of phases) ->
     is_ok (SimParam_init_with flags kw) = false /\
     (flags = default_flags /\ units_valid kw \/ flags = no_check_lim ->
      SimParam_init_with flags kw = Raise (Exception GlobalPhasesOverlap))) /\
    (~ has_overlap (map interval_of phases) ->
     flags = default_flags /\ units_valid kw \/ flags = no_check_lim ->
     exists sp, SimParam_init_with flags kw = Ok sp /\ sp_phases sp = phases) /\
    (exists pm, PhaseMap_init ph mph d = Ok pm).
Proof.
  intros phases kw flags ph mph d Hnd Hwf _ Hkw.
  destruct (find_any_phase_overlap_correct phases Hnd Hwf) as [Hov Hno].
  assert (Hphases :
            (match kw_times kw, kw_phases kw with
             | Some times, None =>
                 t_end <- item_last times ;;
                 Ok (Some [("na"%string, 0, t_end)])
             | _, p => Ok p
             end) = Ok (Some phases)).
  { rewrite Hkw. destruct (kw_times kw); reflexivity. }
  assert (Hunits :
            flags = default_flags /\ units_valid kw \/ flags = no_check_lim ->
            (if check_lim_flag flags then
               match kw_units kw with
               | Some u => check_lim SimParam_class "units" (VStr u)
               | None => Ok tt
               end
             else Ok tt) = Ok tt).
  { intros [[-> Hu]| ->]; [apply units_valid_check, Hu | reflexivity]. }
  unfold SimParam_init_with. rewrite Hphases. cbn [bind or_default].
  split; [|split].
  - intro H. specialize (Hov H). split.
    + destruct (if check_lim_flag flags then
                  match kw_units kw with
                  | Some u => check_lim SimParam_class "units" (VStr u)
                  | None => Ok tt
                  end
                else Ok tt); [|reflexivity].
      cbn [sp_phases]. rewrite Hov. reflexivity.
    + intro Hu. rewrite (Hunits Hu).
      cbn [sp_phases]. rewrite Hov. reflexivity.
  - intros H Hu. specialize (Hno H). rewrite (Hunits Hu).
    cbn [sp_phases]. rewrite Hno. cbn [bind]. eexists. split; reflexivity.
  - unfold PhaseMap_init. eexists. reflexivity.
Qed.

Lemma simparam_init_rejects_overlap_witness :
  SimParam_init_with no_check_lim
    (mkSimParamKwargs (Some [("a"%string, 0, 5); ("b"%string, 5, 8)])
       None None (Some "minutes"%string) None None)
  = Raise (Exception GlobalPhasesOverlap).
Proof.
  assert (NoDup (phase_names [("a"%string, 0, 5); ("b"%string, 5, 8)]))
    as Hnd by (repeat constructor; simpl; intuition discriminate).
  assert (Forall (fun v : phase_spec => snd (fst v) <= snd v)
            [("a"%string, 0, 5); ("b"%string, 5, 8)])
    as Hwf by (repeat constructor; simpl; discriminate).
  assert (Forall (fun v : phase_spec =>
                    binary64 (snd (fst v)) /\ binary64 (snd v))
            [("a"%string, 0, 5); ("b"%string, 5, 8)]) as Hb.
  { each ltac:(split; float). }
  destruct (simparam_init_rejects_overlap
              [("a"%string, 0, 5); ("b"%string, 5, 8)]
              (mkSimParamKwargs (Some [("a"%string, 0, 5); ("b"%string, 5, 8)])
                 None None (Some "minutes"%string) None None)
              no_check_lim
              (PhasesDict []) [] 1 Hnd Hwf Hb eq_refl) as [H _].
  destruct H as [_ H].
  - exists 0%nat, 1%nat, (0, 5), (5, 8). unfold intervals_overlap. simpl.
    repeat split; try lia; try reflexivity; discriminate.
  - apply H. right. reflexivity.
Defined.

(** ** Parameter: limits are checked by the constructor *)

Lemma check_lim_outside_limits (cls : param_class) (k : string) (v : value) :
  outside_limits cls k v ->
  check_lim cls k v = Raise (Exception OutsideLimits).
Proof.
  intros (lo & hi & q & Hl & -> & Hq). unfold check_lim. rewrite Hl.
  cbn [fst snd value_le bind].
  destruct (Qle_bool lo q) eqn:E1; cbn [bind].
  - destruct (Qle_bool q hi) eqn:E2; [|reflexivity].
    apply Qle_bool_iff in E1, E2. lra.
  - reflexivity.
Qed.

Lemma check_lim_outside_set (cls : param_class) (k : string) (v : value) :
  outside_set cls k v -> is_ok (check_lim cls k v) = false.
Proof.
  intros (s & Hs & Hne & Hm). unfold check_lim.
  match goal with |- context [bind ?r _] => destruct r as [[]|] end;
    [|reflexivity].
  cbn [bind]. rewrite Hs. destruct s as [|x s]; [contradiction|].
  rewrite Hm. reflexivity.
Qed.

Lemma check_lim_loop_fails (cls : param_class) (args : list value)
  (kwargs : dict value) (ks : list string) :
  forall i0 j k v,
    nth_error ks j = Some k ->
    supplied args kwargs (i0 + j) k = Some v ->
    is_ok (check_lim cls k v) = false ->
    is_ok (check_lim_loop cls args kwargs i0 ks) = false.
Proof.
  induction ks as [|k0 ks IH]; intros i0 j k v Hj Hs Hc.
  - destruct j; discriminate.
  - cbn [check_lim_loop]. destruct j as [|j]; simpl in Hj.
    + injection Hj as ->. rewrite Nat.add_0_r in Hs. rewrite Hs.
      destruct (check_lim cls k v); [discriminate | reflexivity].
    + destruct (match supplied args kwargs i0 k0 with
                | Some v0 => check_lim cls k0 v0
                | None => Ok tt
                end) as [[]|]; [|reflexivity].
      cbn [bind]. apply (IH (S i0) j k v Hj); [|exact Hc].
      rewrite <- Hs. f_equal. lia.
Qed.









(** * Further properties *)

(** ** Timer: counting down and counting up *)

Lemma grid_nonneg_Z (n : nat) : 0 <= inject_Z (Z.of_nat n).
Proof. change 0 with (inject_Z 0). rewrite <- Zle_Qle. lia. Qed.

Module TimerRuns.
Import Timer TimerFacts.

Lemma inc_positive (s : t) (arg : option Q) :
  0 < stepped_time s arg ->
  time (inc s arg) = stepped_time s arg /\ mode (inc s arg) = ticking /\
  0 <= time s.
Proof.
  unfold inc, stepped_time.
  destruct (Qle_bool 0 (time s)) eqn:E0; cbn [time tstep mode]; intro H.
  - apply Qle_bool_false in H. rewrite H. cbn [time mode].
    apply Qle_bool_iff in E0. auto.
  - apply Qle_bool_false in E0. lra.
Qed.

Lemma inc_nonpositive (s : t) (arg : option Q) :
  stepped_time s arg <= 0 ->
  time (inc s arg) = 0 /\ mode (inc s arg) = complete.
Proof.
  intro H. destruct (inc_cases s arg) as [(_ & E & M)|(Hpos & _)]; [auto|lra].
Qed.

Lemma inc_times_S (s : t) (n : nat) :
  inc_times s (S n) = inc_times (inc s None) n.
Proof. reflexivity. Qed.

Lemma inject_S (n : nat) :
  inject_Z (Z.of_nat (S n)) == inject_Z (Z.of_nat n) + 1.
Proof.
  rewrite Nat2Z.inj_succ. unfold Z.succ. rewrite inject_Z_plus. reflexivity.
Qed.

Lemma countdown_steps :
  forall (n : nat) (s : t) (d : Q),
    tstep s == - d -> 0 <= d -> (1 <= n)%nat ->
    tstep (inc_times s n) = tstep s /\
    (0 < time s - inject_Z (Z.of_nat n) * d ->
     time (inc_times s n) == time s - inject_Z (Z.of_nat n) * d /\
     mode (inc_times s n) = ticking) /\
    (time s - inject_Z (Z.of_nat n) * d <= 0 ->
     time (inc_times s n) = 0 /\ mode (inc_times s n) = complete).
Proof.
  induction n as [|n IH]; intros s d Hs Hd Hn; [lia|].
  rewrite inc_times_S. destruct n as [|n].
  - change (inc_times (inc s None) 0) with (inc s None).
    change (inject_Z (Z.of_nat 1)) with 1.
    assert (Hst : 0 <= time s -> stepped_time s None == time s - d).
    { intro H. unfold stepped_time.
      assert (Qle_bool 0 (time s) = true) as -> by (apply Qle_bool_iff, H).
      lra. }
    split; [apply inc_tstep|]. split; intro H.
    + assert (0 < stepped_time s None) as Hp by (rewrite Hst; lra).
      destruct (inc_positive s None Hp) as (E & M & _).
      split; [rewrite E, Hst; lra | exact M].
    + apply inc_nonpositive. unfold stepped_time.
      destruct (Qle_bool 0 (time s)) eqn:E0.
      * lra.
      * apply Qle_bool_false in E0. lra.
  - assert (tstep (inc s None) == - d) as Hs1 by (rewrite inc_tstep; exact Hs).
    destruct (IH (inc s None) d Hs1 Hd ltac:(lia)) as (IH1 & IH2 & IH3).
    pose proof (inject_S (S n)) as HS.
    pose proof (grid_nonneg_Z (S n)) as Hn0.
    split; [rewrite IH1; apply inc_tstep|].
    unfold stepped_time in *.
    destruct (inc_cases s None) as [(Hle & E & M)|(Hpos & E)].
    + unfold stepped_time in Hle. split; intro H.
      * exfalso. destruct (Qle_bool 0 (time s)) eqn:E0.
        -- assert (inject_Z (Z.of_nat (S n)) * d >= 0)
             by (apply Qmult_le_0_compat; assumption).
           rewrite HS in H. lra.
        -- apply Qle_bool_false in E0.
           assert (inject_Z (Z.of_nat (S (S n))) * d >= 0).
           { apply Qmult_le_0_compat; [|assumption]. rewrite HS. lra. }
           lra.
      * apply IH3. rewrite E.
        assert (inject_Z (Z.of_nat (S n)) * d >= 0)
          by (apply Qmult_le_0_compat; assumption).
        lra.
    + destruct (inc_positive s None Hpos) as (_ & _ & H0).
      unfold stepped_time in E, Hpos.
      assert (Qle_bool 0 (time s) = true) as E0 by (apply Qle_bool_iff, H0).
      rewrite E0 in E, Hpos.
      assert (time (inc s None) == time s - d) as E' by (rewrite E; lra).
      split; intro H.
      * destruct IH2 as [I1 I2]; [rewrite E'; rewrite HS in H; lra|].
        split; [rewrite I1, E', HS; lra | exact I2].
      * apply IH3. rewrite E'. rewrite HS in H. lra.
Qed.

(** X1.  A timer whose step is [-d] with [d >= 0] counts down: after
    [n >= 1] calls of [inc()] its time is the initial time minus [n * d]
    and its mode [ticking] as long as that difference is positive, and
    from the first call at which the difference is zero or negative the
    time is [0.0] and the mode [complete], whatever the number of further
    calls.  The step itself is never changed by [inc].  The time and the
    step are on one grid, so that no subtraction rounds. *)
Theorem countdown_reaches_complete :
  forall (n : nat) (s : t) (d : Q) (j : nat),
    on_grid j (time s) -> on_grid j d ->
    tstep s == - d -> 0 <= d -> (1 <= n)%nat ->
    tstep (inc_times s n) = tstep s /\
    (0 < time s - inject_Z (Z.of_nat n) * d ->
     time (inc_times s n) == time s - inject_Z (Z.of_nat n) * d /\
     mode (inc_times s n) = ticking) /\
    (time s - inject_Z (Z.of_nat n) * d <= 0 ->
     time (inc_times s n) = 0 /\ mode (inc_times s n) = complete).
Proof. intros n s d j _ _. apply countdown_steps. Qed.

Lemma countdown_reaches_complete_witness :
  time (inc_times (set_timer init (3 # 2) (- (1 # 2)) always) 3) = 0 /\
  mode (inc_times (set_timer init (3 # 2) (- (1 # 2)) always) 3) = complete.
Proof.
  destruct (countdown_reaches_complete 3
              (set_timer init (3 # 2) (- (1 # 2)) always) (1 # 2) 1)
    as (_ & _ & H).
  - grid.
  - grid.
  - reflexivity.
  - discriminate.
  - lia.
  - apply H. vm_compute. discriminate.
Defined.

(** X2.  A timer whose step is positive and whose time is not negative
    counts up: after [n >= 1] calls of [inc()] its time is the initial
    time plus [n] steps and its mode is [ticking]; it never becomes
    [complete]. *)
Theorem countup_never_completes :
  forall (n : nat) (s : t),
    0 < tstep s -> 0 <= time s -> (1 <= n)%nat ->
    time (inc_times s n) == time s + inject_Z (Z.of_nat n) * tstep s /\
    mode (inc_times s n) = ticking /\
    mode (inc_times s n) <> complete.
Proof.
  induction n as [|n IH]; intros s Hs Ht Hn; [lia|].
  rewrite inc_times_S.
  assert (Hst : stepped_time s None == time s + tstep s).
  { unfold stepped_time.
    assert (Qle_bool 0 (time s) = true) as -> by (apply Qle_bool_iff, Ht).
    reflexivity. }
  assert (0 < stepped_time s None) as Hp by (rewrite Hst; lra).
  destruct (inc_positive s None Hp) as (E & M & _).
  destruct n as [|n].
  - change (inc_times (inc s None) 0) with (inc s None).
    change (inject_Z (Z.of_nat 1)) with 1.
    split; [rewrite E, Hst; lra|]. split; [exact M|]. rewrite M. discriminate.
  - destruct (IH (inc s None)) as (I1 & I2 & I3).
    + rewrite inc_tstep. exact Hs.
    + rewrite E. lra.
    + lia.
    + split; [|split; assumption].
      rewrite I1, inc_tstep, E, Hst, (inject_S (S n)). lra.
Qed.

Lemma countup_never_completes_witness :
  mode (inc_times (set_timer init 0 (1 # 2) always) 4) = ticking.
Proof.
  apply (countup_never_completes 4 (set_timer init 0 (1 # 2) always)).
  - reflexivity.
  - discriminate.
  - lia.
Defined.

(** X3.  [set_timer] always replaces the step and sets mode [set], also
    when the time is left as it was; the time it leaves is the given one
    for [always], the larger of old and new for [if_more], the smaller
    for [if_less], their sum for [increment], the old one for [never]
    unless the old time is zero, and the old one for any other word. *)
Theorem set_timer_overwrite_policy :
  forall (s : t) (tm ts : Q) (ow : overwrite_mode),
    tstep (set_timer s tm ts ow) = ts /\
    mode (set_timer s tm ts ow) = set_ /\
    time (set_timer s tm ts always) = tm /\
    (time s <= time (set_timer s tm ts if_more) /\
     tm <= time (set_timer s tm ts if_more) /\
     (time (set_timer s tm ts if_more) = time s \/
      time (set_timer s tm ts if_more) = tm)) /\
    (time (set_timer s tm ts if_less) <= time s /\
     time (set_timer s tm ts if_less) <= tm /\
     (time (set_timer s tm ts if_less) = time s \/
      time (set_timer s tm ts if_less) = tm)) /\
    (time s == 0 -> time (set_timer s tm ts never) = tm) /\
    (~ time s == 0 -> time (set_timer s tm ts never) = time s) /\
    time (set_timer s tm ts increment) = time s + tm /\
    time (set_timer s tm ts other) = time s.
Proof.
  intros s tm ts ow. unfold set_timer. cbn [time tstep mode].
  split; [reflexivity|]. split; [reflexivity|]. split; [reflexivity|].
  split.
  { destruct (Qlt_le_dec (time s) tm); repeat split; auto; lra. }
  split.
  { destruct (Qlt_le_dec tm (time s)); repeat split; auto; lra. }
  split.
  { intro H. apply Qeq_bool_iff in H. rewrite H. reflexivity. }
  split.
  { intro H. apply Qeq_bool_false in H. rewrite H. reflexivity. }
  split; reflexivity.
Qed.

Lemma set_timer_overwrite_policy_witness :
  time (set_timer (set_timer init 5 (-1) always) 9 (-1) never) = 5.
Proof.
  destruct (set_timer_overwrite_policy (set_timer init 5 (-1) always)
              9 (-1) never) as (_ & _ & _ & _ & _ & _ & H & _).
  apply H. vm_compute. discriminate.
Defined.

End TimerRuns.

(** ** PhaseMap: modephases and base phases *)

(** X4.  [find_modephase] returns the first mode, in declaration order,
    whose set holds the phase, and raises the exception "phase not in
    modephases", and no other, exactly when no mode holds it. *)
Theorem find_modephase_first_group :
  forall (pm : PhaseMap) (phase m : string) (e : exn),
    (find_modephase pm phase = Ok m <->
     exists pre phs post,
       modephases pm = pre ++ (m, phs) :: post /\ In phase phs /\
       Forall (fun en => ~ In phase (snd en)) pre) /\
    (find_modephase pm phase = Raise e <->
     e = Exception PhaseNotInModephases /\
     Forall (fun en => ~ In phase (snd en)) (modephases pm)).
Proof.
  intros pm phase m e. unfold find_modephase.
  split; [apply find_modephase_in_Ok | apply find_modephase_in_Raise].
Qed.

(** X5.  [find_base_phase] is [find_phase] (with [dt = 1.0]) when there
    are no modephases; it can only raise "time not in phases" or "phase
    not in modephases"; and when every declared phase is grouped in some
    modephase it succeeds whenever [find_phase] does. *)
Theorem find_base_phase_errors :
  forall (pm : PhaseMap) (t : Q),
    (dict_truthy (modephases pm) = false ->
     find_base_phase pm t = find_phase pm t find_phase_dt_default) /\
    (forall e, find_base_phase pm t = Raise e ->
       (e = Exception TimeNotInPhases /\
        find_phase pm t find_phase_dt_default = Raise e) \/
       (e = Exception PhaseNotInModephases /\
        exists p, find_phase pm t find_phase_dt_default = Ok p /\
                  find_modephase pm p = Raise e)) /\
    (all_grouped pm ->
     forall p, find_phase pm t find_phase_dt_default = Ok p ->
               exists m, find_base_phase pm t = Ok m).
Proof.
  intros pm t. unfold find_base_phase. split; [|split].
  - intros ->. destruct (find_phase pm t find_phase_dt_default); reflexivity.
  - intros e H.
    destruct (find_phase pm t find_phase_dt_default) as [p|e'] eqn:Ep;
      simpl in H.
    + right. destruct (dict_truthy (modephases pm)); [|discriminate].
      pose proof H as H'. unfold find_modephase in H'.
      apply find_modephase_in_Raise in H'. destruct H' as [-> _].
      split; [reflexivity|]. exists p. auto.
    + left. injection H as <-. unfold find_phase in Ep.
      pose proof Ep as Ep'. apply find_phase_in_Raise in Ep'.
      destruct Ep' as [-> _]. auto.
  - intros Hall p Hp. rewrite Hp. simpl.
    destruct (dict_truthy (modephases pm)); [|eauto].
    destruct (find_modephase pm p) as [m|e] eqn:Em; [eauto|].
    exfalso. unfold find_modephase in Em.
    apply find_modephase_in_Raise in Em. destruct Em as [_ Hnone].
    unfold find_phase in Hp. apply find_phase_in_Ok in Hp.
    destruct Hp as (pre & times & post & E & _).
    destruct (Hall p) as (m & phs & Hin & Hp').
    { unfold dict_keys. rewrite E, map_app. apply in_or_app. right.
      left. reflexivity. }
    rewrite Forall_forall in Hnone. apply (Hnone _ Hin). exact Hp'.
Qed.

Lemma find_base_phase_errors_witness :
  exists m,
    find_base_phase
      {| phases := [("on"%string, (0, 3)); ("off"%string, (4, 5))];
         modephases := [("oper"%string, ["on"; "off"]%string)]; dt := 1 |} 2
    = Ok m.
Proof.
  destruct (find_base_phase_errors
              {| phases := [("on"%string, (0, 3)); ("off"%string, (4, 5))];
                 modephases := [("oper"%string, ["on"; "off"]%string)];
                 dt := 1 |} 2) as (_ & _ & H).
  apply (H ltac:(intros p [<-|[<-|[]]]; exists "oper"%string,
                   ["on"; "off"]%string; simpl; auto) "on"%string).
  reflexivity.
Defined.

(** ** PhaseMap: calc_samples_in_phases, totals and errors *)

Lemma dict_total_set (d : dict nat) (k : string) (n : nat) :
  dict_get d k = Some n ->
  dict_total (dict_set d k (S n)) = S (dict_total d).
Proof.
  unfold dict_total, dict_values.
  induction d as [|[k0 v0] d IH]; simpl; [discriminate|].
  destruct (String.eqb k k0); simpl.
  - intros [= ->]. reflexivity.
  - intro H. rewrite (IH H). lia.
Qed.

Lemma count_samples_total (pm : PhaseMap) (times : list Q) :
  forall d0 d, count_samples pm times d0 = Ok d ->
               dict_total d = (dict_total d0 + List.length times)%nat.
Proof.
  induction times as [|t times IH]; intros d0 d H.
  - injection H as <-. simpl. lia.
  - rewrite count_samples_step in H.
    destruct (find_base_phase pm t) as [p|]; simpl in H; [|discriminate].
    unfold dict_incr, dict_getitem in H.
    destruct (dict_get d0 p) as [m|] eqn:Em; simpl in H; [|discriminate].
    apply IH in H. rewrite H, (dict_total_set _ _ _ Em). simpl. lia.
Qed.

Lemma dict_total_zeros (ks : list string) :
  dict_total (map (fun ph => (ph, 0%nat)) ks) = 0%nat.
Proof.
  unfold dict_total, dict_values. induction ks; simpl; auto.
Qed.

Lemma count_samples_Raise (pm : PhaseMap) (times : list Q) (e : exn) :
  forall d0,
    (forall k, In k (base_keys pm) -> dict_mem d0 k = true) ->
    (count_samples pm times d0 = Raise e <->
     exists pre t post,
       times = pre ++ t :: post /\
       Forall (fun t' => is_ok (find_base_phase pm t') = true) pre /\
       find_base_phase pm t = Raise e).
Proof.
  induction times as [|t times IH]; intros d0 Hd.
  - simpl. split; [discriminate|]. intros (pre & t & post & E & _).
    destruct pre; discriminate.
  - rewrite count_samples_step.
    destruct (find_base_phase pm t) as [p|e'] eqn:Ep; simpl.
    + pose proof (Hd p (find_base_phase_key _ _ _ Ep)) as Hp.
      unfold dict_incr, dict_getitem. unfold dict_mem in Hp.
      destruct (dict_get d0 p) as [m|] eqn:Em; [|discriminate]. simpl.
      rewrite IH.
      * split.
        -- intros (pre & t' & post & E & Hpre & Ht').
           exists (t :: pre), t', post. subst times.
           repeat split; auto. constructor; [rewrite Ep; reflexivity|auto].
        -- intros (pre & t' & post & E & Hpre & Ht').
           destruct pre as [|t0 pre]; simpl in E.
           ++ injection E as <- _. congruence.
           ++ injection E as <- ->. inversion Hpre; subst.
              exists pre, t', post. auto.
      * intros k Hk. unfold dict_mem. rewrite dict_get_set.
        destruct (String.eqb k p); [reflexivity | apply Hd, Hk].
    + split.
      * intros [= <-]. exists [], t, times. auto.
      * intros (pre & t' & post & E & Hpre & Ht').
        destruct pre as [|t0 pre]; simpl in E.
        -- injection E as <- _. congruence.
        -- injection E as <- _. inversion Hpre; subst.
           rewrite Ep in *. discriminate.
Qed.

(** X6.  The counts returned by [calc_samples_in_phases] add up to the
    number of times given: every time is counted once. *)
Theorem calc_samples_in_phases_total :
  forall (pm : PhaseMap) (times : list Q) (d : dict nat),
    calc_samples_in_phases pm times = Ok d ->
    dict_total d = List.length times.
Proof.
  intros pm times d H. rewrite calc_samples_init in H.
  apply count_samples_total in H. rewrite H, dict_total_zeros. reflexivity.
Qed.

Lemma calc_samples_in_phases_total_witness :
  dict_total [("on"%string, 3%nat); ("off"%string, 2%nat)]
  = List.length [1; 2; 3; 4; 5].
Proof.
  apply (calc_samples_in_phases_total
           {| phases := [("on"%string, (0, 3)); ("off"%string, (4, 5))];
              modephases := []; dt := 1 |} [1; 2; 3; 4; 5]).
  reflexivity.
Defined.

(** X7.  [calc_samples_in_phases] raises exactly when one of the times
    has no phase (or its phase no modephase), and then with the exception
    of the first such time; no count is returned for the times before
    it. *)
Theorem calc_samples_in_phases_first_error :
  forall (pm : PhaseMap) (times : list Q) (e : exn),
    calc_samples_in_phases pm times = Raise e <->
    exists pre t post,
      times = pre ++ t :: post /\
      Forall (fun t' => is_ok (find_base_phase pm t') = true) pre /\
      find_base_phase pm t = Raise e.
Proof.
  intros pm times e. rewrite calc_samples_init.
  apply count_samples_Raise. intros k Hk. unfold dict_mem.
  rewrite dict_get_zeros. apply str_mem_In in Hk. rewrite Hk. reflexivity.
Qed.

(** ** PhaseMap: instants, durations and errors of get_phase_times *)

Lemma dict_get_split {V : Type} (d : dict V) (k : string) (v : V) :
  dict_get d k = Some v ->
  exists pre post, d = pre ++ (k, v) :: post /\ ~ In k (dict_keys pre).
Proof.
  induction d as [|[k0 v0] d IH]; simpl; [discriminate|].
  destruct (String.eqb k k0) eqn:E.
  - apply String.eqb_eq in E. subst k0. intros [= ->].
    exists [], d. split; [reflexivity | intros []].
  - apply String.eqb_neq in E. intro H.
    destruct (IH H) as (pre & post & -> & Hn).
    exists ((k0, v0) :: pre), post. split; [reflexivity|].
    simpl. intros [H1|H1]; [congruence | contradiction].
Qed.

(** X8.  When the phases are apart from each other even when extended by
    [dq] at their ends, and [dq] is at least the timestep of the map,
    every instant that [get_phase_times] gives for a phase is classified
    back into that phase by [find_phase(x, dq)].  The bounds, the
    timestep and [dq] are on one grid, so that the instants and the
    extended ends are computed without rounding. *)
Theorem phase_instants_classified_back :
  forall (pm : PhaseMap) (name : string) (i : interval) (dq x : Q)
         (l : list Q) (j : nat),
    on_grid j (dt pm) -> on_grid j dq -> bounds_on_grid j (phases pm) ->
    0 < dt pm -> dt pm <= dq ->
    separated dq (phases pm) ->
    dict_get (modephases pm) name = None ->
    dict_get (phases pm) name = Some i ->
    get_phase_times pm name = Ok l ->
    memQ x l = true ->
    find_phase pm x dq = Ok name.
Proof.
  intros pm name i dq x l j _ _ _ Hd Hdq Hsep Hm Hp Hl Hx.
  rewrite (get_phase_times_phase pm name i Hd Hm Hp) in Hl.
  injection Hl as <-. apply memQ_phase_instants in Hx; [|exact Hd].
  destruct Hx as (k & Hk & Hlt). pose proof (grid_nonneg (dt pm) k Hd) as Hk0.
  destruct (dict_get_split _ _ _ Hp) as (pre & post & E & Hn).
  unfold find_phase. apply find_phase_in_Ok.
  exists pre, i, post. split; [exact E|]. split.
  - apply in_phase_iff. lra.
  - apply Forall_forall. intros e He. apply in_phase_false.
    unfold separated in Hsep.
    assert (In e (phases pm)) as He1
        by (rewrite E; apply in_or_app; left; exact He).
    assert (In (name, i) (phases pm)) as He2 by (rewrite E; apply in_elt).
    destruct (ForallOrdPairs_In Hsep e (name, i) He1 He2) as [Heq|[H|H]].
    + exfalso. apply Hn. unfold dict_keys.
      change name with (fst (name, i)). rewrite <- Heq. apply in_map, He.
    + destruct e as [n [a b]]. simpl in *. destruct H; [right|left]; lra.
    + destruct e as [n [a b]]. simpl in *. destruct H; [left|right]; lra.
Qed.

Lemma phase_instants_classified_back_witness :
  find_phase
    {| phases := [("a"%string, (0, 2)); ("b"%string, (3, 5))];
       modephases := []; dt := 1 # 2 |} (3 # 2) find_phase_dt_default
  = Ok "a"%string.
Proof.
  apply (phase_instants_classified_back
           {| phases := [("a"%string, (0, 2)); ("b"%string, (3, 5))];
              modephases := []; dt := 1 # 2 |} "a" (0, 2)
           find_phase_dt_default (3 # 2)
           (phase_instants (0, 2) (1 # 2)) 1).
  - grid.
  - grid.
  - each ltac:(split; grid).
  - reflexivity.
  - discriminate.
  - unfold separated. repeat constructor. vm_compute. discriminate.
  - reflexivity.
  - reflexivity.
  - reflexivity.
  - reflexivity.
Defined.

Lemma length_phase_instants (i : interval) (d : Q) :
  List.length (phase_instants i d) =
  Z.to_nat (Qceiling ((snd i + d - fst i) / d)).
Proof.
  unfold phase_instants, arange_items. rewrite length_map, length_seq.
  reflexivity.
Qed.

(** X9.  For a phase with [start <= end] and a positive timestep, the
    number of instants of [get_phase_times] times [dt] is at least the
    duration [calc_phase_time] and exceeds it by less than [dt]; when
    [end = start + m * dt] there are [m + 1] instants and the product is
    the duration.  The bounds and the timestep are on one grid, so that
    the instants and the duration are computed without rounding. *)
Theorem phase_instants_count_duration :
  forall (pm : PhaseMap) (name : string) (i : interval) (j : nat),
    on_grid j (dt pm) -> bounds_on_grid j (phases pm) ->
    0 < dt pm -> fst i <= snd i ->
    dict_get (modephases pm) name = None ->
    dict_get (phases pm) name = Some i ->
    exists l T,
      get_phase_times pm name = Ok l /\
      calc_phase_time pm name = Ok T /\
      (1 <= List.length l)%nat /\
      T <= inject_Z (Z.of_nat (List.length l)) * dt pm /\
      inject_Z (Z.of_nat (List.length l)) * dt pm < T + dt pm /\
      forall m : nat,
        snd i == fst i + inject_Z (Z.of_nat m) * dt pm ->
        List.length l = S m /\
        inject_Z (Z.of_nat (List.length l)) * dt pm == T.
Proof.
  intros pm name i j _ _ Hd Hi Hm Hp.
  exists (phase_instants i (dt pm)), (snd i - fst i + dt pm).
  split; [apply get_phase_times_phase; assumption|].
  split; [unfold calc_phase_time, dict_getitem; rewrite Hp; reflexivity|].
  rewrite length_phase_instants.
  set (n := Z.to_nat (Qceiling ((snd i + dt pm - fst i) / dt pm))).
  pose proof (arange_count (fst i) (snd i + dt pm) (dt pm)) as Hc.
  fold n in Hc.
  assert (1 <= n)%nat as Hn1.
  { apply (Hc 0%nat Hd). change (inject_Z (Z.of_nat 0)) with 0. lra. }
  assert (snd i + dt pm <= fst i + inject_Z (Z.of_nat n) * dt pm) as Hup.
  { apply Qnot_lt_le. intro H. apply (Hc n Hd) in H. lia. }
  assert (fst i + inject_Z (Z.of_nat (n - 1)) * dt pm < snd i + dt pm) as Hlo.
  { apply (Hc (n - 1)%nat Hd). lia. }
  assert (inject_Z (Z.of_nat n) == inject_Z (Z.of_nat (n - 1)) + 1) as Hn.
  { replace n with (S (n - 1)) at 1 by lia. rewrite Nat2Z.inj_succ.
    unfold Z.succ. rewrite inject_Z_plus. reflexivity. }
  split; [exact Hn1|]. split; [lra|]. split; [rewrite Hn; lra|].
  intros m Hm'.
  assert (n = S m) as Hnm.
  { destruct (Nat.lt_trichotomy n (S m)) as [H|[H|H]]; [|exact H|].
    - exfalso. assert (n <= m)%nat as Hle by lia.
      assert (inject_Z (Z.of_nat n) <= inject_Z (Z.of_nat m)) as Hq
          by (rewrite <- Zle_Qle; lia).
      apply (Qmult_le_compat_r _ _ (dt pm)) in Hq; lra.
    - exfalso. assert (S m < n)%nat as Hlt by lia.
      apply (Hc (S m) Hd) in Hlt. rewrite Nat2Z.inj_succ in Hlt.
      unfold Z.succ in Hlt. rewrite inject_Z_plus in Hlt.
      change (inject_Z 1) with 1 in Hlt. lra. }
  split; [exact Hnm|]. rewrite Hnm, Nat2Z.inj_succ. unfold Z.succ.
  rewrite inject_Z_plus. change (inject_Z 1) with 1. lra.
Qed.

Lemma phase_instants_count_duration_witness :
  exists l T,
    get_phase_times
      {| phases := [("a"%string, (0, 9 # 2))]; modephases := []; dt := 1 |}
      "a" = Ok l /\
    calc_phase_time
      {| phases := [("a"%string, (0, 9 # 2))]; modephases := []; dt := 1 |}
      "a" = Ok T /\
    T <= inject_Z (Z.of_nat (List.length l)) * 1.
Proof.
  destruct (phase_instants_count_duration
              {| phases := [("a"%string, (0, 9 # 2))]; modephases := [];
                 dt := 1 |} "a" (0, 9 # 2) 1)
    as (l & T & H1 & H2 & _ & H3 & _).
  - grid.
  - each ltac:(split; grid).
  - reflexivity.
  - simpl. discriminate.
  - reflexivity.
  - reflexivity.
  - exists l, T. auto.
Defined.

Lemma mapM_first_error {A B : Type} (f : A -> result B) (l : list A)
  (e : exn) :
  mapM f l = Raise e <->
  exists pre a post,
    l = pre ++ a :: post /\ Forall (fun x => is_ok (f x) = true) pre /\
    f a = Raise e.
Proof.
  induction l as [|a l IH]; simpl.
  - split; [discriminate|]. intros (pre & a & post & E & _).
    destruct pre; discriminate.
  - destruct (f a) as [b|e'] eqn:Ea; simpl.
    + split.
      * destruct (mapM f l) as [bs|e''] eqn:El; simpl; [discriminate|].
        intros [= ->]. destruct (proj1 IH eq_refl) as (pre & a' & post & E & Hp & Ha).
        exists (a :: pre), a', post. subst l. repeat split; auto.
        constructor; [rewrite Ea; reflexivity | exact Hp].
      * intros (pre & a' & post & E & Hp & Ha).
        destruct pre as [|a0 pre]; simpl in E.
        -- injection E as <- _. congruence.
        -- injection E as <- ->. inversion Hp; subst.
           assert (mapM f (pre ++ a' :: post) = Raise e) as ->.
           { apply IH. exists pre, a', post. auto. }
           reflexivity.
    + split.
      * intros [= <-]. exists [], a, l. auto.
      * intros (pre & a' & post & E & Hp & Ha).
        destruct pre as [|a0 pre]; simpl in E.
        -- injection E as <- _. congruence.
        -- injection E as <- _. inversion Hp; subst.
           rewrite Ea in *. discriminate.
Qed.

(** X10.  [get_phase_times] fails on a name that is neither a modephase
    nor a phase (the local [intervals] is unbound), on a modephase that
    lists a phase missing from [phases] (a [KeyError] for the first such
    phase) and on a modephase with no phases ([np.concatenate] of
    nothing). *)
Theorem get_phase_times_failures :
  forall (pm : PhaseMap) (name : string) (pre post : list string)
         (ph : string),
    (dict_get (modephases pm) name = None ->
     dict_get (phases pm) name = None ->
     get_phase_times pm name = Raise UnboundLocalError) /\
    (dict_get (modephases pm) name = Some [] ->
     get_phase_times pm name = Raise ValueError) /\
    (dict_get (modephases pm) name = Some (pre ++ ph :: post) ->
     Forall (fun p => In p (dict_keys (phases pm))) pre ->
     ~ In ph (dict_keys (phases pm)) ->
     get_phase_times pm name = Raise (KeyError ph)).
Proof.
  intros pm name pre post ph. unfold get_phase_times. split; [|split].
  - intros -> ->. reflexivity.
  - intros ->. reflexivity.
  - intros -> Hpre Hph.
    assert (mapM (dict_getitem (phases pm)) (pre ++ ph :: post)
            = Raise (KeyError ph)) as ->.
    { apply mapM_first_error. exists pre, ph, post.
      split; [reflexivity|]. split.
      - eapply Forall_impl; [|exact Hpre]. intros p Hp. simpl in Hp.
        unfold dict_getitem.
        destruct (dict_get (phases pm) p) eqn:E; [reflexivity|].
        apply dict_get_None in E. contradiction.
      - unfold dict_getitem. apply dict_get_None in Hph. rewrite Hph.
        reflexivity. }
    reflexivity.
Qed.

Lemma get_phase_times_failures_witness :
  get_phase_times
    {| phases := [("on1"%string, (0, 1))];
       modephases := [("on"%string, ["on1"; "on2"]%string)]; dt := 1 |} "on"
  = Raise (KeyError "on2").
Proof.
  destruct (get_phase_times_failures
              {| phases := [("on1"%string, (0, 1))];
                 modephases := [("on"%string, ["on1"; "on2"]%string)];
                 dt := 1 |} "on" ["on1"%string] [] "on2") as (_ & _ & H).
  apply H.
  - reflexivity.
  - constructor; [left; reflexivity | constructor].
  - simpl. intros [H1|[]]. discriminate.
Defined.

(** ** PhaseMap: the keys and the errors of get_sample_times *)

Lemma dict_keys_set_In {V : Type} (d : dict V) (k : string) (v : V) (x : string) :
  In x (dict_keys (dict_set d k v)) <-> x = k \/ In x (dict_keys d).
Proof.
  unfold dict_keys. induction d as [|[k0 v0] d IH]; simpl.
  - intuition congruence.
  - destruct (String.eqb k k0) eqn:E; simpl.
    + apply String.eqb_eq in E. subst k0. intuition congruence.
    + rewrite IH. tauto.
Qed.

Lemma dict_keys_set_NoDup {V : Type} (d : dict V) (k : string) (v : V) :
  NoDup (dict_keys d) -> NoDup (dict_keys (dict_set d k v)).
Proof.
  induction d as [|[k0 v0] d IH]; simpl; intro H.
  - repeat constructor. intros [].
  - destruct (String.eqb k k0) eqn:E; simpl; [exact H|].
    inversion H as [|? ? Hn Hd]; subst. constructor; [|apply IH, Hd].
    intro Hin. apply (dict_keys_set_In d k v k0) in Hin.
    destruct Hin as [->|Hin]; [|contradiction].
    rewrite String.eqb_refl in E. discriminate.
Qed.

Lemma sample_loop_keys (pm : PhaseMap) (names : list string) :
  forall d0 d, sample_loop pm names d0 = Ok d ->
    (NoDup (dict_keys d0) -> NoDup (dict_keys d)) /\
    (forall x, In x (dict_keys d) <-> In x names \/ In x (dict_keys d0)).
Proof.
  induction names as [|n names IH]; intros d0 d H; simpl in H.
  - injection H as <-. split; [auto|]. intro x. simpl. tauto.
  - destruct (get_phase_times pm n) as [l|]; simpl in H; [|discriminate].
    apply IH in H. destruct H as [H1 H2]. split.
    + intro Hnd. apply H1, dict_keys_set_NoDup, Hnd.
    + intro x. rewrite H2, dict_keys_set_In. simpl. split.
      * intros [H|[H|H]]; auto.
      * intros [[H|H]|H]; auto.
Qed.

Lemma sample_loop_Raise (pm : PhaseMap) (names : list string) (e : exn) :
  forall d0,
    sample_loop pm names d0 = Raise e <->
    exists pre n post,
      names = pre ++ n :: post /\
      Forall (fun x => is_ok (get_phase_times pm x) = true) pre /\
      get_phase_times pm n = Raise e.
Proof.
  induction names as [|n names IH]; intros d0; simpl.
  - split; [discriminate|]. intros (pre & n & post & E & _).
    destruct pre; discriminate.
  - destruct (get_phase_times pm n) as [l|e'] eqn:En; simpl.
    + rewrite IH. split.
      * intros (pre & n' & post & E & Hp & Hn).
        exists (n :: pre), n', post. subst names. repeat split; auto.
        constructor; [rewrite En; reflexivity | exact Hp].
      * intros (pre & n' & post & E & Hp & Hn).
        destruct pre as [|n0 pre]; simpl in E.
        -- injection E as <- _. congruence.
        -- injection E as <- ->. inversion Hp; subst.
           exists pre, n', post. auto.
    + split.
      * intros [= <-]. exists [], n, names. auto.
      * intros (pre & n' & post & E & Hp & Hn).
        destruct pre as [|n0 pre]; simpl in E.
        -- injection E as <- _. congruence.
        -- injection E as <- _. inversion Hp; subst.
           rewrite En in *. discriminate.
Qed.

(** X11.  The dict returned by [get_sample_times] for a non-empty list of
    names has exactly the requested names as keys, each once however often
    it was requested; the call raises exactly when [get_phase_times]
    raises for one of the names, with the exception of the first such
    name. *)
Theorem get_sample_times_keys_and_errors :
  forall (pm : PhaseMap) (names : list string),
    names <> [] ->
    (forall d, get_sample_times pm names = Ok d ->
       NoDup (dict_keys d) /\
       forall x, In x (dict_keys d) <-> In x names) /\
    (forall e, get_sample_times pm names = Raise e <->
       exists pre n post,
         names = pre ++ n :: post /\
         Forall (fun x => is_ok (get_phase_times pm x) = true) pre /\
         get_phase_times pm n = Raise e).
Proof.
  intros pm names Hne. destruct names as [|n0 names]; [contradiction|].
  unfold get_sample_times. split.
  - intros d H. apply sample_loop_keys in H. destruct H as [H1 H2]. split.
    + apply H1. constructor.
    + intro x. rewrite H2. simpl. tauto.
  - intro e. apply sample_loop_Raise.
Qed.

Lemma get_sample_times_keys_and_errors_witness :
  get_sample_times
    {| phases := [("a"%string, (0, 2))]; modephases := []; dt := 1 |}
    ["a"; "zz"; "a"]%string
  = Raise UnboundLocalError.
Proof.
  destruct (get_sample_times_keys_and_errors
              {| phases := [("a"%string, (0, 2))]; modephases := []; dt := 1 |}
              ["a"; "zz"; "a"]%string ltac:(discriminate)) as [_ H].
  apply H. exists ["a"%string], "zz"%string, ["a"%string].
  split; [reflexivity|]. split; [|reflexivity].
  repeat constructor.
Defined.

(** ** PhaseMap: calc_scen_exposure_time *)

(** X12.  Without modephases and with the phase names distinct,
    [calc_scen_exposure_time(t)] is [end - start + dt] (with the map's
    [dt]) of the first phase, in declaration order, with
    [start <= t < end + 1.0]; it returns whenever some phase contains
    [t] in this sense and raises "time not in phases" when none does; it
    never raises a [KeyError].  The time is a float, the bounds, the
    timestep and [1.0] are on one grid, so that no sum rounds. *)
Theorem calc_scen_exposure_time_of_phase :
  forall (pm : PhaseMap) (t : Q) (j : nat),
    NoDup (dict_keys (phases pm)) ->
    modephases pm = [] ->
    binary64 t -> on_grid j 1 -> on_grid j (dt pm) ->
    bounds_on_grid j (phases pm) ->
    (forall pre p a b post,
       phases pm = pre ++ (p, (a, b)) :: post ->
       lies_in (a, b) t ->
       Forall (fun e => ~ lies_in (snd e) t) pre ->
       calc_scen_exposure_time pm t = Ok (b - a + dt pm)) /\
    ((exists p iv, In (p, iv) (phases pm) /\ lies_in iv t) ->
     exists T, calc_scen_exposure_time pm t = Ok T) /\
    ((forall p iv, In (p, iv) (phases pm) -> ~ lies_in iv t) ->
     calc_scen_exposure_time pm t = Raise (Exception TimeNotInPhases)) /\
    (forall k, calc_scen_exposure_time pm t <> Raise (KeyError k)).
Proof.
  intros pm t j Hnd Hm _ _ _ _.
  assert (Hfirst : forall pre p a b post,
            phases pm = pre ++ (p, (a, b)) :: post ->
            lies_in (a, b) t ->
            Forall (fun e => ~ lies_in (snd e) t) pre ->
            calc_scen_exposure_time pm t = Ok (b - a + dt pm)).
  { intros pre p a b post E Hl Hpre.
    assert (find_phase pm t find_phase_dt_default = Ok p) as Hp.
    { unfold find_phase. apply find_phase_in_Ok. exists pre, (a, b), post.
      split; [exact E|]. split; [apply in_phase_iff; exact Hl|].
      apply Forall_forall. intros e He. rewrite Forall_forall in Hpre.
      specialize (Hpre e He).
      destruct (in_phase (snd e) t find_phase_dt_default) eqn:Hin;
        [|reflexivity].
      apply in_phase_iff in Hin. contradiction. }
    unfold calc_scen_exposure_time. rewrite Hp, Hm. cbn [bind dict_truthy].
    unfold calc_phase_time, dict_getitem.
    assert (In (p, (a, b)) (phases pm)) as Hin by (rewrite E; apply in_elt).
    rewrite (dict_get_NoDup _ _ _ Hnd Hin). reflexivity. }
  assert (Hnone : (forall p iv, In (p, iv) (phases pm) -> ~ lies_in iv t) ->
                  calc_scen_exposure_time pm t
                  = Raise (Exception TimeNotInPhases)).
  { intro H. unfold calc_scen_exposure_time.
    assert (find_phase pm t find_phase_dt_default
            = Raise (Exception TimeNotInPhases)) as ->; [|reflexivity].
    unfold find_phase. apply find_phase_in_Raise. split; [reflexivity|].
    apply Forall_forall. intros [p iv] Hin. simpl.
    destruct (in_phase iv t find_phase_dt_default) eqn:Hc; [|reflexivity].
    apply in_phase_iff in Hc. exfalso. exact (H p iv Hin Hc). }
  assert (Hcases :
            (exists pre p a b post,
               phases pm = pre ++ (p, (a, b)) :: post /\
               lies_in (a, b) t /\
               Forall (fun e => ~ lies_in (snd e) t) pre) \/
            (forall p iv, In (p, iv) (phases pm) -> ~ lies_in iv t)).
  { destruct (find_phase_in (phases pm) t find_phase_dt_default) as [p|e]
      eqn:E.
    - left. apply find_phase_in_Ok in E.
      destruct E as (pre & [a b] & post & E & Hc & Hpre).
      exists pre, p, a, b, post. split; [exact E|]. split.
      + apply in_phase_iff in Hc. exact Hc.
      + apply Forall_forall. intros e He Hl. rewrite Forall_forall in Hpre.
        specialize (Hpre e He). apply in_phase_iff in Hl.
        unfold find_phase_dt_default in Hpre. congruence.
    - right. apply find_phase_in_Raise in E. destruct E as [_ Hall].
      intros p iv Hin Hl. rewrite Forall_forall in Hall.
      specialize (Hall _ Hin). simpl in Hall. apply in_phase_iff in Hl.
      unfold find_phase_dt_default in Hall. congruence. }
  split; [exact Hfirst|]. split; [|split; [exact Hnone|]].
  - intros (p & iv & Hin & Hl).
    destruct Hcases as [(pre & p' & a & b & post & E & Hl' & Hpre)|Hno].
    + exists (b - a + dt pm). apply (Hfirst pre p' a b post E Hl' Hpre).
    + exfalso. exact (Hno p iv Hin Hl).
  - intros k Hk.
    destruct Hcases as [(pre & p' & a & b & post & E & Hl' & Hpre)|Hno].
    + rewrite (Hfirst pre p' a b post E Hl' Hpre) in Hk. discriminate.
    + rewrite (Hnone Hno) in Hk. discriminate.
Qed.

Lemma calc_scen_exposure_time_of_phase_witness :
  calc_scen_exposure_time
    {| phases := [("on"%string, (0, 3)); ("off"%string, (4, 9))];
       modephases := []; dt := 1 # 2 |} 5 = Ok (9 - 4 + (1 # 2)).
Proof.
  destruct (calc_scen_exposure_time_of_phase
              {| phases := [("on"%string, (0, 3)); ("off"%string, (4, 9))];
                 modephases := []; dt := 1 # 2 |} 5 1) as [H _].
  - repeat constructor; simpl; intuition discriminate.
  - reflexivity.
  - float.
  - grid.
  - grid.
  - each ltac:(split; grid).
  - apply (H [("on"%string, (0, 3))] "off"%string 4 9 []).
    + reflexivity.
    + split; [discriminate | reflexivity].
    + repeat constructor. simpl. intros [_ H1]. vm_compute in H1.
      discriminate.
Defined.

(** ** find_overlap_n: empty intervals, whole-number intervals, order *)

Lemma unit_instants_Raise (i : list Q) (e : exn) :
  unit_instants i = Raise e -> e = IndexError /\ i = [].
Proof.
  destruct i as [|a i]; simpl.
  - intros [= <-]. auto.
  - unfold unit_instants. simpl. discriminate.
Qed.

Lemma mapM_unit_instants_Raise (its : list (list Q)) (e : exn) :
  mapM unit_instants its = Raise e -> e = IndexError.
Proof.
  intro H. apply mapM_first_error in H.
  destruct H as (pre & a & post & _ & _ & Ha).
  apply unit_instants_Raise in Ha. tauto.
Qed.

Lemma possible_times_Raise (iv : interval_arg) (e : exn) :
  possible_times iv = Raise e -> e = IndexError.
Proof.
  unfold possible_times. destruct iv as [[|t ts]|[|i its]];
    cbn [as_intervals bind]; try (intros [= <-]; reflexivity).
  destruct (mapM unit_instants (i :: its)) as [s|e'] eqn:E;
    cbn [bind]; [discriminate|].
  intros [= <-]. eapply mapM_unit_instants_Raise, E.
Qed.

Lemma possible_times_ill_formed (iv : interval_arg) :
  ill_formed iv -> possible_times iv = Raise IndexError.
Proof.
  unfold possible_times. destruct iv as [ts|its]; simpl.
  - intros ->. reflexivity.
  - intros [->|Hex]; [reflexivity|].
    destruct its as [|i its]; [inversion Hex|]. cbn [as_intervals bind].
    assert (mapM unit_instants (i :: its) = Raise IndexError) as ->.
    { apply mapM_first_error. apply Exists_exists in Hex.
      clear - Hex. induction (i :: its) as [|j l IH].
      - destruct Hex as (x & [] & _).
      - destruct j as [|a j].
        + exists [], [], l. repeat split; auto.
        + destruct IH as (pre & b & post & E & Hp & Hb).
          { destruct Hex as (x & [Hx|Hx] & Hx'); [congruence | eauto]. }
          exists ((a :: j) :: pre), b, post. subst l. repeat split; auto. }
    reflexivity.
Qed.

Lemma overlap_loop_IndexError (ivs : list interval_arg) :
  Exists ill_formed ivs ->
  forall i joined sizes,
    overlap_loop ivs i joined sizes = Raise IndexError.
Proof.
  induction ivs as [|iv ivs IH]; intros Hex i joined sizes.
  - inversion Hex.
  - cbn [overlap_loop].
    destruct (possible_times iv) as [s|e] eqn:E; cbn [bind].
    + apply IH. inversion Hex as [? ? Hill|]; subst; [|assumption].
      rewrite (possible_times_ill_formed _ Hill) in E. discriminate.
    + apply possible_times_Raise in E. subst e. reflexivity.
Qed.

(** X13.  When some element of [intervals] is an empty interval, or holds
    one, [find_overlap_n] does not return a pair of times and sizes: its
    [IndexError] handler returns the first element when all elements are
    equal to it, and the number [0] otherwise. *)
Theorem find_overlap_n_empty_interval :
  forall (i0 : interval_arg) (rest : list interval_arg),
    Exists ill_formed (i0 :: rest) ->
    find_overlap_n (i0 :: rest) =
    Ok (if forallb (interval_arg_eqb i0) (i0 :: rest)
        then FirstInterval i0 else Zero).
Proof.
  intros i0 rest Hex. unfold find_overlap_n.
  rewrite (overlap_loop_IndexError _ Hex).
  destruct (forallb (interval_arg_eqb i0) (i0 :: rest)); reflexivity.
Qed.

Lemma find_overlap_n_empty_interval_witness :
  find_overlap_n [Flat [0; 5]; Flat []] = Ok Zero.
Proof.
  apply (find_overlap_n_empty_interval (Flat [0; 5]) [Flat []]).
  right. left. reflexivity.
Defined.

(** The times of [find_overlap_n] on well-formed intervals. *)
Lemma find_overlap_n_members (intervals : list interval_arg) :
  intervals <> [] ->
  Forall well_formed intervals ->
  exists times sizes,
    find_overlap_n intervals = Ok (Joined times sizes) /\
    increasingQ times /\
    forall x, memQ x times = true <->
              Forall (fun iv => eligible iv x) intervals.
Proof.
  intros Hne Hwf. destruct intervals as [|iv ivs]; [contradiction|].
  inversion Hwf as [|? ? Hiv Hivs]; subst.
  destruct (possible_times_spec iv Hiv) as (s & Es & Ds & Ms).
  destruct (overlap_loop_spec ivs Hivs 0 s [List.length s] Ds)
    as (j & sz & E & D & L & M).
  exists (np_sort j), sz. split; [|split].
  - unfold find_overlap_n. cbn [overlap_loop]. rewrite Es. cbn [bind Nat.eqb].
    change ([] ++ [List.length s]) with [List.length s]. rewrite E.
    destruct j; reflexivity.
  - apply increasingQ_np_sort, D.
  - intro x. rewrite memQ_np_sort, M, Ms. split.
    + intros [H1 H2]. constructor; assumption.
    + intro H. inversion H; subst. tauto.
Qed.

Lemma eligible_int_interval (ab : Z * Z) (x : Q) :
  eligible (int_interval ab) x <->
  exists z, x == inject_Z z /\ (fst ab <= z <= snd ab)%Z.
Proof.
  destruct ab as [a b]. unfold int_interval, eligible, unit_grid. simpl.
  split.
  - intros (a' & b' & k & [= <-] & [= <-] & E & Hlt).
    exists (a + Z.of_nat k)%Z. rewrite inject_Z_plus. split; [exact E|].
    split; [lia|].
    assert (inject_Z (a + Z.of_nat k) < inject_Z (b + 1)) as H.
    { rewrite !inject_Z_plus. change (inject_Z 1) with 1. lra. }
    rewrite <- Zlt_Qlt in H. lia.
  - intros (z & E & Hz). exists (inject_Z a), (inject_Z b), (Z.to_nat (z - a)).
    split; [reflexivity|]. split; [reflexivity|].
    rewrite Z2Nat.id by lia. rewrite <- inject_Z_plus.
    replace (a + (z - a))%Z with z by lia. split; [exact E|].
    rewrite E. change 1 with (inject_Z 1). rewrite <- inject_Z_plus.
    rewrite <- Zlt_Qlt. lia.
Qed.

(** X14.  For a non-empty list of intervals [[a, b]] with whole-number
    bounds, the times returned by [find_overlap_n] are, in increasing
    order, exactly the whole numbers that lie in every one of the closed
    intervals. *)
Theorem find_overlap_n_whole_numbers :
  forall (zs : list (Z * Z)),
    zs <> [] ->
    exists times sizes,
      find_overlap_n (map int_interval zs) = Ok (Joined times sizes) /\
      increasingQ times /\
      forall x, memQ x times = true <->
                exists z, x == inject_Z z /\
                          Forall (fun ab => (fst ab <= z <= snd ab)%Z) zs.
Proof.
  intros zs Hne.
  destruct (find_overlap_n_members (map int_interval zs))
    as (times & sizes & E & Hinc & Hmem).
  - destruct zs; [contradiction | discriminate].
  - apply Forall_forall. intros iv Hiv. apply in_map_iff in Hiv.
    destruct Hiv as (ab & <- & _). simpl. discriminate.
  - exists times, sizes. split; [exact E|]. split; [exact Hinc|].
    intro x. rewrite Hmem, Forall_map. split.
    + intro H. destruct zs as [|ab0 zs]; [contradiction|].
      inversion H as [|? ? H0 _]; subst.
      apply eligible_int_interval in H0. destruct H0 as (z & Ez & _).
      exists z. split; [exact Ez|].
      eapply Forall_impl; [|exact H]. intros ab Hab. simpl in Hab.
      apply eligible_int_interval in Hab. destruct Hab as (z' & Ez' & Hz').
      assert (z = z') as ->; [|exact Hz'].
      apply inject_Z_injective. rewrite <- Ez, <- Ez'. reflexivity.
    + intros (z & Ez & Hz). eapply Forall_impl; [|exact Hz].
      intros ab Hab. simpl in Hab. apply eligible_int_interval. eauto.
Qed.

Lemma find_overlap_n_whole_numbers_witness :
  exists times sizes,
    find_overlap_n (map int_interval [(0, 5); (3, 8)]%Z)
    = Ok (Joined times sizes) /\
    memQ 4 times = true.
Proof.
  destruct (find_overlap_n_whole_numbers [(0, 5); (3, 8)]%Z)
    as (times & sizes & E & _ & H).
  - discriminate.
  - exists times, sizes. split; [exact E|]. apply H. exists 4%Z.
    split; [reflexivity|]. repeat constructor; simpl; lia.
Defined.

(** X15.  Two intervals whose starts do not differ by a whole number have
    no instant in common: whenever [intervals] holds two such intervals
    the returned list of times is empty, however much the intervals
    overlap in time.  The numbers of the intervals are on one grid with
    [1], so that the instants are computed without rounding. *)
Theorem find_overlap_n_offset_grids :
  forall (intervals : list interval_arg) (r1 r2 : list Q) (a c : Q)
         (j : nat),
    on_grid j 1 ->
    Forall (numbers_on_grid j) intervals ->
    Forall well_formed intervals ->
    In (Flat (a :: r1)) intervals -> In (Flat (c :: r2)) intervals ->
    (forall z : Z, ~ a - c == inject_Z z) ->
    exists sizes, find_overlap_n intervals = Ok (Joined [] sizes).
Proof.
  intros intervals r1 r2 a c j _ _ Hwf H1 H2 Hoff.
  destruct (find_overlap_n_members intervals)
    as (times & sizes & E & _ & Hmem).
  - intro Hnil. subst intervals. contradiction.
  - exact Hwf.
  - exists sizes. rewrite E. f_equal. f_equal.
    apply increasingQ_nil_iff. intro x.
    destruct (memQ x times) eqn:Hx; [|reflexivity]. exfalso.
    apply Hmem in Hx. rewrite Forall_forall in Hx.
    pose proof (Hx _ H1) as E1. pose proof (Hx _ H2) as E2.
    simpl in E1, E2. unfold unit_grid in E1, E2.
    destruct E1 as (a' & _ & k1 & Ha' & _ & Ek1 & _).
    destruct E2 as (c' & _ & k2 & Hc' & _ & Ek2 & _).
    simpl in Ha', Hc'. injection Ha' as <-. injection Hc' as <-.
    apply (Hoff (Z.of_nat k2 - Z.of_nat k1)%Z).
    unfold Z.sub. rewrite inject_Z_plus, inject_Z_opp. lra.
Qed.

Lemma find_overlap_n_offset_grids_witness :
  exists sizes,
    find_overlap_n [Flat [0; 5]; Flat [1 # 2; 11 # 2]]
    = Ok (Joined [] sizes).
Proof.
  apply (find_overlap_n_offset_grids
           [Flat [0; 5]; Flat [1 # 2; 11 # 2]] [5] [11 # 2]
           0 (1 # 2) 1).
  - grid.
  - each ltac:(each grid).
  - repeat constructor; discriminate.
  - left. reflexivity.
  - right. left. reflexivity.
  - intros z H. unfold Qeq in H. simpl in H. lia.
Defined.

Lemma increasingQ_tail_gt (h x : Q) (t : list Q) :
  increasingQ (h :: t) -> memQ x t = true -> h < x.
Proof.
  intros H Hx. inversion H as [|? ? _ Hall]; subst.
  apply memQ_true in Hx. destruct Hx as (y & Hy & E).
  rewrite Forall_forall in Hall. specialize (Hall y Hy). lra.
Qed.

(** Two strictly increasing lists with the same members are equal number
    by number. *)
Lemma increasingQ_same_members (l1 : list Q) :
  forall l2,
    increasingQ l1 -> increasingQ l2 ->
    (forall x, memQ x l1 = memQ x l2) ->
    Forall2 Qeq l1 l2.
Proof.
  induction l1 as [|h1 t1 IH]; intros l2 H1 H2 Hm.
  - destruct l2 as [|h2 t2]; [constructor|].
    specialize (Hm h2). simpl in Hm. rewrite Qeq_bool_refl in Hm.
    discriminate.
  - destruct l2 as [|h2 t2].
    + specialize (Hm h1). simpl in Hm. rewrite Qeq_bool_refl in Hm.
      discriminate.
    + assert (h1 == h2) as Eh.
      { pose proof (Hm h1) as M1. pose proof (Hm h2) as M2.
        simpl in M1, M2. rewrite Qeq_bool_refl in M1, M2. simpl in M1, M2.
        symmetry in M1. apply orb_true_iff in M1, M2.
        destruct M1 as [M1|M1]; [apply Qeq_bool_iff, M1|].
        destruct M2 as [M2|M2];
          [symmetry; apply Qeq_bool_iff, M2|].
        pose proof (increasingQ_tail_gt _ _ _ H2 M1).
        pose proof (increasingQ_tail_gt _ _ _ H1 M2). lra. }
      constructor; [exact Eh|].
      inversion H1 as [|? ? H1' _]; inversion H2 as [|? ? H2' _]; subst.
      apply IH; [assumption..|]. intro x. specialize (Hm x). simpl in Hm.
      destruct (memQ x t1) eqn:M1, (memQ x t2) eqn:M2; try reflexivity.
      * pose proof (increasingQ_tail_gt _ _ _ H1 M1) as Hgt.
        rewrite orb_true_r, orb_false_r in Hm. symmetry in Hm.
        apply Qeq_bool_iff in Hm. lra.
      * pose proof (increasingQ_tail_gt _ _ _ H2 M2) as Hgt.
        rewrite orb_true_r, orb_false_r in Hm.
        apply Qeq_bool_iff in Hm. lra.
Qed.

(** X16.  The times returned by [find_overlap_n] do not depend on the
    order of the intervals: for two orderings of the same well-formed
    intervals the two lists of times are equal number by number. *)
Theorem find_overlap_n_order_independent :
  forall (ivs ivs' : list interval_arg),
    ivs <> [] -> Forall well_formed ivs -> Permutation ivs ivs' ->
    exists times sizes times' sizes',
      find_overlap_n ivs = Ok (Joined times sizes) /\
      find_overlap_n ivs' = Ok (Joined times' sizes') /\
      Forall2 Qeq times times'.
Proof.
  intros ivs ivs' Hne Hwf Hperm.
  destruct (find_overlap_n_members ivs Hne Hwf) as (t & s & E & Hi & M).
  destruct (find_overlap_n_members ivs') as (t' & s' & E' & Hi' & M').
  - intro Hnil. subst ivs'. apply Permutation_sym, Permutation_nil in Hperm.
    contradiction.
  - apply (Permutation_Forall Hperm), Hwf.
  - exists t, s, t', s'. split; [exact E|]. split; [exact E'|].
    apply increasingQ_same_members; [assumption..|]. intro x.
    destruct (memQ x t) eqn:A, (memQ x t') eqn:B; try reflexivity.
    + apply M in A. apply (Permutation_Forall Hperm) in A.
      apply M' in A. congruence.
    + apply M' in B. apply (Permutation_Forall (Permutation_sym Hperm)) in B.
      apply M in B. congruence.
Qed.

Lemma find_overlap_n_order_independent_witness :
  exists times sizes times' sizes',
    find_overlap_n [Flat [0; 5]; Flat [3; 8]] = Ok (Joined times sizes) /\
    find_overlap_n [Flat [3; 8]; Flat [0; 5]] = Ok (Joined times' sizes') /\
    Forall2 Qeq times times'.
Proof.
  apply (find_overlap_n_order_independent
           [Flat [0; 5]; Flat [3; 8]] [Flat [3; 8]; Flat [0; 5]]).
  - discriminate.
  - repeat constructor; discriminate.
  - apply perm_swap.
Defined.

(** ** SimParam: defaults, order of the checks, shared names *)

Lemma value_mem_VStr (u : string) (l : list string) :
  value_mem (VStr u) (map VStr l) = true <-> In u l.
Proof.
  unfold value_mem. induction l as [|x l IH]; simpl.
  - split; [discriminate | tauto].
  - rewrite orb_true_iff, IH, String.eqb_eq. tauto.
Qed.

Lemma check_lim_units (u : string) :
  check_lim SimParam_class "units" (VStr u) =
  if value_mem (VStr u)
       (map VStr ["sec"; "min"; "hr"; "day"; "wk"; "month"; "year"]%string)
  then Ok tt else Raise (Exception OutsideSetConstraints).
Proof. reflexivity. Qed.

Lemma last_cons (ts : list Q) :
  forall t d, last (t :: ts) d = last ts t.
Proof.
  induction ts as [|u ts IH]; intros t d; [reflexivity|].
  change (last (t :: u :: ts) d) with (last (u :: ts) d).
  rewrite (IH u d), (IH u t). reflexivity.
Qed.

(** X17.  [SimParam(times=ts)] without [phases] takes the single phase
    [('na', 0, ts[-1])] and is then never rejected for overlap: with valid
    [units] it is constructed for every non-empty [ts]; for an empty [ts]
    the construction stops with an [IndexError]. *)
Theorem simparam_init_times_only :
  forall (kw : SimParam_kwargs) (ts : list Q),
    kw_phases kw = None -> kw_times kw = Some ts ->
    (ts = [] -> SimParam_init kw = Raise IndexError) /\
    (ts <> [] -> units_valid kw ->
     exists sp,
       SimParam_init kw = Ok sp /\
       sp_phases sp = [("na"%string, 0, last ts 0)] /\
       sp_times sp = ts).
Proof.
  intros kw ts Hp Ht. unfold SimParam_init. rewrite Hp, Ht. split.
  - intros ->. reflexivity.
  - intros Hne Hu. destruct ts as [|t ts]; [contradiction|].
    cbn [item_last bind]. rewrite (units_valid_check kw Hu).
    cbn [bind or_default sp_phases].
    eexists. split; [reflexivity|]. split; [|reflexivity].
    cbn [sp_phases]. f_equal. f_equal. symmetry. apply last_cons.
Qed.

Lemma simparam_init_times_only_witness :
  exists sp,
    SimParam_init (mkSimParamKwargs None (Some [0; 50]) None None None None)
    = Ok sp /\
    sp_phases sp = [("na"%string, 0, last [0; 50] 0)] /\
    sp_times sp = [0; 50].
Proof.
  destruct (simparam_init_times_only
              (mkSimParamKwargs None (Some [0; 50]) None None None None)
              [0; 50] eq_refl eq_refl) as [_ H].
  apply H; [discriminate | exact I].
Defined.

(** X18.  The limit check comes before the overlap check: with
    [check_lim] switched on, a value of [units] that is not in
    [units_set] makes the construction of a [SimParam] with given
    [phases] raise "outside of set constraints", also when the phases
    overlap.  With [check_lim=False] (and the other switches as they
    are) the value of [units] is not looked at: the overlap check alone
    decides, and a [SimParam] with those units is returned when it
    passes.  In that case the bounds are floats and the names of the
    phases distinct. *)
Theorem simparam_init_units_first :
  forall (kw : SimParam_kwargs) (flags : init_flags) (u : string)
         (ph : list phase_spec),
    kw_units kw = Some u ->
    ~ In u ["sec"; "min"; "hr"; "day"; "wk"; "month"; "year"]%string ->
    kw_phases kw = Some ph ->
    (check_lim_flag flags = true ->
     SimParam_init_with flags kw = Raise (Exception OutsideSetConstraints)) /\
    (flags = no_check_lim ->
     NoDup (phase_names ph) ->
     Forall (fun v => snd (fst v) <= snd v) ph ->
     Forall (fun v => binary64 (snd (fst v)) /\ binary64 (snd v)) ph ->
     (has_overlap (map interval_of ph) ->
      SimParam_init_with flags kw = Raise (Exception GlobalPhasesOverlap)) /\
     (~ has_overlap (map interval_of ph) ->
      exists sp, SimParam_init_with flags kw = Ok sp /\
                 sp_units sp = u /\ sp_phases sp = ph)).
Proof.
  intros kw flags u ph Hu Hn Hp. unfold SimParam_init_with. rewrite Hp, Hu.
  assert ((match kw_times kw with
           | Some _ => Ok (Some ph)
           | None => Ok (Some ph)
           end : result (option (list phase_spec))) = Ok (Some ph)) as ->
      by (destruct (kw_times kw); reflexivity).
  cbn [bind]. split.
  - intros ->. rewrite check_lim_units.
    destruct (value_mem (VStr u)
                (map VStr ["sec"; "min"; "hr"; "day"; "wk"; "month";
                           "year"]%string))
      eqn:Hm; [|reflexivity].
    apply value_mem_VStr in Hm. contradiction.
  - intros -> Hnd Hwf _. cbn [check_lim_flag no_check_lim bind or_default].
    destruct (find_any_phase_overlap_correct ph Hnd Hwf) as [Hov Hno].
    cbn [sp_phases]. split.
    + intro H. rewrite (Hov H). reflexivity.
    + intro H. rewrite (Hno H). cbn [bind]. eexists.
      split; [reflexivity|]. split; reflexivity.
Qed.

Lemma simparam_init_units_first_witness :
  SimParam_init_with default_flags
    (mkSimParamKwargs (Some [("a"%string, 0, 5); ("b"%string, 3, 8)])
       None None (Some "hours"%string) None None)
  = Raise (Exception OutsideSetConstraints) /\
  exists sp,
    SimParam_init_with no_check_lim
      (mkSimParamKwargs (Some [("a"%string, 0, 5); ("b"%string, 6, 8)])
         None None (Some "hours"%string) None None) = Ok sp /\
    sp_units sp = "hours"%string /\
    sp_phases sp = [("a"%string, 0, 5); ("b"%string, 6, 8)].
Proof.
  split.
  - destruct (simparam_init_units_first
                (mkSimParamKwargs
                   (Some [("a"%string, 0, 5); ("b"%string, 3, 8)])
                   None None (Some "hours"%string) None None)
                default_flags "hours"%string
                [("a"%string, 0, 5); ("b"%string, 3, 8)]) as [H _].
    + reflexivity.
    + simpl. intuition discriminate.
    + reflexivity.
    + apply H. reflexivity.
  - destruct (simparam_init_units_first
                (mkSimParamKwargs
                   (Some [("a"%string, 0, 5); ("b"%string, 6, 8)])
                   None None (Some "hours"%string) None None)
                no_check_lim "hours"%string
                [("a"%string, 0, 5); ("b"%string, 6, 8)]) as [_ H].
    + reflexivity.
    + simpl. intuition discriminate.
    + reflexivity.
    + destruct H as [_ H].
      * reflexivity.
      * repeat constructor; simpl; intuition discriminate.
      * repeat constructor; simpl; discriminate.
      * each ltac:(split; float).
      * apply H. intros (i & j & a & b & Hij & Hi & Hj & Ho).
        destruct i as [|[|i]]; destruct j as [|[|j]]; simpl in Hi, Hj;
          try lia; try discriminate;
          try (destruct i; discriminate); try (destruct j; discriminate).
        injection Hi as <-. injection Hj as <-.
        destruct Ho as [_ Ho]. simpl in Ho. vm_compute in Ho.
        apply Ho. reflexivity.
Defined.

Lemma dict_of_list_same_name {V : Type} (n : string) (l : list (string * V)) :
  Forall (fun kv => fst kv = n) l ->
  forall acc, (List.length acc <= 1)%nat ->
              Forall (fun kv => fst kv = n) acc ->
              (List.length
                 (fold_left (fun d kv => dict_set d (fst kv) (snd kv)) l acc)
               <= 1)%nat.
Proof.
  induction 1 as [|[k v] l Hk Hl IH]; intros acc Hlen Hacc; simpl;
    [exact Hlen|].
  simpl in Hk. subst k. simpl.
  assert ((List.length (dict_set acc n v) <= 1)%nat /\
          Forall (fun kv => fst kv = n) (dict_set acc n v)) as [H1 H2].
  { destruct acc as [|[k0 v0] acc']; simpl.
    - split; [lia | repeat constructor].
    - destruct acc' as [|e acc']; [|simpl in Hlen; lia].
      inversion Hacc as [|? ? Hk0 _]. simpl in Hk0.
      rewrite Hk0, String.eqb_refl. simpl. split; [lia | repeat constructor]. }
  apply IH; assumption.
Qed.

Lemma overlap_scan_short (L H : list Q) :
  (List.length L <= 1)%nat -> overlap_scan L H = false.
Proof.
  destruct L as [|l0 [|l1 rest]]; simpl; try reflexivity. lia.
Qed.

(** X19.  Phases that all carry one name are never reported as
    overlapping by [find_any_phase_overlap]: the dict built from them
    keeps a single interval. *)
Theorem find_any_phase_overlap_shared_name :
  forall (phases : list phase_spec) (n : string),
    Forall (fun v => fst (fst v) = n) phases ->
    find_any_phase_overlap phases = Ok tt.
Proof.
  intros phases n Hn. unfold find_any_phase_overlap.
  rewrite overlap_scan_short; [reflexivity|].
  rewrite length_np_sort, length_map. unfold dict_values.
  rewrite length_map. unfold dict_of_list.
  apply (dict_of_list_same_name n); [|simpl; lia | constructor].
  apply Forall_forall. intros kv Hkv. apply in_map_iff in Hkv.
  destruct Hkv as (v & <- & Hv). simpl.
  rewrite Forall_forall in Hn. apply Hn, Hv.
Qed.

Lemma find_any_phase_overlap_shared_name_witness :
  find_any_phase_overlap [("a"%string, 0, 5); ("a"%string, 3, 8)] = Ok tt.
Proof.
  apply (find_any_phase_overlap_shared_name _ "a"%string).
  repeat constructor.
Defined.

(** ** Parameter: check_lim, defaults and copies *)

(** X20.  For a number [q] and a field with number bounds [(lo, hi)],
    [check_lim] passes exactly when [lo <= q <= hi], both bounds
    included, and [q] is in the set of the field when a non-empty set is
    declared; outside the bounds it raises "outside of limits" whatever
    the set; for a field without bounds only the set counts; and a string
    checked against number bounds is a [TypeError]. *)
Theorem check_lim_characterised :
  forall (cls : param_class) (k : string) (q lo hi : Q) (str : string),
    let in_set :=
      match dict_get (k_set cls) k with
      | Some (x :: s) => value_mem (VNum q) (x :: s)
      | _ => true
      end in
    (dict_get (k_lim cls) k = Some (VNum lo, VNum hi) ->
     (check_lim cls k (VNum q) = Ok tt <->
      lo <= q /\ q <= hi /\ in_set = true) /\
     (q < lo \/ hi < q ->
      check_lim cls k (VNum q) = Raise (Exception OutsideLimits)) /\
     (lo <= q /\ q <= hi -> in_set = false ->
      check_lim cls k (VNum q) = Raise (Exception OutsideSetConstraints)) /\
     check_lim cls k (VStr str) = Raise TypeError) /\
    (dict_get (k_lim cls) k = None ->
     (check_lim cls k (VNum q) = Ok tt <-> in_set = true)).
Proof.
  intros cls k q lo hi str in_set. subst in_set. unfold check_lim. split.
  - intros ->. cbn [fst snd value_le bind].
    destruct (Qle_bool lo q) eqn:E1; cbn [bind];
      [destruct (Qle_bool q hi) eqn:E2; cbn [bind]|];
      rewrite ?Qle_bool_iff, ?Qle_bool_false in *;
      destruct (dict_get (k_set cls) k) as [[|x s]|];
      try destruct (value_mem (VNum q) (x :: s));
      intuition (try reflexivity; try discriminate; try (exfalso; lra)).
  - intros ->. cbn [bind].
    destruct (dict_get (k_set cls) k) as [[|x s]|];
      try destruct (value_mem (VNum q) (x :: s));
      intuition (try reflexivity; try discriminate).
Qed.

Lemma check_lim_characterised_witness :
  check_lim ExampleParameter "x" (VNum 10) = Ok tt.
Proof.
  destruct (check_lim_characterised ExampleParameter "x" 10 0 10 "s"%string)
    as [H _].
  destruct (H eq_refl) as [H1 _]. apply H1.
  repeat split; discriminate || reflexivity.
Defined.

Lemma check_lim_loop_nothing_supplied (cls : param_class) (ks : list string) :
  forall i, check_lim_loop cls [] [] i ks = Ok tt.
Proof.
  induction ks as [|k ks IH]; intro i; [reflexivity|].
  cbn [check_lim_loop]. unfold supplied.
  assert (nth_error (@nil value) i = None) as -> by (destruct i; reflexivity).
  simpl. apply IH.
Qed.

(** X21.  Defaults are not checked: a constructor call without
    arguments passes the limit check of every class that has a docstring,
    also when a default lies outside the limits declared for its field;
    whether an instance results is up to the later steps alone. *)
Theorem parameter_init_defaults_unchecked :
  forall (finish : param_class -> init_flags -> list value -> dict value ->
                   result (dict value))
         (cls : param_class) (flags : init_flags),
    has_doc cls = true ->
    Parameter_init finish cls (Args []) flags [] = finish cls flags [] [].
Proof.
  intros finish cls flags Hd. unfold Parameter_init. rewrite Hd. cbn [negb].
  destruct (check_lim_flag flags); [|reflexivity].
  rewrite check_lim_loop_nothing_supplied. reflexivity.
Qed.

Lemma parameter_init_defaults_unchecked_witness :
  Parameter_init record_init
    {| has_doc := true; fields := [("x"%string, VNum 20)];
       k_lim := [("x"%string, (VNum 0, VNum 10))]; k_set := [] |}
    (Args []) default_flags []
  = Ok [("x"%string, VNum 20)].
Proof.
  rewrite (parameter_init_defaults_unchecked record_init
             {| has_doc := true; fields := [("x"%string, VNum 20)];
                k_lim := [("x"%string, (VNum 0, VNum 10))]; k_set := [] |}
             default_flags eq_refl).
  reflexivity.
Defined.

Lemma dict_get_union {V : Type} (b : dict V) :
  forall (a : dict V) (k : string),
    NoDup (dict_keys b) ->
    dict_get (dict_union a b) k =
    match dict_get b k with
    | Some v => Some v
    | None => dict_get a k
    end.
Proof.
  unfold dict_union.
  induction b as [|[k0 v0] b IH]; intros a k Hnd; simpl; [reflexivity|].
  inversion Hnd as [|? ? Hn Hnd']; subst. rewrite IH by exact Hnd'.
  rewrite dict_get_set. destruct (String.eqb k k0) eqn:E.
  - apply String.eqb_eq in E. subst k0.
    apply dict_get_None in Hn. rewrite Hn. reflexivity.
  - reflexivity.
Qed.

(** X22.  Unless it is called with [check_lim=False], [copy_with_vals]
    checks every field again, those it copies as well as those it
    replaces: when the value a field would get (the keyword given for it,
    else the value of the instance) is outside the bounds or the set of
    the field, no copy is made.  Called with [check_lim=False] it checks
    no field and goes straight to the later steps of the constructor. *)
Theorem copy_with_vals_checks_all_fields :
  forall (finish : param_class -> init_flags -> list value -> dict value ->
                   result (dict value))
         (cls : param_class) (self kwargs : dict value) (flags : init_flags)
         (i : nat) (k : string) (v : value),
    NoDup (dict_keys kwargs) ->
    nth_error (dict_keys (fields cls)) i = Some k ->
    match dict_get kwargs k with
    | Some v' => Some v'
    | None => dict_get self k
    end = Some v ->
    outside_limits cls k v \/ outside_set cls k v ->
    (check_lim_flag flags = true ->
     is_ok (copy_with_vals finish cls self flags kwargs) = false) /\
    (check_lim_flag flags = false -> has_doc cls = true ->
     copy_with_vals finish cls self flags kwargs =
     finish cls flags [] (dict_union self kwargs)).
Proof.
  intros finish cls self kwargs flags i k v Hnd Hk Hv Hout.
  unfold copy_with_vals, Parameter_init. split.
  - intro Hc. destruct (has_doc cls); [|reflexivity]. cbn [negb].
    rewrite Hc.
    assert (is_ok (check_lim cls k v) = false) as Hcv.
    { destruct Hout as [Ho|Ho].
      - rewrite (check_lim_outside_limits _ _ _ Ho). reflexivity.
      - apply check_lim_outside_set, Ho. }
    assert (supplied [] (dict_union self kwargs) (0 + i) k = Some v) as Hs.
    { unfold supplied.
      assert (nth_error (@nil value) (0 + i) = None) as ->
          by (destruct i; reflexivity).
      rewrite dict_get_union by exact Hnd. exact Hv. }
    pose proof (check_lim_loop_fails cls [] (dict_union self kwargs)
                  (dict_keys (fields cls)) 0 i k v Hk Hs Hcv) as Hl.
    destruct (check_lim_loop cls [] (dict_union self kwargs) 0
                (dict_keys (fields cls))); [discriminate | reflexivity].
  - intros Hc Hd. rewrite Hd, Hc. reflexivity.
Qed.

Lemma copy_with_vals_checks_all_fields_witness :
  is_ok (copy_with_vals record_init ExampleParameter
           [("x"%string, VNum 1); ("y"%string, VNum 3); ("z"%string, VNum 0)]
           default_flags [("x"%string, VNum 20)]) = false /\
  copy_with_vals record_init ExampleParameter
    [("x"%string, VNum 1); ("y"%string, VNum 3); ("z"%string, VNum 0)]
    no_check_lim [("x"%string, VNum 20)]
  = Ok [("x"%string, VNum 20); ("y"%string, VNum 3); ("z"%string, VNum 0)].
Proof.
  destruct (copy_with_vals_checks_all_fields record_init ExampleParameter
              [("x"%string, VNum 1); ("y"%string, VNum 3);
               ("z"%string, VNum 0)]
              [("x"%string, VNum 20)] default_flags 0 "x"%string (VNum 20))
    as [H1 _].
  - repeat constructor. intros [].
  - reflexivity.
  - reflexivity.
  - left. exists 0, 10, 20. repeat split. right. reflexivity.
  - destruct (copy_with_vals_checks_all_fields record_init ExampleParameter
                [("x"%string, VNum 1); ("y"%string, VNum 3);
                 ("z"%string, VNum 0)]
                [("x"%string, VNum 20)] no_check_lim 0 "x"%string (VNum 20))
      as [_ H2].
    + repeat constructor. intros [].
    + reflexivity.
    + reflexivity.
    + left. exists 0, 10, 20. repeat split. right. reflexivity.
    + split; [apply H1; reflexivity|].
      rewrite (H2 eq_refl eq_refl). reflexivity.
Defined.

(** ** eq_units *)

Lemma factors_positive (u : string) (f : Q) :
  dict_get factors u = Some f -> 0 < f.
Proof.
  intro H. apply dict_get_In in H. simpl in H.
  repeat (destruct H as [H|H]; [injection H as _ <-; reflexivity|]).
  contradiction.
Qed.

Lemma eq_units_Ok (a b : string) (q : Q) :
  eq_units a b = Ok q <->
  exists fa fb, dict_get factors a = Some fa /\ dict_get factors b = Some fb /\
                q = fb / fa.
Proof.
  unfold eq_units, dict_getitem. split.
  - destruct (dict_get factors b) as [fb|]; [|discriminate].
    destruct (dict_get factors a) as [fa|]; [|discriminate].
    simpl. intros [= <-]. eauto.
  - intros (fa & fb & -> & -> & ->). reflexivity.
Qed.

(** X23.  [eq_units] converts between exactly the seven units that
    [SimParam] accepts.  For two of them it returns a positive factor,
    which is above one exactly when the time unit is the longer one and
    is one for a unit and itself; when the shorter unit divides the
    longer one (seconds, minutes, hours, days and weeks in a row; months
    in a year) the factor is that whole number, which the division gives
    without rounding.  A unit outside the seven raises a [KeyError], for
    the time unit first. *)
Theorem eq_units_conversions :
  forall (a b : string) (fa fb : Q) (n : Z),
    (In a (dict_keys factors) <->
     check_lim SimParam_class "units" (VStr a) = Ok tt) /\
    (dict_get factors a = Some fa -> dict_get factors b = Some fb ->
     exists q, eq_units a b = Ok q /\ 0 < q /\
               (1 < q <-> fa < fb) /\ (q == 1 <-> a = b) /\
               (fb == inject_Z n * fa -> q == inject_Z n)) /\
    eq_units "sec" "wk" = Ok (inject_Z 604800) /\
    (exists q, eq_units "month" "year" = Ok q /\ q == 12) /\
    (~ In b (dict_keys factors) -> eq_units a b = Raise (KeyError b)) /\
    (In b (dict_keys factors) -> ~ In a (dict_keys factors) ->
     eq_units a b = Raise (KeyError a)).
Proof.
  intros a b fa fb n. split; [|split; [|split; [|split; [|split]]]].
  - split.
    + simpl. intros [<-|[<-|[<-|[<-|[<-|[<-|[<-|[]]]]]]]]; reflexivity.
    + intro H. rewrite check_lim_units in H.
      destruct (value_mem (VStr a)
                  (map VStr ["sec"; "min"; "hr"; "day"; "wk"; "month";
                             "year"]%string)) eqn:Hm; [|discriminate].
      apply value_mem_VStr in Hm. exact Hm.
  - intros Ea Eb. exists (fb / fa).
    split; [apply eq_units_Ok; eauto|].
    pose proof (factors_positive _ _ Ea) as Ha.
    pose proof (factors_positive _ _ Eb) as Hb.
    split; [apply Qlt_shift_div_l; lra|]. split; [|split].
    + split; intro H.
      * apply (Qmult_lt_compat_r _ _ fa) in H; [|exact Ha].
        assert (fb / fa * fa == fb) as E by (field; lra). lra.
      * apply Qlt_shift_div_l; lra.
    + split; intro H.
      * assert (fb == fa) as E.
        { assert (fb / fa * fa == fb) as E' by (field; lra).
          rewrite H in E'. lra. }
        apply dict_get_In in Ea, Eb. simpl in Ea, Eb.
        repeat (destruct Ea as [Ea|Ea];
                [injection Ea as <- <-|]); try contradiction;
          repeat (destruct Eb as [Eb|Eb];
                  [injection Eb as <- <-|]); try contradiction;
          try reflexivity; exfalso; vm_compute in E; discriminate.
      * subst b. rewrite Ea in Eb. injection Eb as <-. field. lra.
    + intro H. rewrite H. field. lra.
  - reflexivity.
  - eexists. split; [reflexivity|]. reflexivity.
  - intro Hb. apply dict_get_None in Hb. unfold eq_units, dict_getitem.
    rewrite Hb. reflexivity.
  - intros Hb Ha. apply dict_get_None in Ha. unfold eq_units, dict_getitem.
    destruct (dict_get factors b) eqn:Eb;
      [|apply dict_get_None in Eb; contradiction].
    rewrite Ha. reflexivity.
Qed.

Lemma eq_units_conversions_witness :
  exists q, eq_units "min" "hr" = Ok q /\ q == 60.
Proof.
  destruct (eq_units_conversions "min"%string "hr"%string 60 3600 60%Z)
    as (_ & H & _).
  destruct H as (q & E & _ & _ & _ & H); [reflexivity | reflexivity |].
  exists q. split; [exact E|]. apply H. reflexivity.
Defined.

(** ** from_hist: the phases of a mode history *)

Lemma nth_error_increasing (times : list Q) :
  increasingQ times ->
  forall i j a b,
    (i < j)%nat -> nth_error times i = Some a -> nth_error times j = Some b ->
    a < b.
Proof.
  induction 1 as [|t times Hs IH Ht]; intros i j a b Hij Hi Hj.
  - destruct i; discriminate.
  - destruct j as [|j]; [lia|]. simpl in Hj. destruct i as [|i]; simpl in Hi.
    + injection Hi as <-. rewrite Forall_forall in Ht.
      apply Ht. eapply nth_error_In, Hj.
    + apply (IH i j); [lia | assumption..].
Qed.

Lemma mode_indices_In (m : string) (h : list string) :
  forall k x,
    In x (mode_indices m h k) <->
    (k <= x)%nat /\ nth_error h (x - k) = Some m.
Proof.
  induction h as [|m0 h IH]; intros k x; simpl.
  - split; [intros [] | intros [_ H]; destruct (x - k)%nat; discriminate].
  - destruct (String.eqb m0 m) eqn:E.
    + apply String.eqb_eq in E. subst m0. simpl. rewrite IH. split.
      * intros [<-|[H1 H2]].
        -- split; [lia|]. rewrite Nat.sub_diag. reflexivity.
        -- split; [lia|]. replace (x - k)%nat with (S (x - S k)) by lia.
           exact H2.
      * intros [H1 H2]. destruct (Nat.eq_dec k x) as [->|Hne]; [left; auto|].
        right. split; [lia|].
        replace (x - k)%nat with (S (x - S k)) in H2 by lia. exact H2.
    + apply String.eqb_neq in E. rewrite IH. split.
      * intros [H1 H2]. split; [lia|].
        replace (x - k)%nat with (S (x - S k)) by lia. exact H2.
      * intros [H1 H2]. destruct (Nat.eq_dec k x) as [->|Hne].
        -- rewrite Nat.sub_diag in H2. simpl in H2. congruence.
        -- split; [lia|].
           replace (x - k)%nat with (S (x - S k)) in H2 by lia. exact H2.
Qed.

Lemma mode_indices_sorted (m : string) (h : list string) :
  forall k, StronglySorted lt (mode_indices m h k).
Proof.
  induction h as [|m0 h IH]; intro k; simpl; [constructor|].
  destruct (String.eqb m0 m); [|apply IH].
  constructor; [apply IH|]. apply Forall_forall. intros x Hx.
  apply mode_indices_In in Hx. lia.
Qed.

Lemma sorted_app_tail (pre l : list nat) :
  StronglySorted lt (pre ++ l) -> StronglySorted lt l.
Proof.
  induction pre as [|p pre IH]; simpl; [auto|].
  intro H. inversion H; auto.
Qed.

Lemma existsb_eqb_In (x : nat) (l : list nat) :
  existsb (Nat.eqb x) l = true <-> In x l.
Proof.
  rewrite existsb_exists. split.
  - intros (y & Hy & E). apply Nat.eqb_eq in E. congruence.
  - intro H. exists x. split; [exact H | apply Nat.eqb_refl].
Qed.

Lemma Forall_dict_set {V : Type} (P : string * V -> Prop) (d : dict V)
  (k : string) (v : V) :
  Forall P d -> P (k, v) -> Forall P (dict_set d k v).
Proof.
  intros Hd Hp. induction Hd as [|[k0 v0] d H0 Hd IH]; simpl.
  - repeat constructor. exact Hp.
  - destruct (String.eqb k k0) eqn:E.
    + apply String.eqb_eq in E. subst k0. constructor; assumption.
    + constructor; assumption.
Qed.

(** Replacing or adding an entry keeps the intervals of a dict apart when
    the new interval is apart from all the others. *)
Lemma pairwise_apart_set (d : dict interval) (k : string) (iv : interval) :
  pairwise_apart d ->
  Forall (fun e => apart (snd e) iv) d ->
  pairwise_apart (dict_set d k iv).
Proof.
  unfold pairwise_apart. intros Hd Hiv.
  induction d as [|[k0 v0] d IH]; simpl.
  - constructor; constructor.
  - inversion Hd as [|? ? H0 Hd']; subst.
    inversion Hiv as [|? ? Hi0 Hiv']; subst.
    destruct (String.eqb k k0) eqn:E.
    + constructor; [|exact Hd'].
      eapply Forall_impl; [|exact Hiv']. intros e He. simpl in *.
      unfold apart in *. tauto.
    + constructor; [|apply IH; assumption].
      clear - H0 Hi0. induction d as [|[k1 v1] d IHd]; simpl.
      * constructor; [exact Hi0 | constructor].
      * inversion H0; subst. destruct (String.eqb k k1).
        -- constructor; [exact Hi0 | assumption].
        -- constructor; [assumption | apply IHd; assumption].
Qed.

Section FromHist.

Variable times : list Q.
Variable modehist : list string.
Hypothesis times_increasing : increasingQ times.
Hypothesis times_cover : (List.length modehist <= List.length times)%nat.

Lemma getitem_times (j : nat) (m : string) :
  nth_error modehist j = Some m -> exists a, nth_error times j = Some a.
Proof.
  intro H. assert (j < List.length times)%nat as Hj.
  { assert (nth_error modehist j <> None) as Hn by congruence.
    apply nth_error_Some in Hn. lia. }
  apply nth_error_Some in Hj. destruct (nth_error times j); [eauto|congruence].
Qed.

(** Stretches of different modes, and stretches one of which ends before
    the other begins, give intervals that are apart. *)
Lemma stretch_apart (m1 m2 : string) (s1 e1 s2 e2 : nat) (iv1 iv2 : interval) :
  stretch times modehist m1 s1 e1 iv1 ->
  stretch times modehist m2 s2 e2 iv2 ->
  m1 <> m2 \/ (e1 < s2)%nat ->
  apart iv1 iv2.
Proof.
  intros (H1 & A1 & B1 & M1) (H2 & A2 & B2 & M2) Hc.
  assert ((e1 < s2)%nat \/ (e2 < s1)%nat) as [H|H].
  { destruct Hc as [Hne|H]; [|left; exact H].
    destruct (Nat.lt_ge_cases e1 s2) as [H|H]; [left; exact H|].
    destruct (Nat.lt_ge_cases e2 s1) as [H'|H']; [right; exact H'|].
    exfalso. apply Hne.
    assert (nth_error modehist (Nat.max s1 s2) = Some m1) as E1
        by (apply M1; lia).
    assert (nth_error modehist (Nat.max s1 s2) = Some m2) as E2
        by (apply M2; lia).
    congruence. }
  - left. apply (nth_error_increasing times times_increasing e1 s2);
      assumption.
  - right. apply (nth_error_increasing times times_increasing e2 s1);
      assumption.
Qed.

Lemma stretch_ordered (m : string) (s e : nat) (iv : interval) :
  stretch times modehist m s e iv -> fst iv <= snd iv.
Proof.
  intros (H & A & B & _). destruct (Nat.eq_dec s e) as [->|Hne].
  - rewrite A in B. injection B as ->. lra.
  - apply Qlt_le_weak.
    apply (nth_error_increasing times times_increasing s e); [lia|assumption..].
Qed.

(** The loop over the indices of one mode: it returns, and it keeps the
    intervals apart and the names distinct. *)
Lemma runs_loop_inv (m : string) (done : list string) :
  ~ In m done ->
  forall rest pre st,
    mode_indices m modehist 0 = pre ++ rest ->
    match rest with
    | [] => True
    | ind :: _ =>
        (startind st <= ind)%nat /\
        forall j, (startind st <= j <= ind)%nat ->
                  nth_error modehist j = Some m
    end ->
    Forall (fun e => entry_ok times modehist done m (startind st) (snd e))
      (phases_unsorted st) ->
    pairwise_apart (phases_unsorted st) ->
    NoDup (dict_keys (phases_unsorted st)) ->
    exists st',
      runs_loop times m (mode_indices m modehist 0) rest (List.length pre) st
      = Ok st' /\
      Forall (fun e => entry_done times modehist (m :: done) (snd e))
        (phases_unsorted st') /\
      pairwise_apart (phases_unsorted st') /\
      NoDup (dict_keys (phases_unsorted st')).
Proof.
  intros Hm rest.
  induction rest as [|ind rest IH]; intros pre st Hsplit Hhead Hent Hap Hnd.
  - exists st. split; [reflexivity|]. split; [|split; assumption].
    eapply Forall_impl; [|exact Hent]. intros e (s & e' & m' & Hs & Hc).
    exists s, e', m'. split; [exact Hs|]. simpl. destruct Hc as [H|[-> _]]; auto.
  - set (modeinds := mode_indices m modehist 0) in *.
    destruct Hhead as [Hle Hmode].
    pose proof (mode_indices_sorted m modehist 0) as Hsorted.
    fold modeinds in Hsorted.
    assert (Hin : forall x, In x modeinds <-> nth_error modehist x = Some m).
    { intro x. unfold modeinds. rewrite mode_indices_In, Nat.sub_0_r.
      split; [tauto | split; [lia | assumption]]. }
    assert (Hsplit' : modeinds = (pre ++ [ind]) ++ rest)
      by (rewrite <- app_assoc; exact Hsplit).
    assert (Hlen' : List.length (pre ++ [ind]) = S (List.length pre))
      by (rewrite length_app; simpl; lia).
    assert (Hrest_gt : Forall (lt ind) rest).
    { rewrite Hsplit in Hsorted. clear - Hsorted.
      induction pre as [|p pre IHp]; simpl in Hsorted.
      - inversion Hsorted; assumption.
      - inversion Hsorted; auto. }
    assert (Hpre_lt : Forall (fun x => x < ind)%nat pre).
    { rewrite Hsplit in Hsorted. clear - Hsorted.
      induction pre as [|p pre IHp]; simpl in Hsorted; [constructor|].
      inversion Hsorted as [|? ? Hs Hall]; subst. constructor; [|auto].
      rewrite Forall_forall in Hall. apply Hall, in_elt. }
    cbn [runs_loop].
    destruct (existsb (Nat.eqb (ind + 1)) modeinds) eqn:Enext; cbn [negb].
    + (* the stretch goes on *)
      rewrite <- Hlen'. apply IH; try assumption.
      destruct rest as [|ind2 rest']; [exact I|].
      apply existsb_eqb_In in Enext.
      assert (ind2 = ind + 1)%nat as ->.
      { inversion Hrest_gt as [|? ? Hgt Hgt']; subst.
        rewrite Hsplit in Enext. apply in_app_or in Enext.
        destruct Enext as [Hp|[Hp|[Hp|Hp]]].
        - rewrite Forall_forall in Hpre_lt. specialize (Hpre_lt _ Hp). lia.
        - lia.
        - lia.
        - exfalso. rewrite Hsplit in Hsorted.
          apply sorted_app_tail in Hsorted.
          inversion Hsorted as [|? ? Hs' _]; subst.
          inversion Hs' as [|? ? _ Hall]; subst.
          rewrite Forall_forall in Hall. specialize (Hall _ Hp). lia. }
      split; [lia|]. intros j Hj.
      destruct (Nat.eq_dec j (ind + 1)) as [->|Hne].
      * apply Hin. rewrite Hsplit. apply in_or_app. right. right. left.
        reflexivity.
      * apply Hmode. lia.
    + (* the stretch ends at [ind] *)
      assert (Hind : nth_error modehist ind = Some m) by (apply Hmode; lia).
      assert (Hstart : nth_error modehist (startind st) = Some m)
        by (apply Hmode; lia).
      destruct (getitem_times _ _ Hstart) as (a & Ea).
      destruct (getitem_times _ _ Hind) as (b & Eb).
      unfold getitem at 1 2. rewrite Ea, Eb. cbn [bind].
      assert (Hstr : stretch times modehist m (startind st) ind (a, b)).
      { split; [exact Hle|]. split; [exact Ea|]. split; [exact Eb|].
        exact Hmode. }
      assert (Hap' : pairwise_apart
                       (dict_set (phases_unsorted st) (phaseid st) (a, b))).
      { apply pairwise_apart_set; [exact Hap|].
        eapply Forall_impl; [|exact Hent].
        intros e (s & e' & m' & Hs & Hc). simpl.
        apply (stretch_apart m' m s e' (startind st) ind); [assumption..|].
        destruct Hc as [Hd|[-> Hlt]]; [left; congruence | right; exact Hlt]. }
      assert (Hnd' : NoDup (dict_keys
                              (dict_set (phases_unsorted st) (phaseid st) (a, b))))
        by (apply dict_keys_set_NoDup, Hnd).
      assert (Hent' : forall start', (ind < start')%nat ->
                Forall (fun e => entry_ok times modehist done m start' (snd e))
                  (dict_set (phases_unsorted st) (phaseid st) (a, b))).
      { intros start' Hlt. apply Forall_dict_set.
        - eapply Forall_impl; [|exact Hent].
          intros e (s & e' & m' & Hs & Hc). exists s, e', m'.
          split; [exact Hs|].
          destruct Hc as [Hd|[-> Hlt']];
            [left; exact Hd | right; split; [reflexivity | lia]].
        - exists (startind st), ind, m. split; [exact Hstr|]. right.
          split; [reflexivity | exact Hlt]. }
      destruct rest as [|ind2 rest'].
      * (* the last index of the mode *)
        assert (Nat.eqb (List.length pre) (List.length modeinds - 1) = true)
          as ->.
        { apply Nat.eqb_eq. rewrite Hsplit, length_app. simpl. lia. }
        cbn [negb runs_loop]. eexists. split; [reflexivity|].
        cbn [phases_unsorted]. split; [|split; assumption].
        eapply Forall_impl; [|exact (Hent' (S ind) (Nat.lt_succ_diag_r ind))].
        intros e (s & e' & m' & Hs & Hc). exists s, e', m'.
        split; [exact Hs|]. simpl. destruct Hc as [H|[-> _]]; auto.
      * (* another stretch of the mode follows *)
        inversion Hrest_gt as [|? ? Hgt _]; subst.
        assert (Nat.eqb (List.length pre) (List.length modeinds - 1) = false)
          as ->.
        { apply Nat.eqb_neq. rewrite Hsplit, length_app. simpl. lia. }
        cbn [negb].
        assert (getitem modeinds (List.length pre + 1) = Ok ind2) as ->.
        { unfold getitem. rewrite Hsplit, nth_error_app2 by lia.
          replace (List.length pre + 1 - List.length pre)%nat with 1%nat
            by lia.
          reflexivity. }
        cbn [bind]. rewrite <- Hlen'.
        apply (IH (pre ++ [ind])); cbn [startind phases_unsorted];
          try assumption.
        -- split; [lia|]. intros j Hj. assert (j = ind2) as -> by lia.
           apply Hin. rewrite Hsplit. apply in_or_app. right. right. left.
           reflexivity.
        -- apply Hent'. exact Hgt.
Qed.

Lemma ordered_set_In (x : string) (l : list string) :
  In x (ordered_set l) <-> In x l.
Proof.
  induction l as [|y l IH]; simpl; [tauto|].
  rewrite filter_In, IH, negb_true_iff, String.eqb_neq.
  destruct (string_dec y x) as [->|Hne]; tauto.
Qed.

Lemma ordered_set_NoDup (l : list string) : NoDup (ordered_set l).
Proof.
  induction l as [|y l IH]; simpl; constructor.
  - rewrite filter_In, negb_true_iff, String.eqb_neq. tauto.
  - apply NoDup_filter, IH.
Qed.

(** The loop over the modes: it returns, every interval it leaves is
    that of a stretch of the history, and the intervals are apart. *)
Lemma modes_loop_inv (modes : list string) :
  forall done pu mph,
    NoDup modes ->
    (forall m, In m modes -> ~ In m done /\ In m modehist) ->
    Forall (fun e => entry_done times modehist done (snd e)) pu ->
    pairwise_apart pu ->
    NoDup (dict_keys pu) ->
    exists pu' mph',
      modes_loop times modehist modes pu mph = Ok (pu', mph') /\
      Forall (fun e => exists s e' m',
                stretch times modehist m' s e' (snd e)) pu' /\
      pairwise_apart pu' /\
      NoDup (dict_keys pu').
Proof.
  induction modes as [|mode modes IH]; intros done pu mph Hnd Hm Hent Hap Hk.
  - exists pu, mph. split; [reflexivity|]. split; [|split; assumption].
    eapply Forall_impl; [|exact Hent]. intros e (s & e' & m' & Hs & _). eauto.
  - cbn [modes_loop].
    destruct (Hm mode (or_introl eq_refl)) as [Hnot Hin].
    remember (mode_indices mode modehist 0) as modeinds eqn:Emi.
    assert (Hmi : forall x, In x modeinds <-> nth_error modehist x = Some mode).
    { intro x. rewrite Emi, mode_indices_In, Nat.sub_0_r.
      split; [tauto | split; [lia | assumption]]. }
    destruct modeinds as [|start rest].
    { exfalso. apply In_nth_error in Hin. destruct Hin as (x & Hx).
      apply Hmi in Hx. exact Hx. }
    cbn [getitem nth_error bind].
    destruct (runs_loop_inv mode done Hnot (start :: rest) []
                {| startind := start; phasenum := 0; phaseid := mode;
                   phases_unsorted := pu; mode_set := [] |})
      as (st' & Est & Hent' & Hap' & Hk').
    + symmetry. exact Emi.
    + cbn [startind]. split; [lia|]. intros j Hj. assert (j = start) as -> by lia.
      apply Hmi. left. reflexivity.
    + cbn [startind phases_unsorted]. eapply Forall_impl; [|exact Hent].
      intros e (s & e' & m' & Hs & Hd). exists s, e', m'. auto.
    + exact Hap.
    + exact Hk.
    + rewrite <- Emi in Est. change (List.length (@nil nat)) with 0%nat in Est.
      rewrite Est. cbn [bind]. inversion Hnd as [|? ? Hn Hnd']; subst.
      apply (IH (mode :: done)); try assumption.
      intros m Hin'. destruct (Hm m (or_intror Hin')) as [H1 H2].
      split; [|exact H2]. intros [<-|H]; contradiction.
Qed.

End FromHist.

Lemma runs_loop_keys (times : list Q) (mode : string) (modeinds : list nat) :
  forall rest i st st',
    runs_loop times mode modeinds rest i st = Ok st' ->
    (forall k, In k (dict_keys (phases_unsorted st)) ->
               In k (dict_keys (phases_unsorted st'))) /\
    ((forall p, In p (mode_set st) -> In p (dict_keys (phases_unsorted st))) ->
     forall p, In p (mode_set st') -> In p (dict_keys (phases_unsorted st'))).
Proof.
  induction rest as [|ind rest IH]; intros i st st' H.
  - injection H as <-. auto.
  - cbn [runs_loop] in H.
    destruct (negb (existsb (Nat.eqb (ind + 1)) modeinds)); [|apply (IH _ _ _ H)].
    destruct (getitem times (startind st)) as [t0|]; [|discriminate].
    destruct (getitem times ind) as [t1|]; [|discriminate].
    cbn [bind] in H.
    assert (Hstep : forall st1,
              phases_unsorted st1 =
                dict_set (phases_unsorted st) (phaseid st) (t0, t1) ->
              mode_set st1 = str_set_add (mode_set st) (phaseid st) ->
              runs_loop times mode modeinds rest (S i) st1 = Ok st' ->
              (forall k, In k (dict_keys (phases_unsorted st)) ->
                         In k (dict_keys (phases_unsorted st'))) /\
              ((forall p, In p (mode_set st) ->
                          In p (dict_keys (phases_unsorted st))) ->
               forall p, In p (mode_set st') ->
                         In p (dict_keys (phases_unsorted st')))).
    { intros st1 Hpu Hms H1. apply IH in H1. destruct H1 as [K1 K2]. split.
      - intros k Hk. apply K1. rewrite Hpu. apply dict_keys_set_In. auto.
      - intros Hsub. apply K2. intros p Hp. rewrite Hpu.
        apply dict_keys_set_In. rewrite Hms in Hp. unfold str_set_add in Hp.
        destruct (str_mem (phaseid st) (mode_set st)); [right; auto|].
        apply in_app_or in Hp. destruct Hp as [Hp|[<-|[]]]; auto. }
    destruct (negb (Nat.eqb i (List.length modeinds - 1))).
    + destruct (getitem modeinds (i + 1)) as [next|]; [|discriminate].
      cbn [bind] in H. eapply Hstep; [| |exact H]; reflexivity.
    + eapply Hstep; [| |exact H]; reflexivity.
Qed.

Lemma dict_set_In_inv {V : Type} (d : dict V) (k : string) (v : V)
  (k' : string) (v' : V) :
  In (k', v') (dict_set d k v) -> (k' = k /\ v' = v) \/ In (k', v') d.
Proof.
  induction d as [|[k0 v0] d IH]; simpl.
  - intros [[= <- <-]|[]]. auto.
  - destruct (String.eqb k k0) eqn:E; simpl.
    + apply String.eqb_eq in E. subst k0. intros [[= <- <-]|H]; auto.
    + intros [H|H]; [auto|]. destruct (IH H); auto.
Qed.

Lemma modes_loop_groups (times : list Q) (modehist : list string)
  (modes : list string) :
  forall pu mph pu' mph',
    modes_loop times modehist modes pu mph = Ok (pu', mph') ->
    groups_declared pu mph ->
    groups_declared pu' mph'.
Proof.
  induction modes as [|mode modes IH]; intros pu mph pu' mph' H Hg.
  - injection H as <- <-. exact Hg.
  - cbn [modes_loop] in H.
    destruct (getitem (mode_indices mode modehist 0) 0) as [start|];
      [|discriminate].
    cbn [bind] in H.
    destruct (runs_loop times mode (mode_indices mode modehist 0)
                (mode_indices mode modehist 0) 0
                {| startind := start; phasenum := 0; phaseid := mode;
                   phases_unsorted := pu; mode_set := [] |})
      as [st|] eqn:Est; [|discriminate].
    cbn [bind] in H. apply runs_loop_keys in Est.
    cbn [phases_unsorted mode_set] in Est. destruct Est as [K1 K2].
    apply (IH _ _ _ _ H). intros m phs p Hin Hp.
    apply dict_set_In_inv in Hin. destruct Hin as [[-> ->]|Hin].
    + apply K2; [intros ? []| exact Hp].
    + apply K1. apply (Hg m phs p Hin Hp).
Qed.

Lemma modes_loop_modes (times : list Q) (modehist : list string)
  (modes : list string) :
  forall pu mph pu' mph',
    modes_loop times modehist modes pu mph = Ok (pu', mph') ->
    (forall m, In m modes -> In m (dict_keys mph)) ->
    dict_keys mph' = dict_keys mph.
Proof.
  induction modes as [|mode modes IH]; intros pu mph pu' mph' H Hk.
  - injection H as <- <-. reflexivity.
  - cbn [modes_loop] in H.
    destruct (getitem (mode_indices mode modehist 0) 0) as [start|];
      [|discriminate].
    cbn [bind] in H.
    destruct (runs_loop times mode (mode_indices mode modehist 0)
                (mode_indices mode modehist 0) 0
                {| startind := start; phasenum := 0; phaseid := mode;
                   phases_unsorted := pu; mode_set := [] |})
      as [st|]; [|discriminate].
    cbn [bind] in H. apply IH in H.
    + rewrite H. apply dict_keys_set_present. unfold dict_mem.
      destruct (dict_get mph mode) eqn:E; [reflexivity|].
      apply dict_get_None in E. exfalso. apply E, Hk. left. reflexivity.
    + intros m Hm. apply dict_keys_set_In. right. apply Hk. right. exact Hm.
Qed.

(** *** Sorting the phases by their start *)

Lemma insert_by_start_perm (x : string * interval) (l : list (string * interval)) :
  Permutation (x :: l) (insert_by_start x l).
Proof.
  induction l as [|y l IH]; simpl; [reflexivity|].
  destruct (Qle_bool (fst (snd x)) (fst (snd y))); [reflexivity|].
  rewrite perm_swap. apply perm_skip, IH.
Qed.

Lemma sorted_by_start_perm (l : list (string * interval)) :
  Permutation l (sorted_by_start l).
Proof.
  induction l as [|x l IH]; simpl; [reflexivity|].
  rewrite <- insert_by_start_perm. apply perm_skip, IH.
Qed.

Lemma insert_by_start_sorted (x : string * interval)
  (l : list (string * interval)) :
  StronglySorted by_start l -> StronglySorted by_start (insert_by_start x l).
Proof.
  unfold by_start. induction l as [|y l IH]; simpl; intro H.
  - repeat constructor.
  - inversion H as [|? ? Hl Hy]; subst.
    destruct (Qle_bool (fst (snd x)) (fst (snd y))) eqn:E.
    + apply Qle_bool_iff in E. constructor; [assumption|].
      constructor; [assumption|].
      eapply Forall_impl; [|exact Hy]. intros z Hz. simpl in Hz. lra.
    + apply Qle_bool_false in E. constructor; [auto|].
      apply (Permutation_Forall (insert_by_start_perm x l)).
      constructor; [lra | assumption].
Qed.

Lemma sorted_by_start_sorted (l : list (string * interval)) :
  StronglySorted by_start (sorted_by_start l).
Proof.
  induction l as [|x l IH]; simpl;
    [constructor | apply insert_by_start_sorted, IH].
Qed.

(** Intervals that are apart, under distinct names, do not overlap, in
    whatever order they are listed. *)
Lemma pairwise_apart_no_overlap (d d' : dict interval) :
  pairwise_apart d -> NoDup (dict_keys d) -> Permutation d d' ->
  ~ has_overlap (dict_values d').
Proof.
  intros Hap Hnd Hperm (i & j & a & b & Hij & Hi & Hj & Ho1 & Ho2).
  unfold dict_values in Hi, Hj. rewrite nth_error_map in Hi, Hj.
  destruct (nth_error d' i) as [x|] eqn:Hx; [|discriminate].
  destruct (nth_error d' j) as [y|] eqn:Hy; [|discriminate].
  simpl in Hi, Hj. injection Hi as <-. injection Hj as <-.
  assert (NoDup (dict_keys d')) as Hnd'.
  { unfold dict_keys in *. eapply Permutation_NoDup; [|exact Hnd].
    apply Permutation_map, Hperm. }
  assert (x <> y) as Hne.
  { intros ->. apply NoDup_map_inv in Hnd'.
    rewrite NoDup_nth_error in Hnd'.
    assert (i = j); [|lia]. apply Hnd'; [|congruence].
    apply nth_error_Some. congruence. }
  assert (In x d) as Hxd.
  { apply (Permutation_in _ (Permutation_sym Hperm)).
    eapply nth_error_In, Hx. }
  assert (In y d) as Hyd.
  { apply (Permutation_in _ (Permutation_sym Hperm)).
    eapply nth_error_In, Hy. }
  unfold pairwise_apart in Hap.
  destruct (ForallOrdPairs_In Hap x y Hxd Hyd) as [H|[H|H]].
  - contradiction.
  - unfold apart in H. lra.
  - unfold apart in H. lra.
Qed.

Lemma dict_of_list_keys {V : Type} (l : list (string * V)) (k : string) :
  In k (dict_keys (dict_of_list l)) <-> In k (map fst l).
Proof.
  unfold dict_of_list.
  assert (forall acc,
            In k (dict_keys
                    (fold_left (fun d kv => dict_set d (fst kv) (snd kv)) l acc))
            <-> In k (dict_keys acc) \/ In k (map fst l)) as H.
  { induction l as [|[k0 v0] l IH]; intro acc; simpl; [tauto|].
    rewrite IH, dict_keys_set_In. intuition congruence. }
  rewrite H. simpl. tauto.
Qed.

Lemma phases_of_modehist_unfold (times : list Q) (modehist : list string) :
  phases_of_modehist times modehist =
  (r <- modes_loop times modehist (ordered_set modehist) []
          (map (fun m => (m, @nil string)) (ordered_set modehist)) ;;
   Ok (dict_of_list (sorted_by_start (fst r)), snd r)).
Proof. reflexivity. Qed.

(** What [from_hist] derives from one mode history with a strictly
    increasing time for each entry. *)
Lemma phases_of_modehist_spec (times : list Q) (modehist : list string) :
  increasingQ times ->
  (List.length modehist <= List.length times)%nat ->
  exists phases mph,
    phases_of_modehist times modehist = Ok (phases, mph) /\
    NoDup (dict_keys phases) /\
    Forall (fun e => fst (snd e) <= snd (snd e)) phases /\
    StronglySorted by_start phases /\
    ~ has_overlap (dict_values phases) /\
    groups_declared phases mph /\
    dict_keys mph = ordered_set modehist.
Proof.
  intros Hinc Hlen.
  destruct (modes_loop_inv times modehist Hinc Hlen (ordered_set modehist)
              [] [] (map (fun m => (m, @nil string)) (ordered_set modehist)))
    as (pu & mph & E & Hent & Hap & Hnd).
  - apply ordered_set_NoDup.
  - intros m Hm. split; [intros [] | apply ordered_set_In, Hm].
  - constructor.
  - constructor.
  - constructor.
  - pose proof (sorted_by_start_perm pu) as Hperm.
    assert (NoDup (dict_keys (sorted_by_start pu))) as Hnd'.
    { unfold dict_keys in *. eapply Permutation_NoDup; [|exact Hnd].
      apply Permutation_map, Hperm. }
    exists (sorted_by_start pu), mph.
    rewrite phases_of_modehist_unfold, E. cbn [bind fst snd].
    rewrite (dict_of_list_NoDup _ Hnd').
    split; [reflexivity|]. split; [exact Hnd'|]. split.
    { apply (Permutation_Forall Hperm).
      eapply Forall_impl; [|exact Hent]. intros e (s & e' & m' & Hs).
      exact (stretch_ordered times modehist Hinc Hlen m' s e' (snd e) Hs). }
    split; [apply sorted_by_start_sorted|]. split.
    { apply (pairwise_apart_no_overlap pu); assumption. }
    split.
    { apply modes_loop_groups in E.
      - intros m phs p Hin Hp. unfold dict_keys.
        apply (Permutation_in _ (Permutation_map fst Hperm)).
        apply (E m phs p Hin Hp).
      - intros m phs p Hin Hp. apply in_map_iff in Hin.
        destruct Hin as (m0 & [= <- <-] & _). destruct Hp. }
    { apply modes_loop_modes in E.
      - rewrite E. unfold dict_keys. rewrite map_map. apply map_id.
      - intros m Hm. unfold dict_keys. rewrite map_map. simpl.
        rewrite map_id. exact Hm. }
Qed.

Lemma values_of_specs (phases : dict interval) :
  map interval_of (map spec_of phases) = dict_values phases.
Proof.
  unfold dict_values. rewrite map_map. apply map_ext.
  intros [k [a b]]. reflexivity.
Qed.

(** X24.  From a mode history and strictly increasing times, one for
    each entry, [from_hist] derives phases with distinct names and
    [start <= end], listed by increasing start, no two of which share a
    point; given as a [phases] tuple they pass the overlap check of
    [SimParam].  The times are floats, which the check sorts without
    rounding. *)
Theorem phases_of_modehist_never_overlap :
  forall (times : list Q) (modehist : list string),
    Forall binary64 times ->
    increasingQ times ->
    (List.length modehist <= List.length times)%nat ->
    exists phases mph,
      phases_of_modehist times modehist = Ok (phases, mph) /\
      NoDup (dict_keys phases) /\
      Forall (fun e => fst (snd e) <= snd (snd e)) phases /\
      StronglySorted by_start phases /\
      ~ has_overlap (dict_values phases) /\
      find_any_phase_overlap (map spec_of phases) = Ok tt.
Proof.
  intros times modehist _ Hinc Hlen.
  destruct (phases_of_modehist_spec times modehist Hinc Hlen)
    as (phases & mph & E & Hnd & Hwf & Hs & Hno & _).
  exists phases, mph. repeat (split; [assumption|]).
  apply find_any_phase_overlap_correct.
  - unfold phase_names, dict_keys in *. rewrite map_map. exact Hnd.
  - apply Forall_forall. intros v Hv. apply in_map_iff in Hv.
    destruct Hv as (e & <- & He). rewrite Forall_forall in Hwf.
    apply (Hwf e He).
  - rewrite values_of_specs. exact Hno.
Qed.

Lemma phases_of_modehist_never_overlap_witness :
  exists phases mph,
    phases_of_modehist [0; 1; 2; 3; 4] ["a"; "a"; "b"; "b"; "a"]%string
    = Ok (phases, mph) /\
    ~ has_overlap (dict_values phases).
Proof.
  destruct (phases_of_modehist_never_overlap
              [0; 1; 2; 3; 4] ["a"; "a"; "b"; "b"; "a"]%string)
    as (phases & mph & E & _ & _ & _ & H & _).
  - each float.
  - repeat constructor.
  - simpl. lia.
  - exists phases, mph. auto.
Defined.

Lemma mapM_calc_phase_time_declared (pm : PhaseMap) (phs : list string) :
  (forall p, In p phs -> In p (dict_keys (phases pm))) ->
  is_ok (mapM (calc_phase_time pm) phs) = true.
Proof.
  induction phs as [|p phs IH]; intro H; [reflexivity|]. simpl.
  unfold calc_phase_time at 1. unfold dict_getitem.
  destruct (dict_get (phases pm) p) eqn:E.
  - simpl. specialize (IH (fun q Hq => H q (or_intror Hq))).
    destruct (mapM (calc_phase_time pm) phs); [reflexivity | discriminate].
  - apply dict_get_None in E. exfalso. apply E, H. left. reflexivity.
Qed.

(** X25.  Whenever [from_hist] derives phases and modephases from a mode
    history, the modephases are the modes of the history in order of
    first occurrence, and every phase listed under a mode is one of the
    phases; so in a map built from them [calc_modephase_time] returns for
    every mode. *)
Theorem phases_of_modehist_groups_declared :
  forall (times : list Q) (modehist : list string)
         (ph : dict interval) (mph : dict (list string)) (d : Q),
    phases_of_modehist times modehist = Ok (ph, mph) ->
    dict_keys mph = ordered_set modehist /\
    groups_declared ph mph /\
    (NoDup (dict_keys mph) ->
     forall mode, In mode (dict_keys mph) ->
       is_ok (calc_modephase_time
                {| phases := ph; modephases := mph; dt := d |}
                mode) = true).
Proof.
  intros times modehist phs mph d H.
  rewrite phases_of_modehist_unfold in H.
  destruct (modes_loop times modehist (ordered_set modehist) []
              (map (fun m => (m, @nil string)) (ordered_set modehist)))
    as [[pu mph0]|] eqn:E; [|discriminate].
  cbn [bind fst snd] in H. injection H as <- <-.
  assert (Hg : groups_declared (dict_of_list (sorted_by_start pu)) mph0).
  { apply modes_loop_groups in E.
    - intros m l p Hin Hp. apply dict_of_list_keys.
      apply (Permutation_in _ (Permutation_map fst (sorted_by_start_perm pu))).
      apply (E m l p Hin Hp).
    - intros m l p Hin Hp. apply in_map_iff in Hin.
      destruct Hin as (m0 & [= <- <-] & _). destruct Hp. }
  split; [|split; [exact Hg|]].
  - apply modes_loop_modes in E.
    + rewrite E. unfold dict_keys. rewrite map_map. apply map_id.
    + intros m Hm. unfold dict_keys. rewrite map_map. simpl.
      rewrite map_id. exact Hm.
  - intros Hnd mode Hmode. unfold calc_modephase_time, dict_getitem.
    cbn [modephases].
    destruct (dict_get mph0 mode) as [l|] eqn:El;
      [|apply dict_get_None in El; contradiction].
    cbn [bind]. apply dict_get_In in El.
    pose proof (mapM_calc_phase_time_declared
                  {| phases := dict_of_list (sorted_by_start pu);
                     modephases := mph0; dt := d |} l
                  (fun p Hp => Hg mode l p El Hp)) as Hok.
    destruct (mapM _ l); [reflexivity | discriminate].
Qed.

Lemma phases_of_modehist_groups_declared_witness :
  is_ok (calc_modephase_time
           {| phases := [("a"%string, (0, 1)); ("b"%string, (2, 3));
                         ("a1"%string, (4, 4))];
              modephases := [("a"%string, ["a"; "a1"]%string);
                             ("b"%string, ["b"%string])];
              dt := 1 |} "a") = true.
Proof.
  destruct (phases_of_modehist_groups_declared
              [0; 1; 2; 3; 4] ["a"; "a"; "b"; "b"; "a"]%string
              [("a"%string, (0, 1)); ("b"%string, (2, 3));
               ("a1"%string, (4, 4))]
              [("a"%string, ["a"; "a1"]%string); ("b"%string, ["b"%string])]
              1 eq_refl) as (_ & _ & H).
  apply H.
  - repeat constructor; simpl; intuition discriminate.
  - left. reflexivity.
Defined.

(** *** from_hist as a whole *)

Lemma index_of_In (x : string) (l : list string) :
  In x l -> exists n, index_of x l = Some n /\ (n < List.length l)%nat.
Proof.
  induction l as [|y l IH]; simpl; [intros []|].
  destruct (String.eqb y x) eqn:E.
  - intros _. exists 0%nat. split; [reflexivity | lia].
  - intros [H|H]; [subst; rewrite String.eqb_refl in E; discriminate|].
    destruct (IH H) as (n & -> & Hn). exists (S n). split; [reflexivity | lia].
Qed.

Lemma fxn_of_key_Ok (k : list string) :
  In "m"%string k -> exists fxn, fxn_of_key k = Ok fxn.
Proof.
  intro H. unfold fxn_of_key.
  destruct (index_of_In _ _ H) as (n & -> & Hn).
  destruct n as [|j]; [eauto|]. unfold getitem.
  destruct (nth_error k j) eqn:E; [eauto|].
  apply nth_error_None in E. lia.
Qed.

Lemma hist_loop_inv (times : list Q) (fm : fxn_modephases_arg) :
  increasingQ times ->
  forall modehists acc,
    Forall (fun kh => (List.length (snd kh) <= List.length times)%nat)
      modehists ->
    Forall (fun kh => In "m"%string (fst kh)) modehists ->
    Forall (fun e => derived_map (snd e)) acc ->
    exists maps,
      hist_loop times modehists fm acc = Ok maps /\
      Forall (fun e => derived_map (snd e)) maps.
Proof.
  intros Hinc modehists.
  induction modehists as [|[k h] rest IH]; intros acc Hlen Hkey Hacc.
  - exists acc. auto.
  - inversion Hlen as [|? ? Hl Hlen']; inversion Hkey as [|? ? Hk Hkey']; subst.
    simpl in Hl, Hk. cbn [hist_loop].
    destruct (fxn_of_key_Ok k Hk) as (fxn & ->). cbn [bind].
    destruct h as [|m0 h]; [apply IH; assumption|].
    destruct (phases_of_modehist_spec times (m0 :: h) Hinc Hl)
      as (ph & mph & -> & Hnd & _ & _ & Hno & Hg & _).
    cbn [bind PhaseMap_init fst snd]. apply IH; try assumption.
    apply Forall_dict_set; [exact Hacc|].
    unfold derived_map. cbn [snd dt phases modephases].
    split; [reflexivity|]. split; [exact Hnd|]. split; [exact Hno|].
    destruct fm as [|l]; [exact Hg|].
    destruct (str_mem fxn l); [exact Hg|]. intros m phs p [].
Qed.

(** X26.  For strictly increasing times that are at least as many as the
    entries of each mode history, and keys that hold the name ["m"],
    [from_hist] returns, and every phase map it returns has timestep
    [1.0], distinct phase names, no two phases that share a point, and
    only declared phases under its modephases. *)
Theorem from_hist_phase_maps :
  forall (times : list Q) (modehists : list (list string * list string))
         (fm : fxn_modephases_arg),
    increasingQ times ->
    Forall (fun kh => (List.length (snd kh) <= List.length times)%nat)
      modehists ->
    Forall (fun kh => In "m"%string (fst kh)) modehists ->
    exists maps,
      from_hist times modehists fm = Ok maps /\
      Forall (fun e => derived_map (snd e)) maps.
Proof.
  intros times modehists fm Hinc Hlen Hkey. unfold from_hist.
  apply hist_loop_inv; try assumption. constructor.
Qed.

Lemma from_hist_phase_maps_witness :
  exists maps,
    from_hist [0; 1; 2; 3; 4]
      [(["fxns"; "move"; "m"; "mode"]%string,
        ["a"; "a"; "b"; "b"; "a"]%string)] AllFxns = Ok maps /\
    Forall (fun e => derived_map (snd e)) maps.
Proof.
  apply from_hist_phase_maps.
  - repeat constructor.
  - repeat constructor.
  - constructor; [|constructor]. simpl. right. right. left. reflexivity.
Defined.

Lemma getitem_Raise {A : Type} (l : list A) (i : nat) (e : exn) :
  getitem l i = Raise e -> e = IndexError.
Proof. unfold getitem. destruct (nth_error l i); [discriminate|]. congruence. Qed.

Lemma runs_loop_Raise (times : list Q) (mode : string) (modeinds : list nat)
  (e : exn) :
  forall rest i st,
    runs_loop times mode modeinds rest i st = Raise e -> e = IndexError.
Proof.
  induction rest as [|ind rest IH]; intros i st H; [discriminate|].
  cbn [runs_loop] in H.
  destruct (negb (existsb (Nat.eqb (ind + 1)) modeinds)); [|apply (IH _ _ H)].
  destruct (getitem times (startind st)) as [t0|] eqn:E0;
    [|apply getitem_Raise in E0; simpl in H; congruence].
  destruct (getitem times ind) as [t1|] eqn:E1;
    [|apply getitem_Raise in E1; simpl in H; congruence].
  cbn [bind] in H.
  destruct (negb (Nat.eqb i (List.length modeinds - 1))); [|apply (IH _ _ H)].
  destruct (getitem modeinds (i + 1)) as [next|] eqn:E2;
    [|apply getitem_Raise in E2; simpl in H; congruence].
  apply (IH _ _ H).
Qed.

Lemma runs_loop_reads (times : list Q) (mode : string) (modeinds : list nat) :
  forall rest i st st',
    runs_loop times mode modeinds rest i st = Ok st' ->
    forall ind, In ind rest -> ~ In (ind + 1)%nat modeinds ->
                (ind < List.length times)%nat.
Proof.
  induction rest as [|ind0 rest IH]; intros i st st' H ind Hin Hn; [destruct Hin|].
  cbn [runs_loop] in H.
  destruct (existsb (Nat.eqb (ind0 + 1)) modeinds) eqn:Ex; cbn [negb] in H.
  - destruct Hin as [<-|Hin]; [|apply (IH _ _ _ H ind Hin Hn)].
    apply existsb_eqb_In in Ex. contradiction.
  - destruct (getitem times (startind st)) as [t0|]; [|discriminate].
    unfold getitem at 1 in H.
    destruct (nth_error times ind0) as [t1|] eqn:E1; [|discriminate].
    cbn [bind] in H.
    assert (forall st1, runs_loop times mode modeinds rest (S i) st1 = Ok st' ->
                        (ind < List.length times)%nat) as Hk.
    { intros st1 H1. destruct Hin as [<-|Hin].
      - apply nth_error_Some. congruence.
      - apply (IH _ _ _ H1 ind Hin Hn). }
    destruct (negb (Nat.eqb i (List.length modeinds - 1))).
    + destruct (getitem modeinds (i + 1)); [|discriminate].
      apply (Hk _ H).
    + apply (Hk _ H).
Qed.

Lemma modes_loop_Raise (times : list Q) (modehist : list string) (e : exn) :
  forall modes pu mph,
    modes_loop times modehist modes pu mph = Raise e -> e = IndexError.
Proof.
  induction modes as [|mode modes IH]; intros pu mph H; [discriminate|].
  cbn [modes_loop] in H.
  destruct (getitem (mode_indices mode modehist 0) 0) as [start|] eqn:E0;
    [|apply getitem_Raise in E0; simpl in H; congruence].
  cbn [bind] in H.
  destruct (runs_loop times mode (mode_indices mode modehist 0)
              (mode_indices mode modehist 0) 0
              {| startind := start; phasenum := 0; phaseid := mode;
                 phases_unsorted := pu; mode_set := [] |})
    as [st|e'] eqn:Est.
  - apply (IH _ _ H).
  - apply runs_loop_Raise in Est. simpl in H. congruence.
Qed.

Lemma modes_loop_reads (times : list Q) (modehist : list string) :
  forall modes pu mph r,
    modes_loop times modehist modes pu mph = Ok r ->
    forall mode ind,
      In mode modes -> In ind (mode_indices mode modehist 0) ->
      ~ In (ind + 1)%nat (mode_indices mode modehist 0) ->
      (ind < List.length times)%nat.
Proof.
  induction modes as [|mode0 modes IH]; intros pu mph r H mode ind Hm Hi Hn;
    [destruct Hm|].
  cbn [modes_loop] in H.
  destruct (getitem (mode_indices mode0 modehist 0) 0) as [start|];
    [|discriminate].
  cbn [bind] in H.
  destruct (runs_loop times mode0 (mode_indices mode0 modehist 0)
              (mode_indices mode0 modehist 0) 0
              {| startind := start; phasenum := 0; phaseid := mode0;
                 phases_unsorted := pu; mode_set := [] |})
    as [st|] eqn:Est; [|discriminate].
  cbn [bind] in H. destruct Hm as [<-|Hm].
  - apply (runs_loop_reads _ _ _ _ _ _ _ Est ind Hi Hn).
  - apply (IH _ _ _ H mode ind Hm Hi Hn).
Qed.

(** X27.  [from_hist] reads a time for the last entry of a mode history:
    when there are fewer times than entries, deriving the phases of that
    history stops with an [IndexError]. *)
Theorem phases_of_modehist_short_times :
  forall (times : list Q) (modehist : list string),
    (List.length times < List.length modehist)%nat ->
    phases_of_modehist times modehist = Raise IndexError.
Proof.
  intros times modehist Hlen. rewrite phases_of_modehist_unfold.
  destruct (modes_loop times modehist (ordered_set modehist) []
              (map (fun m => (m, @nil string)) (ordered_set modehist)))
    as [r|e] eqn:E.
  - exfalso.
    assert (List.length modehist - 1 < List.length modehist)%nat as Hlast
        by lia.
    apply nth_error_Some in Hlast.
    destruct (nth_error modehist (List.length modehist - 1)) as [m|] eqn:Em;
      [|congruence].
    assert (List.length modehist - 1 < List.length times)%nat; [|lia].
    apply (modes_loop_reads _ _ _ _ _ _ E m).
    + apply ordered_set_In. eapply nth_error_In, Em.
    + apply mode_indices_In. rewrite Nat.sub_0_r. split; [lia | exact Em].
    + rewrite mode_indices_In, Nat.sub_0_r. intros [_ H].
      assert (nth_error modehist (List.length modehist - 1 + 1) = None) as Hn
          by (apply nth_error_None; lia).
      congruence.
  - apply modes_loop_Raise in E. subst e. reflexivity.
Qed.

Lemma phases_of_modehist_short_times_witness :
  phases_of_modehist [0; 1; 2] ["a"; "a"; "b"; "b"; "a"]%string
  = Raise IndexError.
Proof.
  apply phases_of_modehist_short_times. simpl. lia.
Defined.
